(** * Olive export coordinator ([Exporter]) and [ClickableLabel]

    A shallow embedding of [app/render/backend/exporter.cpp] and
    [app/widget/clickablelabel/clickablelabel.cpp].

    The exporter is a Qt object driven by queued slot invocations.  Its
    members become the fields of the record [Exporter]; every slot is a
    function from states to states; the requests it sends to its
    collaborators (encoder, render backends, conversion pipeline) and
    the signals it emits are appended, in program order, to the [log]
    field of the state. *)

From Stdlib Require Import QArith Qround Qpower Qminmax ZArith List Bool String.
From Stdlib Require Floats.
From Stdlib.Strings Require Import Byte.
From Stdlib Require Import Lia Lqa Sorted Permutation.
Import ListNotations.

Local Open Scope Q_scope.

(** ** Timestamps *)

(** Modelled from the spec: [rational], the exact rational number class
    of the code base (its header is not part of the sources).  A
    timestamp is a rational number; [==], [<], [>=] and [+] on it are
    the exact operations of [Q]. *)
Abbreviation rational := Q (only parsing).

(** [QByteArray]: a frame hash is a byte string. *)
Abbreviation QByteArray := (list byte) (only parsing).

Fixpoint QByteArray_eqb (a b : QByteArray) : bool :=
  match a, b with
  | [], [] => true
  | x :: a', y :: b' => Byte.eqb x y && QByteArray_eqb a' b'
  | _, _ => false
  end.

(** ** [QMap<rational, V>]: a map kept in increasing key order. *)
Module QMap.
Section Ops.
Context {V : Type}.

Definition t : Type := list (rational * V).

(** [find k m] is the entry stored under a key equal to [k]. *)
Fixpoint find (k : rational) (m : t) : option V :=
  match m with
  | [] => None
  | (k', v) :: r => if Qeq_bool k k' then Some v else find k r
  end.

(** [QMap::contains]. *)
Definition contains (k : rational) (m : t) : bool :=
  match find k m with Some _ => true | None => false end.

(** [QMap::value]: a default-constructed value when the key is absent. *)
Definition value (k : rational) (m : t) (default : V) : V :=
  match find k m with Some v => v | None => default end.

(** [QMap::remove]. *)
Fixpoint remove (k : rational) (m : t) : t :=
  match m with
  | [] => []
  | (k', v) :: r =>
      if Qeq_bool k k' then remove k r else (k', v) :: remove k r
  end.

(** [QMap::take]: the entry (if any) and the map without it. *)
Definition take (k : rational) (m : t) : option V * t :=
  (find k m, remove k m).

(** [QMap::insert]: replaces the value of an existing key, otherwise
    adds the entry at its place in key order. *)
Fixpoint insert (k : rational) (v : V) (m : t) : t :=
  match m with
  | [] => [(k, v)]
  | (k', v') :: r =>
      match k ?= k' with
      | Lt => (k, v) :: (k', v') :: r
      | Eq => (k', v) :: r
      | Gt => (k', v') :: insert k v r
      end
  end.

Definition keys (m : t) : list rational := map fst m.

(** Keys strictly increase along the list: the shape of every [QMap]. *)
Definition sorted (m : t) : Prop := StronglySorted Qlt (keys m).
End Ops.
Arguments t : clear implicits.
End QMap.

(** ** [matched_frames_]: hash -> list of timestamps.  Only [value]
    and [insert] are used on it, so its iteration order is immaterial. *)
Module HashMap.
Section Ops.
Context {V : Type}.

Definition t : Type := list (QByteArray * V).

Fixpoint find (k : QByteArray) (m : t) : option V :=
  match m with
  | [] => None
  | (k', v) :: r => if QByteArray_eqb k k' then Some v else find k r
  end.

Definition value (k : QByteArray) (m : t) (default : V) : V :=
  match find k m with Some v => v | None => default end.

Fixpoint insert (k : QByteArray) (v : V) (m : t) : t :=
  match m with
  | [] => [(k, v)]
  | (k', v') :: r =>
      if QByteArray_eqb k k' then (k', v) :: r else (k', v') :: insert k v r
  end.
End Ops.
Arguments t : clear implicits.
End HashMap.

(** ** Time ranges *)

(** Modelled from the spec: [TimeRange] and [TimeRangeList] (declared in
    headers that are not part of the sources).  A range is the
    closed-open interval [[in, out)]; [RemoveTimeRange] subtracts a
    range from every range of the list, keeping the non-empty pieces. *)
Module TimeRange.
Definition t : Type := (rational * rational)%type.
Definition range_in (r : t) : rational := fst r.
Definition range_out (r : t) : rational := snd r.

Definition Qltb (a b : rational) : bool := negb (Qle_bool b a).

(** [inside r x]: the timestamp [x] lies in [[in, out)]. *)
Definition inside (r : t) (x : rational) : bool :=
  Qle_bool (range_in r) x && Qltb x (range_out r).

Definition piece (a b : rational) : list t :=
  if Qltb a b then [(a, b)] else [].

Definition subtract (r rm : t) : list t :=
  piece (range_in r) (Qmin (range_out r) (range_in rm))
  ++ piece (Qmax (range_in r) (range_out rm)) (range_out r).
End TimeRange.

Module TimeRangeList.
Definition t : Type := list TimeRange.t.

Definition RemoveTimeRange (rm : TimeRange.t) (l : t) : t :=
  flat_map (fun r => TimeRange.subtract r rm) l.

Definition covers (l : t) (x : rational) : bool :=
  existsb (fun r => TimeRange.inside r x) l.
End TimeRangeList.

(** ** Frames and the conversion pipeline *)

(** Modelled from the spec: the pixel format enumeration
    ([PixelFormat::Format], not part of the sources).  Only the
    canonical 32-bit float RGBA layout is told apart from the others. *)
Inductive PixelFormat : Type :=
| PIX_FMT_RGBA32F
| PIX_FMT_OTHER (id : nat).

Definition PixelFormat_eqb (a b : PixelFormat) : bool :=
  match a, b with
  | PIX_FMT_RGBA32F, PIX_FMT_RGBA32F => true
  | PIX_FMT_OTHER i, PIX_FMT_OTHER j => Nat.eqb i j
  | _, _ => false
  end.

(** A frame: its pixel layout, its pixel buffer and its timestamp. *)
Record Frame (Pixels : Type) : Type := mkFrame {
  frame_format : PixelFormat;
  frame_data : Pixels;
  frame_timestamp : rational
}.
Arguments mkFrame {Pixels}.
Arguments frame_format {Pixels}.
Arguments frame_data {Pixels}.
Arguments frame_timestamp {Pixels}.

Definition set_timestamp {Pixels} (f : Frame Pixels) (ts : rational)
  : Frame Pixels :=
  mkFrame (frame_format f) (frame_data f) ts.

(** The collaborators of the conversion pipeline.  [TextureToFrame] is
    a virtual hook of [Exporter]; the three others are
    [PixelService::ConvertPixelFormat], [ColorManager::DisassociateAlpha]
    and [ColorProcessor::ConvertFrame].  The in-place ones are read as
    functions from the frame before to the frame after. *)
Class ExporterHooks (QVariant Pixels : Type) : Type := {
  TextureToFrame : QVariant -> Frame Pixels;
  ConvertPixelFormat : Frame Pixels -> PixelFormat -> Frame Pixels;
  DisassociateAlpha : Frame Pixels -> Frame Pixels;
  ConvertFrame : Frame Pixels -> Frame Pixels
}.

(** [VideoRenderWorker::OperatingMode], as far as the exporter uses it. *)
Inductive OperatingMode : Type := kHashOnly | kRenderOnly.

(** ** The C++ type [double]

    [EncodeFrame] computes the progress in [double] arithmetic (IEEE 754
    binary64, rounding to nearest, ties to even) and converts the result
    to [int].  A finite double is modelled by the rational number it
    stands for, and every operation rounds the exact result to the
    nearest double.  The sign of a zero is not kept: it could only show
    in the sign of an infinite quotient, and the conversion to [int]
    does not tell one infinite value from another. *)
Module Double.

Inductive t : Type :=
| Finite (q : Q)
| Infinite (negative : bool)
| NaN.

Definition pow2 (e : Z) : Q := 2 ^ e.

(** For [0 < q], the integer [k] with [2^k <= q < 2^(k+1)]. *)
Definition ilog2 (q : Q) : Z :=
  let k := (Z.log2 (Qnum q) - Z.log2 (Zpos (Qden q)))%Z in
  if Qle_bool (pow2 k) q then k else (k - 1)%Z.

(** The nearest integer, a tie going to the even one. *)
Definition nearest_even (x : Q) : Z :=
  let f := Qfloor x in
  match Qcompare (x - inject_Z f) (1 # 2) with
  | Lt => f
  | Gt => (f + 1)%Z
  | Eq => if Z.even f then f else (f + 1)%Z
  end.

(** The exponent of the last binary place kept for [0 < q]: 53
    significant bits, and no place below [2^-1074] (the subnormal
    numbers). *)
Definition last_place (q : Q) : Z := Z.max (ilog2 q - 52) (-1074).

(** The multiple of [2^(last_place q)] nearest to [0 < q]. *)
Definition nearest (q : Q) : Q :=
  let e := last_place q in
  inject_Z (nearest_even (q / pow2 e)) * pow2 e.

(** Rounding [0 < q]; from [2^1024] on the result is infinite. *)
Definition round_positive (q : Q) : t :=
  let v := nearest q in
  if Qle_bool (pow2 1024) v then Infinite false else Finite (Qred v).

Definition opp (d : t) : t :=
  match d with
  | Finite q => Finite (Qred (- q))
  | Infinite negative => Infinite (negb negative)
  | NaN => NaN
  end.

(** The double nearest to a rational number. *)
Definition round (q : Q) : t :=
  match Qcompare q 0 with
  | Eq => Finite 0
  | Gt => round_positive q
  | Lt => opp (round_positive (- q))
  end.

Definition negative (q : Q) : bool := negb (Qle_bool 0 q).

Definition is_zero (q : Q) : bool := Qeq_bool q 0.

Definition add (x y : t) : t :=
  match x, y with
  | NaN, _ | _, NaN => NaN
  | Infinite a, Infinite b => if Bool.eqb a b then Infinite a else NaN
  | Infinite a, Finite _ | Finite _, Infinite a => Infinite a
  | Finite a, Finite b => round (a + b)
  end.

Definition sub (x y : t) : t := add x (opp y).

Definition mul (x y : t) : t :=
  match x, y with
  | NaN, _ | _, NaN => NaN
  | Infinite a, Infinite b => Infinite (xorb a b)
  | Infinite a, Finite q | Finite q, Infinite a =>
      if is_zero q then NaN else Infinite (xorb a (negative q))
  | Finite a, Finite b => round (a * b)
  end.

Definition div (x y : t) : t :=
  match x, y with
  | NaN, _ | _, NaN => NaN
  | Infinite _, Infinite _ => NaN
  | Infinite a, Finite q => Infinite (xorb a (negative q))
  | Finite _, Infinite _ => Finite 0
  | Finite a, Finite b =>
      if is_zero b then
        if is_zero a then NaN else Infinite (negative a)
      else round (a / b)
  end.

(** [d >= 0.0]. *)
Definition ge_zero (d : t) : bool :=
  match d with
  | Finite q => Qle_bool 0 q
  | Infinite negative => negb negative
  | NaN => false
  end.

(** The range of the 32-bit type [int]. *)
Definition INT_MIN : Z := (- 2 ^ 31)%Z.
Definition INT_MAX : Z := (2 ^ 31 - 1)%Z.

(** A sum of two [int]s, wrapping around as the machine does. *)
Definition int_add (a b : Z) : Z :=
  ((a + b - INT_MIN) mod 2 ^ 32 + INT_MIN)%Z.

Definition truncate (q : Q) : Z :=
  if Qle_bool 0 q then Qfloor q else Qceiling q.

(** The conversion [int(d)]: the fraction is dropped.  C++ leaves the
    result undefined when the double is infinite, not a number, or
    outside the range of [int]; the model then has [INT_MIN], the value
    the conversion instruction of x86-64 gives.  No statement below
    about progress values bears on such a case. *)
Definition to_int (d : t) : Z :=
  match d with
  | Finite q =>
      let z := truncate q in
      if (INT_MIN <=? z)%Z && (z <=? INT_MAX)%Z then z else INT_MIN
  | _ => INT_MIN
  end.

(** The conversion [double(i)] of an [int]. *)
Definition of_int (z : Z) : t := round (inject_Z z).

(** Two doubles that are not negative, the first at most the second. *)
Definition below (x y : t) : Prop :=
  match x, y with
  | Finite a, Finite b => 0 <= a /\ a <= b
  | Finite a, Infinite false => 0 <= a
  | Infinite false, Infinite false => True
  | _, _ => False
  end.

End Double.

(** Modelled from the spec: [rational::toDouble] (the class [rational]
    is not part of the sources; a timestamp is "an exact rational
    (numerator/denominator)"): the double nearest to the fraction, which
    is what dividing the numerator by the denominator in [double]
    arithmetic gives as long as both are below [2^53]. *)
Definition toDouble (q : rational) : Double.t := Double.round q.

(** Qt 5's [qRound(double)] (Qt is not part of the sources):
    [d >= 0.0 ? int(d + 0.5)
              : int(d - double(int(d-1)) + 0.5) + int(d-1)]. *)
Definition qRound (d : Double.t) : Z :=
  if Double.ge_zero d then
    Double.to_int (Double.add d (Double.Finite (1 # 2)))
  else
    let below := Double.to_int (Double.sub d (Double.Finite 1)) in
    Double.int_add
      (Double.to_int
         (Double.add (Double.sub d (Double.of_int below))
            (Double.Finite (1 # 2))))
      below.

(** A timeline length in the range of the fractions of two 64-bit
    integers: its double is finite and not zero. *)
Definition length_ok (len : rational) : Prop :=
  Double.pow2 (-63) <= len /\ len <= Double.pow2 63.

(** The same computation on the floating-point numbers of the machine,
    to compare the model with: [100.0 * (k / n) + 0.5] for two integers,
    converted to [int]. *)
Definition machine_int (f : PrimFloat.float) : Z :=
  match FloatOps.Prim2SF f with
  | SpecFloat.S754_zero _ => 0%Z
  | SpecFloat.S754_finite s m e =>
      let a :=
        if (0 <=? e)%Z then (Zpos m * 2 ^ e)%Z else (Zpos m / 2 ^ (- e))%Z in
      let z := if s then (- a)%Z else a in
      if (Double.INT_MIN <=? z)%Z && (z <=? Double.INT_MAX)%Z then z
      else Double.INT_MIN
  | _ => Double.INT_MIN
  end.

Definition machine_progress (k n : Z) : Z :=
  let a := PrimFloat.of_uint63 (Uint63.of_Z k) in
  let b := PrimFloat.of_uint63 (Uint63.of_Z n) in
  machine_int
    (PrimFloat.add (PrimFloat.mul (PrimFloat.of_uint63 (Uint63.of_Z 100))
                      (PrimFloat.div a b))
       (PrimFloat.div (PrimFloat.of_uint63 (Uint63.of_Z 1))
          (PrimFloat.of_uint63 (Uint63.of_Z 2)))).

(** The pairs [(k, n)] with [1 <= n <= bound] and [0 <= k <= 2 n + 1]. *)
Definition ratios (bound : nat) : list (Z * Z) :=
  flat_map
    (fun n => map (fun k => (Z.of_nat k, Z.of_nat n)) (seq 0 (2 * n + 2)))
    (seq 1 bound).

Section Model.
Context {QVariant Pixels : Type} {hooks : ExporterHooks QVariant Pixels}.

(** *** Observable actions, in the order the code performs them *)
Inductive Action : Type :=
| EncoderOpen
| EncoderClose
| EncoderWriteFrame (f : Frame Pixels)
| EncoderWriteAudio
| VideoSetViewerNode
| VideoSetParameters (time_base : rational)
| VideoSetOperatingMode (m : OperatingMode)
| VideoSetOnlySignalLastFrameRequested (b : bool)
| VideoInvalidateCache (range_in range_out : rational)
| VideoDeleteLater
| AudioSetViewerNode
| AudioSetParameters
| AudioInvalidateCache (range_in range_out : rational)
| AudioCachePathName
| AudioDeleteLater
| CallCleanup
| CallTextureToFrame (value : QVariant)
| CallConvertPixelFormat
| CallDisassociateAlpha
| CallConvertFrame
| ProgressChanged (progress : Z)
| ExportEnded.

(** *** The members of [Exporter] *)
Record Exporter : Type := mkExporter {
  video_backend_ : bool;          (* the pointer is non-null *)
  audio_backend_ : bool;          (* the pointer is non-null *)
  video_done_ : bool;
  audio_done_ : bool;
  export_status_ : bool;
  export_msg_ : string;
  video_params_time_base : rational;   (* video_params_.time_base() *)
  backend_params_time_base : rational; (* video_backend_->params().time_base() *)
  waiting_for_frame_ : rational;
  cached_frames_ : QMap.t QVariant;
  matched_frames_ : HashMap.t (list rational);
  deleted_ : bool;                (* deleteLater() has been requested *)
  log : list Action
}.

(** What the exporter reads from its surroundings: the length of the
    viewer node, the time -> hash table of the video backend's frame
    cache, and the outcome of the virtual [Initialize] hook. *)
Record Env : Type := mkEnv {
  Length : rational;
  time_hash_map : QMap.t QByteArray;
  initialize_ok : bool
}.

Definition set_backends (v a : bool) (s : Exporter) : Exporter :=
  mkExporter v a (video_done_ s) (audio_done_ s) (export_status_ s)
    (export_msg_ s) (video_params_time_base s) (backend_params_time_base s)
    (waiting_for_frame_ s) (cached_frames_ s) (matched_frames_ s)
    (deleted_ s) (log s).

Definition set_video_done (b : bool) (s : Exporter) : Exporter :=
  mkExporter (video_backend_ s) (audio_backend_ s) b (audio_done_ s)
    (export_status_ s) (export_msg_ s) (video_params_time_base s)
    (backend_params_time_base s) (waiting_for_frame_ s) (cached_frames_ s)
    (matched_frames_ s) (deleted_ s) (log s).

Definition set_audio_done (b : bool) (s : Exporter) : Exporter :=
  mkExporter (video_backend_ s) (audio_backend_ s) (video_done_ s) b
    (export_status_ s) (export_msg_ s) (video_params_time_base s)
    (backend_params_time_base s) (waiting_for_frame_ s) (cached_frames_ s)
    (matched_frames_ s) (deleted_ s) (log s).

Definition set_export_status (b : bool) (s : Exporter) : Exporter :=
  mkExporter (video_backend_ s) (audio_backend_ s) (video_done_ s)
    (audio_done_ s) b (export_msg_ s) (video_params_time_base s)
    (backend_params_time_base s) (waiting_for_frame_ s) (cached_frames_ s)
    (matched_frames_ s) (deleted_ s) (log s).

Definition SetExportMessage (m : string) (s : Exporter) : Exporter :=
  mkExporter (video_backend_ s) (audio_backend_ s) (video_done_ s)
    (audio_done_ s) (export_status_ s) m (video_params_time_base s)
    (backend_params_time_base s) (waiting_for_frame_ s) (cached_frames_ s)
    (matched_frames_ s) (deleted_ s) (log s).

Definition set_video_params (tb : rational) (s : Exporter) : Exporter :=
  mkExporter (video_backend_ s) (audio_backend_ s) (video_done_ s)
    (audio_done_ s) (export_status_ s) (export_msg_ s) tb
    (backend_params_time_base s) (waiting_for_frame_ s) (cached_frames_ s)
    (matched_frames_ s) (deleted_ s) (log s).

Definition set_backend_params (tb : rational) (s : Exporter) : Exporter :=
  mkExporter (video_backend_ s) (audio_backend_ s) (video_done_ s)
    (audio_done_ s) (export_status_ s) (export_msg_ s)
    (video_params_time_base s) tb (waiting_for_frame_ s) (cached_frames_ s)
    (matched_frames_ s) (deleted_ s) (log s).

Definition set_waiting (w : rational) (s : Exporter) : Exporter :=
  mkExporter (video_backend_ s) (audio_backend_ s) (video_done_ s)
    (audio_done_ s) (export_status_ s) (export_msg_ s)
    (video_params_time_base s) (backend_params_time_base s) w
    (cached_frames_ s) (matched_frames_ s) (deleted_ s) (log s).

Definition set_cached (c : QMap.t QVariant) (s : Exporter) : Exporter :=
  mkExporter (video_backend_ s) (audio_backend_ s) (video_done_ s)
    (audio_done_ s) (export_status_ s) (export_msg_ s)
    (video_params_time_base s) (backend_params_time_base s)
    (waiting_for_frame_ s) c (matched_frames_ s) (deleted_ s) (log s).

Definition set_matched (m : HashMap.t (list rational)) (s : Exporter)
  : Exporter :=
  mkExporter (video_backend_ s) (audio_backend_ s) (video_done_ s)
    (audio_done_ s) (export_status_ s) (export_msg_ s)
    (video_params_time_base s) (backend_params_time_base s)
    (waiting_for_frame_ s) (cached_frames_ s) m (deleted_ s) (log s).

Definition set_deleted (b : bool) (s : Exporter) : Exporter :=
  mkExporter (video_backend_ s) (audio_backend_ s) (video_done_ s)
    (audio_done_ s) (export_status_ s) (export_msg_ s)
    (video_params_time_base s) (backend_params_time_base s)
    (waiting_for_frame_ s) (cached_frames_ s) (matched_frames_ s) b (log s).

Definition set_log (l : list Action) (s : Exporter) : Exporter :=
  mkExporter (video_backend_ s) (audio_backend_ s) (video_done_ s)
    (audio_done_ s) (export_status_ s) (export_msg_ s)
    (video_params_time_base s) (backend_params_time_base s)
    (waiting_for_frame_ s) (cached_frames_ s) (matched_frames_ s)
    (deleted_ s) l.

(** One request or signal, appended to the log. *)
Definition emit (a : Action) (s : Exporter) : Exporter :=
  set_log (log s ++ [a]) s.

(** *** Construction and configuration *)

(** [Exporter::Exporter]. *)
Definition constructor : Exporter :=
  mkExporter false false true true false "Export hasn't started yet"%string
    0 0 0 [] [] false [].

(** [Exporter::EnableVideo]. *)
Definition EnableVideo (time_base : rational) (s : Exporter) : Exporter :=
  set_video_done false (set_video_params time_base s).

(** [Exporter::EnableAudio]. *)
Definition EnableAudio (s : Exporter) : Exporter :=
  set_audio_done false s.

Definition GetExportStatus (s : Exporter) : bool := export_status_ s.
Definition GetExportError (s : Exporter) : string := export_msg_ s.

(** *** Termination paths *)

(** [emit ExportEnded()]: the constructor connected the signal to
    [deleteLater], so the object is scheduled for deletion. *)
Definition emit_ExportEnded (s : Exporter) : Exporter :=
  set_deleted true (emit ExportEnded s).

(** [Exporter::ExportFailed]. *)
Definition ExportFailed (s : Exporter) : Exporter := emit_ExportEnded s.

(** [Exporter::ExportSucceeded]. *)
Definition ExportSucceeded (s : Exporter) : Exporter :=
  if negb (audio_done_ s) || negb (video_done_ s) then s
  else
    let s := emit CallCleanup s in
    let s := if video_backend_ s then emit VideoDeleteLater s else s in
    let s := set_export_status true s in
    emit EncoderClose s.

(** *** Encoding *)

(** The progress value computed after a frame has been written:
    [qRound(100.0 * (waiting_for_frame_.toDouble()
                     / viewer_node_->Length().toDouble()))]. *)
Definition progress_of (env : Env) (waiting : rational) : Z :=
  qRound
    (Double.mul (Double.Finite 100)
       (Double.div (toDouble waiting) (toDouble (Length env)))).

(** The colour conversion wants a frame in 32-bit float layout. *)
Definition to_float_format (f : Frame Pixels) : Frame Pixels :=
  if PixelFormat_eqb (frame_format f) PIX_FMT_RGBA32F then f
  else ConvertPixelFormat f PIX_FMT_RGBA32F.

(** What the pipeline makes of a rendered value, before the frame is
    stamped with its timestamp. *)
Definition converted (value : QVariant) : Frame Pixels :=
  ConvertFrame (DisassociateAlpha (to_float_format (TextureToFrame value))).

(** The body of the [do ... while] loop of [EncodeFrame], once [value]
    has been chosen. *)
Definition encode_body (env : Env) (value : QVariant) (s : Exporter)
  : Exporter :=
  let s := emit (CallTextureToFrame value) s in
  let frame := TextureToFrame value in
  let s :=
    if PixelFormat_eqb (frame_format frame) PIX_FMT_RGBA32F then s
    else emit CallConvertPixelFormat s in
  let frame := to_float_format frame in
  let s := emit CallDisassociateAlpha s in
  let frame := DisassociateAlpha frame in
  let s := emit CallConvertFrame s in
  let frame := ConvertFrame frame in
  let frame := set_timestamp frame (waiting_for_frame_ s) in
  let s := emit (EncoderWriteFrame frame) s in
  let s :=
    set_waiting (waiting_for_frame_ s + video_params_time_base s) s in
  emit (ProgressChanged (progress_of env (waiting_for_frame_ s))) s.

(** The iterations of the loop after the first one: as long as the
    cache holds the expected timestamp, take it and encode it.  Each
    iteration removes an entry of the cache, so the size of the cache
    bounds their number ([fuel]). *)
Fixpoint drain (env : Env) (fuel : nat) (s : Exporter) : Exporter :=
  match fuel with
  | O => s
  | S fuel' =>
      match QMap.take (waiting_for_frame_ s) (cached_frames_ s) with
      | (Some value, rest) =>
          drain env fuel' (encode_body env value (set_cached rest s))
      | (None, _) => s
      end
  end.

(** [Exporter::EncodeFrame]. *)
Definition EncodeFrame (env : Env) (time : rational) (value : QVariant)
    (s : Exporter) : Exporter :=
  if Qeq_bool time (waiting_for_frame_ s) then
    let s := encode_body env value s in
    let s := drain env (List.length (cached_frames_ s)) s in
    if Qle_bool (Length env) (waiting_for_frame_ s) then
      ExportSucceeded (set_video_done true s)
    else s
  else
    set_cached (QMap.insert time value (cached_frames_ s)) s.

(** [Exporter::FrameRendered]. *)
Definition FrameRendered (env : Env) (time : rational) (value : QVariant)
    (s : Exporter) : Exporter :=
  let map_hash := QMap.value time (time_hash_map env) [] in
  let s := EncodeFrame env time value s in
  let matching_times := HashMap.value map_hash (matched_frames_ s) [] in
  fold_left (fun s t => EncodeFrame env t value s) matching_times s.

(** *** Audio *)

(** [Exporter::AudioRendered]. *)
Definition AudioRendered (s : Exporter) : Exporter :=
  let s := emit AudioCachePathName s in
  let s := emit EncoderWriteAudio s in
  emit AudioDeleteLater s.

(** [Exporter::AudioEncodeComplete]. *)
Definition AudioEncodeComplete (s : Exporter) : Exporter :=
  ExportSucceeded (set_audio_done true s).

(** *** Encoder notifications *)

(** [Exporter::EncoderOpenedSuccessfully]. *)
Definition EncoderOpenedSuccessfully (env : Env) (s : Exporter) : Exporter :=
  let s :=
    if negb (video_done_ s) then
      let s := emit (VideoSetOperatingMode kHashOnly) s in
      emit (VideoInvalidateCache 0 (Length env)) s
    else s in
  if negb (audio_done_ s) then
    emit (AudioInvalidateCache 0 (Length env)) s
  else s.

(** [Exporter::EncoderOpenFailed]. *)
Definition EncoderOpenFailed (s : Exporter) : Exporter :=
  ExportFailed (SetExportMessage "Failed to open encoder"%string s).

(** [Exporter::EncoderClosed]. *)
Definition EncoderClosed (s : Exporter) : Exporter :=
  emit_ExportEnded (emit (ProgressChanged 100) s).

(** *** Hash phase: collapsing duplicate frames *)

(** What the two nested loops of [VideoHashesComplete] update. *)
Definition Dedup : Type :=
  (TimeRangeList.t * HashMap.t (list rational))%type.

(** The inner [while] loop over a stretch [seg] of the copied map that
    does not hold the entry [i] points to: an entry with the hash
    [ihash] of [i] is dropped from the ranges, recorded under
    [ihash] and erased from the map; the others are kept. *)
Fixpoint scan (time_base : rational) (ihash : QByteArray)
    (seg : QMap.t QByteArray) (acc : Dedup)
  : QMap.t QByteArray * Dedup :=
  match seg with
  | [] => ([], acc)
  | (jkey, jvalue) :: rest =>
      if QByteArray_eqb ihash jvalue then
        let ranges :=
          TimeRangeList.RemoveTimeRange (jkey, jkey + time_base) (fst acc) in
        let times_with_this_hash :=
          HashMap.value ihash (snd acc) [] ++ [jkey] in
        let matched := HashMap.insert ihash times_with_this_hash (snd acc) in
        scan time_base ihash rest (ranges, matched)
      else
        let (kept, acc') := scan time_base ihash rest acc in
        ((jkey, jvalue) :: kept, acc')
  end.

(** The outer [for] loop.  [before] are the entries in front of [i],
    [after] is the entry of [i] followed by the ones behind it; [j]
    runs over [before], skips [i], then runs over the rest.  Every
    round moves [i] one entry forward, so the size of the map bounds
    the number of rounds ([fuel]). *)
Fixpoint dedup_loop (time_base : rational) (fuel : nat)
    (before after : QMap.t QByteArray) (acc : Dedup) : Dedup :=
  match fuel with
  | O => acc
  | S fuel' =>
      match after with
      | [] => acc
      | (ikey, ivalue) :: rest =>
          let (before', acc1) := scan time_base ivalue before acc in
          let (rest', acc2) := scan time_base ivalue rest acc1 in
          dedup_loop time_base fuel' (before' ++ [(ikey, ivalue)]) rest' acc2
      end
  end.

(** [Exporter::VideoHashesComplete]. *)
Definition VideoHashesComplete (env : Env) (s : Exporter) : Exporter :=
  let ranges := [(0, Length env)] in
  let hashes := time_hash_map env in
  let (ranges, matched) :=
    dedup_loop (backend_params_time_base s) (List.length hashes) [] hashes
      (ranges, matched_frames_ s) in
  let s := set_matched matched s in
  let s := emit (VideoSetOperatingMode kRenderOnly) s in
  let s := emit (VideoSetOnlySignalLastFrameRequested false) s in
  fold_left
    (fun s range =>
       emit (VideoInvalidateCache (TimeRange.range_in range)
               (TimeRange.range_out range)) s)
    ranges s.

(** *** Start *)

(** Modelled from the spec: the virtual [Initialize] hook, not part of
    the sources.  It creates both backends and reports success, or
    fails without creating them. *)
Definition Initialize (env : Env) (s : Exporter) : bool * Exporter :=
  if initialize_ok env then (true, set_backends true true s) else (false, s).

(** [Exporter::StartExporting]. *)
Definition StartExporting (env : Env) (s : Exporter) : Exporter :=
  let s := set_export_status false s in
  let (ok, s) := Initialize env s in
  if negb ok then
    ExportFailed (SetExportMessage "Failed to initialize exporter"%string s)
  else
    let s :=
      if negb (video_done_ s) then
        let s := emit VideoSetViewerNode s in
        let s := emit (VideoSetParameters (video_params_time_base s)) s in
        let s := set_backend_params (video_params_time_base s) s in
        set_waiting 0 s
      else s in
    let s :=
      if negb (audio_done_ s) then
        let s := emit AudioSetViewerNode s in
        emit AudioSetParameters s
      else s in
    emit EncoderOpen s.

(** *** The event loop

    The calls the Qt event loop (or the owner of the job) makes on the
    exporter.  Which signal of the encoder or of a backend reaches
    which slot is settled by the [connect] calls of the code; here it
    is the sequence of calls that says which slots run.

    The code itself never refuses a call.  The constructor connects
    [ExportEnded] to [deleteLater], so once the signal has been emitted
    the event loop destroys the object the next time it is in control,
    and what is posted to the object afterwards is never delivered.
    [run] is the job as the event loop sees it, the deletion taken to
    happen as soon as it is requested; [run_slots] runs every call,
    as for calls made while the object still exists. *)
Inductive Call : Type :=
| CallStartExporting
| CallEncoderOpenedSuccessfully
| CallEncoderOpenFailed
| CallAudioEncodeComplete
| CallVideoHashesComplete
| CallFrameRendered (time : rational) (value : QVariant)
| CallAudioRendered
| CallEncoderClosed.

Definition handle (env : Env) (c : Call) (s : Exporter) : Exporter :=
  match c with
  | CallStartExporting => StartExporting env s
  | CallEncoderOpenedSuccessfully => EncoderOpenedSuccessfully env s
  | CallEncoderOpenFailed => EncoderOpenFailed s
  | CallAudioEncodeComplete => AudioEncodeComplete s
  | CallVideoHashesComplete => VideoHashesComplete env s
  | CallFrameRendered time value => FrameRendered env time value s
  | CallAudioRendered => AudioRendered s
  | CallEncoderClosed => EncoderClosed s
  end.

Definition deliver (env : Env) (s : Exporter) (c : Call) : Exporter :=
  if deleted_ s then s else handle env c s.

Definition run (env : Env) (calls : list Call) (s : Exporter) : Exporter :=
  fold_left (deliver env) calls s.

(** Every call runs its slot, whether or not [ExportEnded] has been
    emitted before. *)
Definition run_slots (env : Env) (calls : list Call) (s : Exporter)
  : Exporter :=
  fold_left (fun s c => handle env c s) calls s.

(** The actions performed when [calls] are delivered to [s]. *)
Definition trace (env : Env) (calls : list Call) (s : Exporter)
  : list Action :=
  log (run env calls (set_log [] s)).

(** *** Reading a log *)

Definition written_frame (a : Action) : option (Frame Pixels) :=
  match a with EncoderWriteFrame f => Some f | _ => None end.

(** The frames handed to [WriteFrame], in order. *)
Fixpoint written_frames (l : list Action) : list (Frame Pixels) :=
  match l with
  | [] => []
  | a :: r =>
      match written_frame a with
      | Some f => f :: written_frames r
      | None => written_frames r
      end
  end.

Definition write_times (l : list Action) : list rational :=
  map frame_timestamp (written_frames l).

(** The values sent with [ProgressChanged], in order. *)
Fixpoint progress_values (l : list Action) : list Z :=
  match l with
  | [] => []
  | ProgressChanged p :: r => p :: progress_values r
  | _ :: r => progress_values r
  end.

(** The ranges passed to the video backend's [InvalidateCache] while
    the backend is in operating mode [wanted]; [current] is the mode
    set by the latest [SetOperatingMode]. *)
Fixpoint video_requests (wanted : OperatingMode)
    (current : option OperatingMode) (l : list Action) : TimeRangeList.t :=
  match l with
  | [] => []
  | VideoSetOperatingMode m :: r => video_requests wanted (Some m) r
  | VideoInvalidateCache a b :: r =>
      match wanted, current with
      | kHashOnly, Some kHashOnly | kRenderOnly, Some kRenderOnly =>
          (a, b) :: video_requests wanted current r
      | _, _ => video_requests wanted current r
      end
  | _ :: r => video_requests wanted current r
  end.

(** The ranges the video backend is asked to hash, and to render. *)
Definition hash_requests (l : list Action) : TimeRangeList.t :=
  video_requests kHashOnly None l.

Definition render_requests (l : list Action) : TimeRangeList.t :=
  video_requests kRenderOnly None l.

Definition is_ExportEnded (a : Action) : bool :=
  match a with ExportEnded => true | _ => false end.

Definition is_EncoderClose (a : Action) : bool :=
  match a with EncoderClose => true | _ => false end.

Definition is_conversion (a : Action) : bool :=
  match a with
  | CallTextureToFrame _ | CallConvertPixelFormat
  | CallDisassociateAlpha | CallConvertFrame => true
  | _ => false
  end.

Definition is_texture_to_frame (a : Action) : bool :=
  match a with CallTextureToFrame _ => true | _ => false end.


(** Any use of the audio backend. *)
Definition is_audio_backend (a : Action) : bool :=
  match a with
  | AudioSetViewerNode | AudioSetParameters | AudioInvalidateCache _ _
  | AudioCachePathName | AudioDeleteLater => true
  | _ => false
  end.

Definition count (p : Action -> bool) (l : list Action) : nat :=
  List.length (filter p l).
End Model.

(** ** [ClickableLabel] *)
Module ClickableLabel.
Inductive Signal : Type := MouseClicked | MouseDoubleClicked.

(** The one piece of widget state the handlers read: [underMouse()]. *)
Record Widget : Type := mkWidget { underMouse : bool }.

(** [ClickableLabel::mouseReleaseEvent]: the signals it emits. *)
Definition mouseReleaseEvent (w : Widget) : list Signal :=
  if underMouse w then [MouseClicked] else [].

(** [ClickableLabel::mouseDoubleClickEvent]: the signals it emits. *)
Definition mouseDoubleClickEvent (w : Widget) : list Signal :=
  [MouseDoubleClicked].
End ClickableLabel.


(** ** A concrete pipeline, used to run the model on examples

    Rendered values and pixel buffers are numbers; [TextureToFrame]
    yields an 8-bit frame holding the value, [ConvertPixelFormat] only
    relabels the layout, and the two colour steps leave the buffer as
    it is. *)
#[export] Instance example_hooks : ExporterHooks nat nat := {|
  TextureToFrame v := mkFrame (PIX_FMT_OTHER 0) v 0;
  ConvertPixelFormat f fmt := mkFrame fmt (frame_data f) (frame_timestamp f);
  DisassociateAlpha f := f;
  ConvertFrame f := f
|}.

(** The [k]-th timestamp of the grid of step [time_base]. *)
Definition time_of (time_base : rational) (k : nat) : rational :=
  inject_Z (Z.of_nat k) * time_base.

(** The hashes of the frames [0 .. length hashes - 1], each with its
    frame index. *)
Definition indexed (hashes : list QByteArray) : list (nat * QByteArray) :=
  combine (seq 0 (List.length hashes)) hashes.

(** The time -> hash table of a backend that hashed the frames
    [0 .. length hashes - 1] of the grid of step [time_base], the
    [k]-th frame hashing to the [k]-th element of [hashes]. *)
Definition hash_index (time_base : rational) (hashes : list QByteArray)
  : QMap.t QByteArray :=
  map (fun e => (time_of time_base (fst e), snd e)) (indexed hashes).

(** The timestamps stored under the hash [h], in key order. *)
Definition times_with_hash (h : QByteArray) (m : QMap.t QByteArray)
  : list rational :=
  map fst (filter (fun e => QByteArray_eqb h (snd e)) m).

(** The frame indices whose hash is [h], in increasing order. *)
Definition indices_with_hash (h : QByteArray) (hashes : list QByteArray)
  : list nat :=
  map fst (filter (fun e => QByteArray_eqb h (snd e)) (indexed hashes)).

(** The first frame index carrying the same hash as frame [k]. *)
Definition primary_of (hashes : list QByteArray) (k : nat) : nat :=
  hd k (indices_with_hash (nth k hashes []) hashes).

(** Ten frames of which frames 3 and 7 carry the same hash. *)
Definition scenario_hashes : list QByteArray :=
  [[x00]; [x01]; [x02]; [x03]; [x04]; [x05]; [x06]; [x03]; [x08]; [x09]].

(** ** Vocabulary for the statements about the exporter *)

Section Vocabulary.
Context {QVariant Pixels : Type} {hooks : ExporterHooks QVariant Pixels}.

Definition is_write (a : @Action QVariant Pixels) : bool :=
  match a with EncoderWriteFrame _ => true | _ => false end.

Definition is_progress (a : @Action QVariant Pixels) : bool :=
  match a with ProgressChanged _ => true | _ => false end.

(** The calls of the conversion pipeline made for one rendered value. *)
Definition pipeline_calls (value : QVariant) : list (@Action QVariant Pixels) :=
  CallTextureToFrame value
  :: (if PixelFormat_eqb (frame_format (TextureToFrame value)) PIX_FMT_RGBA32F
      then [] else [CallConvertPixelFormat])
  ++ [CallDisassociateAlpha; CallConvertFrame].

(** Everything one round of the loop of [EncodeFrame] does, when the
    expected timestamp is [waiting] and the step is [time_base]. *)
Definition body_actions (env : Env) (time_base waiting : rational)
    (value : QVariant) : list (@Action QVariant Pixels) :=
  pipeline_calls value
  ++ [EncoderWriteFrame (set_timestamp (converted value) waiting);
      ProgressChanged (progress_of env (waiting + time_base))].
(** The frames written so far are in strictly increasing timestamp
    order and all lie before the expected timestamp. *)
Definition ordered (s : @Exporter QVariant Pixels) : Prop :=
  0 < video_params_time_base s
  /\ StronglySorted Qlt (write_times (log s))
  /\ Forall (fun ts => ts < waiting_for_frame_ s) (write_times (log s)).

(** The timestamp [t] is stale: it lies before the expected timestamp
    and sits in the cache. *)
Definition stale (t : rational) (s : @Exporter QVariant Pixels) : Prop :=
  0 < video_params_time_base s
  /\ t < waiting_for_frame_ s
  /\ QMap.contains t (cached_frames_ s) = true.

(** The progress values so far follow the frames written so far, one
    value per frame; the frames carry timestamps that are not negative
    and do not decrease, each at least one step before the expected
    timestamp. *)
Definition progressing (env : Env) (s : @Exporter QVariant Pixels) : Prop :=
  0 < video_params_time_base s
  /\ 0 <= waiting_for_frame_ s
  /\ StronglySorted Qle (write_times (log s))
  /\ Forall
       (fun ts =>
          0 <= ts
          /\ ts + video_params_time_base s <= waiting_for_frame_ s)
       (write_times (log s))
  /\ progress_values (log s)
     = map (fun ts => progress_of env (ts + video_params_time_base s))
         (write_times (log s)).
(** The frames written so far all lie after the timestamp [t]. *)
Definition beyond (t : rational) (s : @Exporter QVariant Pixels) : Prop :=
  0 < video_params_time_base s
  /\ t < waiting_for_frame_ s
  /\ Forall (fun ts => t < ts) (write_times (log s)).

(** Neither a frame for the encoder nor a progress value. *)
Definition is_quiet (a : @Action QVariant Pixels) : bool :=
  negb (is_write a) && negb (is_progress a).
(** What the nested loops of [VideoHashesComplete] compute. *)
Definition collapsed (env : Env) (s : @Exporter QVariant Pixels) : Dedup :=
  dedup_loop (backend_params_time_base s)
    (List.length (time_hash_map env)) [] (time_hash_map env)
    ([(0, Length env)], matched_frames_ s).

Definition invalidate (r : TimeRange.t) : @Action QVariant Pixels :=
  VideoInvalidateCache (TimeRange.range_in r) (TimeRange.range_out r).
(** The actions that are not part of a round of the loop of
    [EncodeFrame]. *)
Definition is_other (a : @Action QVariant Pixels) : bool :=
  negb (is_conversion a || is_write a || is_progress a).

Definition others (l : list (@Action QVariant Pixels))
  : list (@Action QVariant Pixels) :=
  filter is_other l.

(** How far the encoding of the frames has got: [w] frames have been
    written, the frame of index [k] being the conversion of
    [value_of k]; the pipeline ran once for each of them. *)
Record output_ok (tb : rational) (value_of : nat -> QVariant)
    (matched : HashMap.t (list rational)) (w : nat)
    (s : @Exporter QVariant Pixels) : Prop := mkOutputOk {
  out_time_base : video_params_time_base s = tb;
  out_matched : matched_frames_ s = matched;
  out_waiting : waiting_for_frame_ s == time_of tb w;
  out_written :
    Forall2
      (fun f k =>
         f = set_timestamp (converted (value_of k)) (frame_timestamp f)
         /\ frame_timestamp f == time_of tb k)
      (written_frames (log s)) (seq 0 w);
  out_conversions : count is_texture_to_frame (log s) = w
}.

(** The cache against the set [seen] of the frame indices passed to
    [EncodeFrame] so far, [w] frames being written. *)
Record cache_ok (tb : rational) (n : nat) (value_of : nat -> QVariant)
    (w : nat) (seen : list nat) (c : QMap.t QVariant) : Prop := mkCacheOk {
  cache_entry : forall k v,
      QMap.find (time_of tb k) c = Some v ->
      In k seen /\ (w <= k)%nat /\ v = value_of k;
  cache_seen : forall k,
      In k seen -> (k < w)%nat \/ QMap.find (time_of tb k) c <> None;
  cache_done : forall k, (k < w)%nat -> In k seen;
  cache_bound : forall k, In k seen -> (k < n)%nat
}.

(** The flags while frames are still expected. *)
Record unfinished (audio_done : bool) (base : list (@Action QVariant Pixels))
    (s : @Exporter QVariant Pixels) : Prop := mkUnfinished {
  unf_audio : audio_done_ s = audio_done;
  unf_backend : video_backend_ s = true;
  unf_deleted : deleted_ s = false;
  unf_video : video_done_ s = false;
  unf_status : export_status_ s = false;
  unf_others : others (log s) = base
}.

(** The flags once the last frame has been written. *)
Record finished (audio_done : bool) (base : list (@Action QVariant Pixels))
    (s : @Exporter QVariant Pixels) : Prop := mkFinished {
  fin_audio : audio_done_ s = audio_done;
  fin_deleted : deleted_ s = false;
  fin_video : video_done_ s = true;
  fin_status : export_status_ s = audio_done;
  fin_others :
    others (log s)
    = base ++ (if audio_done
               then [CallCleanup; VideoDeleteLater; EncoderClose] else [])
}.

(** The state between two calls of [EncodeFrame] in a job of [n]
    frames: the cache does not hold the expected frame. *)
Record settled (tb : rational) (n : nat) (value_of : nat -> QVariant)
    (matched : HashMap.t (list rational)) (audio_done : bool)
    (base : list (@Action QVariant Pixels)) (w : nat) (seen : list nat)
    (s : @Exporter QVariant Pixels) : Prop := mkSettled {
  set_output : output_ok tb value_of matched w s;
  set_cache : cache_ok tb n value_of w seen (cached_frames_ s);
  set_drained : QMap.find (time_of tb w) (cached_frames_ s) = None;
  set_running : (w < n)%nat -> unfinished audio_done base s;
  set_finished : (n <= w)%nat -> (0 < n)%nat -> finished audio_done base s
}.
(** *** A job from its start *)

(** The exporter once the streams have been enabled: video always,
    audio when [audio] is set. *)
Definition job_start (time_base : rational) (audio : bool)
  : @Exporter QVariant Pixels :=
  if audio then EnableAudio (EnableVideo time_base constructor)
  else EnableVideo time_base constructor.

(** The surroundings of a job whose backend hashes frame [k] of the
    grid to the [k]-th element of [hashes]. *)
Definition job_env (time_base len : rational) (hashes : list QByteArray)
  : Env :=
  mkEnv len (hash_index time_base hashes) true.

(** The calls up to the end of the hash phase. *)
Definition setup_calls : list (@Call QVariant) :=
  [CallStartExporting; CallEncoderOpenedSuccessfully;
   CallVideoHashesComplete].

(** One [FrameRendered] per frame index of [order], frame [k] being
    delivered with the rendered value [frames k]. *)
Definition frame_calls (time_base : rational) (frames : nat -> QVariant)
    (order : list nat) : list (@Call QVariant) :=
  map (fun k => CallFrameRendered (time_of time_base k) (frames k)) order.

(** The frame indices whose timestamp lies in a range the backend was
    asked to render. *)
Definition requested (time_base len : rational) (hashes : list QByteArray)
    (audio : bool) : list nat :=
  filter
    (fun k =>
       TimeRangeList.covers
         (render_requests
            (trace (job_env time_base len hashes) setup_calls
               (job_start time_base audio)))
         (time_of time_base k))
    (seq 0 (List.length hashes)).

(** The exporter after [StartExporting] and the successful open. *)
Definition after_open (time_base len : rational) (audio : bool)
  : @Exporter QVariant Pixels :=
  mkExporter true true false (negb audio) false
    "Export hasn't started yet"%string time_base time_base 0 [] [] false
    ([VideoSetViewerNode; VideoSetParameters time_base]
     ++ (if audio then [AudioSetViewerNode; AudioSetParameters] else [])
     ++ [EncoderOpen; VideoSetOperatingMode kHashOnly;
         VideoInvalidateCache 0 len]
     ++ (if audio then [AudioInvalidateCache 0 len] else [])).
(** Between [s0] and [s] either no [Close] was requested or both
    streams are done; a stream that was done still is. *)
Definition close_guard (s0 s : @Exporter QVariant Pixels) : Prop :=
  (count is_EncoderClose (log s) = count is_EncoderClose (log s0)
   \/ (video_done_ s = true /\ audio_done_ s = true))
  /\ (video_done_ s0 = true -> video_done_ s = true)
  /\ (audio_done_ s0 = true -> audio_done_ s = true).

(** A property [P] of the state is [stable] when the elementary updates
    the slots are made of keep it: emitting an action accepted by [ok],
    the two ways [EncodeFrame] touches the cache, one round of its loop,
    and the updates of the flags, of the message and of the table of
    duplicates. *)
Record stable (env : Env) (ok : Action -> bool)
    (P : @Exporter QVariant Pixels -> Prop) : Prop := mkStable {
  stable_emit : forall a s, ok a = true -> P s -> P (emit a s);
  stable_take : forall s,
      P s ->
      P (set_cached (QMap.remove (waiting_for_frame_ s) (cached_frames_ s)) s);
  stable_insert : forall t v s,
      P s -> P (set_cached (QMap.insert t v (cached_frames_ s)) s);
  stable_body : forall v s, P s -> P (encode_body env v s);
  stable_video_done : forall s, P s -> P (set_video_done true s);
  stable_audio_done : forall s, P s -> P (set_audio_done true s);
  stable_status : forall b s, P s -> P (set_export_status b s);
  stable_message : forall m s, P s -> P (SetExportMessage m s);
  stable_matched : forall m s, P s -> P (set_matched m s);
  stable_deleted : forall b s, P s -> P (set_deleted b s)
}.
(** *** What a call can send

    [emits c a]: the action [a] is one that the slot run by the call
    [c] performs, on some path through its code. *)
Definition emits (c : @Call QVariant) (a : @Action QVariant Pixels) : bool :=
  match c with
  | CallStartExporting =>
      match a with
      | VideoSetViewerNode | VideoSetParameters _ | AudioSetViewerNode
      | AudioSetParameters | EncoderOpen | ExportEnded => true
      | _ => false
      end
  | CallEncoderOpenedSuccessfully =>
      match a with
      | VideoSetOperatingMode kHashOnly | VideoInvalidateCache _ _
      | AudioInvalidateCache _ _ => true
      | _ => false
      end
  | CallEncoderOpenFailed =>
      match a with ExportEnded => true | _ => false end
  | CallAudioEncodeComplete =>
      match a with
      | CallCleanup | VideoDeleteLater | EncoderClose => true
      | _ => false
      end
  | CallVideoHashesComplete =>
      match a with
      | VideoSetOperatingMode kRenderOnly
      | VideoSetOnlySignalLastFrameRequested false
      | VideoInvalidateCache _ _ => true
      | _ => false
      end
  | CallFrameRendered _ _ =>
      match a with
      | CallTextureToFrame _ | CallConvertPixelFormat | CallDisassociateAlpha
      | CallConvertFrame | EncoderWriteFrame _ | ProgressChanged _
      | CallCleanup | VideoDeleteLater | EncoderClose => true
      | _ => false
      end
  | CallAudioRendered =>
      match a with
      | AudioCachePathName | EncoderWriteAudio | AudioDeleteLater => true
      | _ => false
      end
  | CallEncoderClosed =>
      match a with
      | ProgressChanged p => Z.eqb p 100
      | ExportEnded => true
      | _ => false
      end
  end.

Definition is_FrameRendered (c : @Call QVariant) : bool :=
  match c with CallFrameRendered _ _ => true | _ => false end.

(** The timestamp the [k]-th frame written is stamped with when the
    first one carries [w]: [EncodeFrame] adds the time base to
    [waiting_for_frame_] once per frame written. *)
Definition stamp (tb w : rational) (k : nat) : rational :=
  Nat.iter k (fun t => t + tb) w.

(** The calls whose slot emits [ExportEnded]. *)
Definition ends_job (env : Env) (c : @Call QVariant) : bool :=
  match c with
  | CallStartExporting => negb (initialize_ok env)
  | CallEncoderOpenFailed | CallEncoderClosed => true
  | _ => false
  end.

Definition is_VideoDeleteLater (a : @Action QVariant Pixels) : bool :=
  match a with VideoDeleteLater => true | _ => false end.

Definition is_StartExporting (c : @Call QVariant) : bool :=
  match c with CallStartExporting => true | _ => false end.

Definition is_EncoderOpen (a : @Action QVariant Pixels) : bool :=
  match a with EncoderOpen => true | _ => false end.

Definition is_WriteAudio (a : @Action QVariant Pixels) : bool :=
  match a with EncoderWriteAudio => true | _ => false end.

Definition is_render_mode (a : @Action QVariant Pixels) : bool :=
  match a with VideoSetOperatingMode kRenderOnly => true | _ => false end.

(** The export status is only true when both streams are done and the
    encoder has been asked to close. *)
Definition status_guard (s : @Exporter QVariant Pixels) : Prop :=
  export_status_ s = true ->
  video_done_ s = true /\ audio_done_ s = true
  /\ (1 <= count is_EncoderClose (log s))%nat.
End Vocabulary.

(** ** Concrete jobs, run with [example_hooks] *)

(** Ten frames at step 1, frames 3 and 7 hashing alike, video only;
    frame [k] is rendered to the value [k]. *)
Definition ten_env : Env := job_env 1 (inject_Z 10) scenario_hashes.
Definition ten_start : @Exporter nat nat := job_start 1 false.
Definition ten_ready : @Exporter nat nat := run ten_env setup_calls ten_start.
Definition ten_frames (k : nat) : nat := k.

(** Two frames at step 1 with the same hash, video only. *)
Definition twin_hashes : list QByteArray := [[x2a]; [x2a]].
Definition twin_env : Env := job_env 1 (inject_Z 2) twin_hashes.
Definition twin_ready : @Exporter nat nat :=
  run twin_env setup_calls (job_start 1 false).

(** Two frames at step 1 on a timeline of length 3/2. *)
Definition short_env : Env := job_env 1 (3 # 2) [[x01]; [x02]].
Definition short_calls : list (@Call nat) :=
  setup_calls ++ frame_calls 1 ten_frames [0; 1]%nat ++ [CallEncoderClosed].

(** Surroundings in which [Initialize] fails. *)
Definition broken_env : Env := mkEnv (inject_Z 10) [] false.

(** ** Basic facts about the containers *)

Lemma QByteArray_eqb_eq (a b : QByteArray) :
  QByteArray_eqb a b = true <-> a = b.
Proof.
  revert b; induction a as [|x a IH]; intros [|y b]; simpl;
    try (split; [discriminate | discriminate]); try tauto.
  rewrite andb_true_iff, IH. split.
  - intros [H1 H2]. apply Byte.byte_dec_bl in H1. now subst.
  - intros H; inversion H; subst. split; [now apply Byte.byte_dec_lb | easy].
Qed.

Lemma QByteArray_eqb_refl (a : QByteArray) : QByteArray_eqb a a = true.
Proof. now apply QByteArray_eqb_eq. Qed.

Lemma QByteArray_eqb_neq (a b : QByteArray) :
  QByteArray_eqb a b = false <-> a <> b.
Proof.
  rewrite <- QByteArray_eqb_eq. destruct (QByteArray_eqb a b); split; congruence.
Qed.

Lemma Qeq_bool_proper_l (a b c : Q) : a == b -> Qeq_bool a c = Qeq_bool b c.
Proof.
  intros H. apply eq_true_iff_eq. rewrite !Qeq_bool_iff. now rewrite H.
Qed.

Lemma Qeq_bool_false_iff (a b : Q) : Qeq_bool a b = false <-> ~ a == b.
Proof.
  rewrite <- Qeq_bool_iff. destruct (Qeq_bool a b); split; congruence.
Qed.

Section QMapFacts.
Context {V : Type}.
Implicit Types (m : QMap.t V) (k : rational).

Lemma find_proper k k' m : k == k' -> QMap.find k m = QMap.find k' m.
Proof.
  intros H. induction m as [|[k0 v0] m IH]; simpl; [reflexivity|].
  now rewrite (Qeq_bool_proper_l _ _ _ H), IH.
Qed.

Lemma find_insert k k' (v : V) m :
  QMap.find k (QMap.insert k' v m)
  = if Qeq_bool k k' then Some v else QMap.find k m.
Proof.
  induction m as [|[k0 v0] m IH]; simpl; [reflexivity|].
  destruct (k' ?= k0) eqn:C; simpl.
  - apply Qeq_alt in C.
    destruct (Qeq_bool k k0) eqn:E0, (Qeq_bool k k') eqn:E'; try reflexivity.
    + apply Qeq_bool_iff in E0. apply Qeq_bool_false_iff in E'.
      exfalso; apply E'. now rewrite E0, C.
    + apply Qeq_bool_iff in E'. apply Qeq_bool_false_iff in E0.
      exfalso; apply E0. now rewrite E', C.
  - reflexivity.
  - rewrite IH. apply Qgt_alt in C.
    destruct (Qeq_bool k k0) eqn:E0, (Qeq_bool k k') eqn:E'; try reflexivity.
    apply Qeq_bool_iff in E0, E'. rewrite <- E0, E' in C.
    exfalso; revert C; apply Qlt_irrefl.
Qed.

Lemma find_remove k k' m :
  QMap.find k (QMap.remove k' m)
  = if Qeq_bool k k' then None else QMap.find k m.
Proof.
  induction m as [|[k0 v0] m IH]; simpl; [now destruct (Qeq_bool k k')|].
  destruct (Qeq_bool k' k0) eqn:E0; simpl; rewrite IH.
  - destruct (Qeq_bool k k') eqn:E'; [reflexivity|].
    destruct (Qeq_bool k k0) eqn:E; [|reflexivity].
    apply Qeq_bool_iff in E0, E. apply Qeq_bool_false_iff in E'.
    exfalso; apply E'. now rewrite E, E0.
  - destruct (Qeq_bool k k') eqn:E'; [|reflexivity].
    destruct (Qeq_bool k k0) eqn:E; [|reflexivity].
    apply Qeq_bool_iff in E', E. apply Qeq_bool_false_iff in E0.
    exfalso; apply E0. now rewrite <- E', E.
Qed.

Lemma remove_length_le k m :
  (List.length (QMap.remove k m) <= List.length m)%nat.
Proof.
  induction m as [|[k0 v0] m IH]; simpl; [lia|].
  destruct (Qeq_bool k k0); simpl; lia.
Qed.

Lemma remove_length_lt k m (v : V) :
  QMap.find k m = Some v ->
  (List.length (QMap.remove k m) < List.length m)%nat.
Proof.
  induction m as [|[k0 v0] m IH]; simpl; [discriminate|].
  destruct (Qeq_bool k k0); simpl; intros H.
  - pose proof (remove_length_le k m). lia.
  - specialize (IH H). lia.
Qed.
End QMapFacts.

Section HashMapFacts.
Context {V : Type}.

Lemma hash_find_insert (k k' : QByteArray) (v : V) (m : HashMap.t V) :
  HashMap.find k (HashMap.insert k' v m)
  = if QByteArray_eqb k k' then Some v else HashMap.find k m.
Proof.
  induction m as [|[k0 v0] m IH]; simpl; [reflexivity|].
  destruct (QByteArray_eqb k' k0) eqn:E0; simpl.
  - apply QByteArray_eqb_eq in E0; subst k0.
    now destruct (QByteArray_eqb k k').
  - rewrite IH. destruct (QByteArray_eqb k k0) eqn:E; [|reflexivity].
    apply QByteArray_eqb_eq in E; subst k0.
    destruct (QByteArray_eqb k k') eqn:E'; [|reflexivity].
    apply QByteArray_eqb_eq in E'; subst k'.
    now rewrite QByteArray_eqb_refl in E0.
Qed.

Lemma hash_value_insert (k k' : QByteArray) (v d : V) (m : HashMap.t V) :
  HashMap.value k (HashMap.insert k' v m) d
  = if QByteArray_eqb k k' then v else HashMap.value k m d.
Proof.
  unfold HashMap.value. rewrite hash_find_insert.
  now destruct (QByteArray_eqb k k').
Qed.
End HashMapFacts.

(** ** [ClickableLabel] *)

(** C10: a mouse release emits [MouseClicked] exactly when the cursor is
    over the widget ([underMouse()]) and nothing else; a double click
    emits [MouseDoubleClicked], whatever [underMouse()] says. *)
Theorem clickable_label_signals (w : ClickableLabel.Widget) :
  (ClickableLabel.underMouse w = true ->
     ClickableLabel.mouseReleaseEvent w = [ClickableLabel.MouseClicked])
  /\ (ClickableLabel.underMouse w = false ->
     ClickableLabel.mouseReleaseEvent w = [])
  /\ (In ClickableLabel.MouseClicked (ClickableLabel.mouseReleaseEvent w)
      <-> ClickableLabel.underMouse w = true)
  /\ ClickableLabel.mouseDoubleClickEvent w
     = [ClickableLabel.MouseDoubleClicked].
Proof.
  unfold ClickableLabel.mouseReleaseEvent, ClickableLabel.mouseDoubleClickEvent.
  destruct (ClickableLabel.underMouse w); simpl; repeat split;
    try congruence; try tauto; intros; auto; try discriminate.
Qed.

(** ** The exporter: which steps keep a property of the state *)

Section ExporterFacts.
Context {QVariant Pixels : Type} {hooks : ExporterHooks QVariant Pixels}.
Implicit Types (s : @Exporter QVariant Pixels) (env : Env)
  (a : @Action QVariant Pixels) (l : list (@Action QVariant Pixels)).

Lemma written_frames_app l l' :
  written_frames (l ++ l') = written_frames l ++ written_frames l'.
Proof.
  induction l as [|a l IH]; simpl; [reflexivity|].
  destruct (written_frame a); simpl; now rewrite IH.
Qed.

Lemma write_times_app l l' :
  write_times (l ++ l') = write_times l ++ write_times l'.
Proof. unfold write_times. now rewrite written_frames_app, map_app. Qed.

Lemma progress_values_app l l' :
  progress_values (l ++ l') = progress_values l ++ progress_values l'.
Proof.
  induction l as [|a l IH]; simpl; [reflexivity|].
  destruct a; simpl; now rewrite IH.
Qed.

Lemma count_app p l l' : count p (l ++ l') = (count p l + count p l')%nat.
Proof. unfold count. now rewrite filter_app, length_app. Qed.

Lemma written_frames_silent l :
  Forall (fun a => is_write a = false) l -> written_frames l = [].
Proof.
  induction 1 as [|a l Ha _ IH]; simpl; [reflexivity|].
  destruct a; simpl in *; try discriminate; exact IH.
Qed.

Lemma log_encode_body env value s :
  log (encode_body env value s)
  = log s ++ body_actions env (video_params_time_base s)
               (waiting_for_frame_ s) value.
Proof.
  unfold encode_body, body_actions, pipeline_calls, converted, to_float_format.
  destruct (PixelFormat_eqb (frame_format (TextureToFrame value))
              PIX_FMT_RGBA32F); simpl; rewrite <- !app_assoc; reflexivity.
Qed.

Lemma waiting_encode_body env value s :
  waiting_for_frame_ (encode_body env value s)
  = waiting_for_frame_ s + video_params_time_base s.
Proof.
  unfold encode_body.
  destruct (PixelFormat_eqb (frame_format (TextureToFrame value))
              PIX_FMT_RGBA32F); reflexivity.
Qed.

Lemma written_frames_body env tb w value :
  written_frames (body_actions env tb w value)
  = [set_timestamp (converted value) w].
Proof.
  unfold body_actions, pipeline_calls.
  destruct (PixelFormat_eqb (frame_format (TextureToFrame value))
              PIX_FMT_RGBA32F); reflexivity.
Qed.

Lemma progress_values_body env tb w value :
  progress_values (body_actions env tb w value) = [progress_of env (w + tb)].
Proof.
  unfold body_actions, pipeline_calls.
  destruct (PixelFormat_eqb (frame_format (TextureToFrame value))
              PIX_FMT_RGBA32F); reflexivity.
Qed.

(** [ExportSucceeded] keeps a stable property that accepts the three
    requests it sends. *)
Lemma succeeded_stable env ok (P : @Exporter QVariant Pixels -> Prop) :
  stable env ok P ->
  ok CallCleanup = true -> ok VideoDeleteLater = true ->
  ok EncoderClose = true ->
  forall s, P s -> P (ExportSucceeded s).
Proof.
  intros HP H1 H2 H3 s H. unfold ExportSucceeded.
  destruct (negb (audio_done_ s) || negb (video_done_ s)); [exact H|].
  apply (stable_emit _ _ _ HP); [exact H3|].
  apply (stable_status _ _ _ HP).
  destruct (video_backend_ (emit CallCleanup s));
    repeat (apply (stable_emit _ _ _ HP); [assumption|]); exact H.
Qed.

Section Stable.
Variables (env : Env) (ok : @Action QVariant Pixels -> bool)
  (P : @Exporter QVariant Pixels -> Prop).
Hypothesis HP : stable env ok P.
Hypothesis ok_quiet :
  forall a,
    is_write a = false -> is_progress a = false ->
    is_EncoderClose a = false -> ok a = true.
Hypothesis ExportSucceeded_stable : forall s, P s -> P (ExportSucceeded s).

Lemma stable_quiet a s :
  is_write a = false -> is_progress a = false ->
  is_EncoderClose a = false -> P s -> P (emit a s).
Proof. intros; apply (stable_emit _ _ _ HP); auto. Qed.

Lemma drain_stable fuel s : P s -> P (drain env fuel s).
Proof.
  revert s; induction fuel as [|fuel IH]; intros s H; simpl; [exact H|].
  destruct (QMap.find (waiting_for_frame_ s) (cached_frames_ s)); [|exact H].
  apply IH, (stable_body _ _ _ HP), (stable_take _ _ _ HP), H.
Qed.

Lemma EncodeFrame_stable t v s : P s -> P (EncodeFrame env t v s).
Proof.
  intros H. unfold EncodeFrame.
  destruct (Qeq_bool t (waiting_for_frame_ s)).
  - match goal with |- P (if ?c then _ else _) => destruct c end.
    + apply ExportSucceeded_stable, (stable_video_done _ _ _ HP),
        drain_stable, (stable_body _ _ _ HP), H.
    + apply drain_stable, (stable_body _ _ _ HP), H.
  - apply (stable_insert _ _ _ HP), H.
Qed.

Lemma fold_EncodeFrame_stable v ts s :
  P s -> P (fold_left (fun s t => EncodeFrame env t v s) ts s).
Proof.
  revert s; induction ts as [|t ts IH]; intros s H; simpl; [exact H|].
  apply IH, EncodeFrame_stable, H.
Qed.

Lemma FrameRendered_stable t v s : P s -> P (FrameRendered env t v s).
Proof.
  intros H. unfold FrameRendered.
  apply fold_EncodeFrame_stable, EncodeFrame_stable, H.
Qed.

Lemma fold_invalidate_stable ranges s :
  P s ->
  P (fold_left
       (fun s range =>
          emit (VideoInvalidateCache (TimeRange.range_in range)
                  (TimeRange.range_out range)) s) ranges s).
Proof.
  revert s; induction ranges as [|r ranges IH]; intros s H; simpl; [exact H|].
  apply IH, stable_quiet; auto.
Qed.

Lemma VideoHashesComplete_stable s : P s -> P (VideoHashesComplete env s).
Proof.
  intros H. unfold VideoHashesComplete.
  destruct (dedup_loop _ _ _ _ _) as [ranges matched].
  apply fold_invalidate_stable.
  repeat (apply stable_quiet; try reflexivity).
  apply (stable_matched _ _ _ HP), H.
Qed.

Lemma emit_ExportEnded_stable s :
  ok ExportEnded = true -> P s -> P (emit_ExportEnded s).
Proof.
  intros Hok H. unfold emit_ExportEnded.
  apply (stable_deleted _ _ _ HP), (stable_emit _ _ _ HP); auto.
Qed.

(** Every call but [StartExporting] keeps a stable property, as long as
    the two signals of the termination paths are accepted by [ok]. *)
Lemma handle_stable c s :
  c <> CallStartExporting ->
  (c = CallEncoderClosed -> ok (ProgressChanged 100) = true) ->
  (c = CallEncoderClosed \/ c = CallEncoderOpenFailed ->
   ok ExportEnded = true) ->
  P s -> P (handle env c s).
Proof.
  intros Hc Hp He H. destruct c; simpl; try congruence.
  - unfold EncoderOpenedSuccessfully.
    destruct (negb (video_done_ s)).
    + match goal with |- P (if ?c then _ else _) => destruct c end;
        repeat (apply stable_quiet; try reflexivity); exact H.
    + destruct (negb (audio_done_ s));
        repeat (apply stable_quiet; try reflexivity); exact H.
  - unfold EncoderOpenFailed, ExportFailed.
    apply emit_ExportEnded_stable; auto.
    apply (stable_message _ _ _ HP), H.
  - unfold AudioEncodeComplete.
    apply ExportSucceeded_stable, (stable_audio_done _ _ _ HP), H.
  - apply VideoHashesComplete_stable, H.
  - apply FrameRendered_stable, H.
  - unfold AudioRendered.
    repeat (apply stable_quiet; try reflexivity); exact H.
  - unfold EncoderClosed. apply emit_ExportEnded_stable; auto.
    apply (stable_emit _ _ _ HP); auto.
Qed.

Lemma run_stable calls s :
  Forall (fun c => c <> CallStartExporting) calls ->
  (In CallEncoderClosed calls -> ok (ProgressChanged 100) = true) ->
  (In CallEncoderClosed calls \/ In CallEncoderOpenFailed calls ->
   ok ExportEnded = true) ->
  P s -> P (run env calls s).
Proof.
  unfold run. revert s.
  induction calls as [|c calls IH]; intros s Hc Hp He H; simpl; [exact H|].
  inversion Hc; subst. apply IH.
  - assumption.
  - intros Hin; apply Hp; now right.
  - intros [Hin|Hin]; apply He; [left|right]; now right.
  - unfold deliver. destruct (deleted_ s); [exact H|].
    apply handle_stable; [assumption | | | assumption].
    + intros ->; apply Hp; now left.
    + intros [->| ->]; apply He; [left|right]; now left.
Qed.
End Stable.

(** *** Fields the rounds of [EncodeFrame] leave alone *)

Lemma cached_encode_body env v s :
  cached_frames_ (encode_body env v s) = cached_frames_ s.
Proof.
  unfold encode_body.
  destruct (PixelFormat_eqb (frame_format (TextureToFrame v))
              PIX_FMT_RGBA32F); reflexivity.
Qed.

Lemma time_base_encode_body env v s :
  video_params_time_base (encode_body env v s) = video_params_time_base s.
Proof.
  unfold encode_body.
  destruct (PixelFormat_eqb (frame_format (TextureToFrame v))
              PIX_FMT_RGBA32F); reflexivity.
Qed.

Lemma waiting_ExportSucceeded s :
  waiting_for_frame_ (ExportSucceeded s) = waiting_for_frame_ s.
Proof.
  unfold ExportSucceeded.
  destruct (negb (audio_done_ s) || negb (video_done_ s)); [reflexivity|].
  destruct (video_backend_ (emit CallCleanup s)); reflexivity.
Qed.

Lemma cached_ExportSucceeded s :
  cached_frames_ (ExportSucceeded s) = cached_frames_ s.
Proof.
  unfold ExportSucceeded.
  destruct (negb (audio_done_ s) || negb (video_done_ s)); [reflexivity|].
  destruct (video_backend_ (emit CallCleanup s)); reflexivity.
Qed.

Lemma written_frames_ExportSucceeded s :
  written_frames (log (ExportSucceeded s)) = written_frames (log s).
Proof.
  unfold ExportSucceeded.
  destruct (negb (audio_done_ s) || negb (video_done_ s)); [reflexivity|].
  destruct (video_backend_ (emit CallCleanup s)); simpl;
    rewrite !written_frames_app; simpl; now rewrite !app_nil_r.
Qed.

(** *** The loop of [EncodeFrame] empties the cache of expected frames *)

Lemma drain_complete env fuel s :
  (List.length (cached_frames_ s) <= fuel)%nat ->
  QMap.find (waiting_for_frame_ (drain env fuel s))
    (cached_frames_ (drain env fuel s)) = None.
Proof.
  revert s; induction fuel as [|fuel IH]; intros s Hlen; simpl.
  - destruct (cached_frames_ s); [reflexivity | simpl in Hlen; lia].
  - destruct (QMap.find (waiting_for_frame_ s) (cached_frames_ s)) eqn:E;
      [|exact E].
    apply IH. rewrite cached_encode_body. simpl.
    pose proof (remove_length_lt _ _ _ E). lia.
Qed.

Lemma drain_cache_shrinks env fuel s k :
  QMap.find k (cached_frames_ s) = None ->
  QMap.find k (cached_frames_ (drain env fuel s)) = None.
Proof.
  revert s; induction fuel as [|fuel IH]; intros s H; simpl; [exact H|].
  destruct (QMap.find (waiting_for_frame_ s) (cached_frames_ s)); [|exact H].
  apply IH. rewrite cached_encode_body. simpl. rewrite find_remove.
  now destruct (Qeq_bool k (waiting_for_frame_ s)).
Qed.

(** What the later rounds write: each frame is the conversion of a
    value that sat in the cache under the frame's timestamp, and that
    entry is gone afterwards. *)
Lemma drain_writes env fuel s :
  exists frames,
    written_frames (log (drain env fuel s)) = written_frames (log s) ++ frames
    /\ Forall
         (fun f =>
            exists v,
              QMap.find (frame_timestamp f) (cached_frames_ s) = Some v
              /\ f = set_timestamp (converted v) (frame_timestamp f)
              /\ QMap.find (frame_timestamp f)
                   (cached_frames_ (drain env fuel s)) = None)
         frames.
Proof.
  revert s; induction fuel as [|fuel IH]; intros s; simpl.
  - exists []. now rewrite app_nil_r.
  - destruct (QMap.find (waiting_for_frame_ s) (cached_frames_ s)) eqn:E.
    2:{ exists []. now rewrite app_nil_r. }
    set (s1 := encode_body env q (set_cached _ s)).
    destruct (IH s1) as (frames & Hlog & Hall).
    exists (set_timestamp (converted q) (waiting_for_frame_ s) :: frames).
    split.
    + rewrite Hlog. unfold s1. rewrite log_encode_body, written_frames_app,
        written_frames_body. simpl. now rewrite <- app_assoc.
    + constructor.
      * exists q. simpl. repeat split; [exact E|].
        apply drain_cache_shrinks. unfold s1. rewrite cached_encode_body.
        simpl. rewrite find_remove. now rewrite Qeq_bool_refl.
      * revert Hall. apply Forall_impl. intros f (v & Hf & Heq & Hgone).
        exists v. repeat split; auto.
        unfold s1 in Hf. rewrite cached_encode_body in Hf. simpl in Hf.
        rewrite find_remove in Hf.
        now destruct (Qeq_bool (frame_timestamp f) (waiting_for_frame_ s)).
Qed.

(** *** Order of the written frames *)

Lemma StronglySorted_snoc {A} (R : A -> A -> Prop) (l : list A) (x : A) :
  StronglySorted R l -> Forall (fun y => R y x) l ->
  StronglySorted R (l ++ [x]).
Proof.
  induction 1 as [|y l Hl IH Hy]; intros Hx; simpl.
  - constructor; constructor.
  - inversion Hx; subst. constructor; [now apply IH|].
    apply Forall_app; split; [exact Hy | now constructor].
Qed.

Ltac stable_trivial :=
  intros; simpl;
  repeat match goal with
    | H : _ /\ _ |- _ => destruct H
    end;
  repeat split; simpl;
  repeat rewrite write_times_app; repeat rewrite progress_values_app;
  simpl; repeat rewrite app_nil_r; auto.

Lemma write_times_emit_quiet a s :
  is_write a = false -> write_times (log (emit a s)) = write_times (log s).
Proof.
  intros H. simpl. rewrite write_times_app.
  destruct a; simpl in *; try discriminate; now rewrite app_nil_r.
Qed.

Lemma progress_values_emit_quiet a s :
  is_progress a = false ->
  progress_values (log (emit a s)) = progress_values (log s).
Proof.
  intros H. simpl. rewrite progress_values_app.
  destruct a; simpl in *; try discriminate; now rewrite app_nil_r.
Qed.

Lemma write_times_body env tb w v :
  write_times (body_actions env tb w v) = [w].
Proof. unfold write_times. now rewrite written_frames_body. Qed.

Lemma ordered_stable env :
  stable env (fun a => negb (is_write a)) ordered.
Proof.
  constructor; unfold ordered.
  - intros a s Hok (Htb & Hs & Hw).
    apply negb_true_iff in Hok.
    rewrite (write_times_emit_quiet _ _ Hok). simpl. auto.
  - stable_trivial.
  - stable_trivial.
  - intros v s (Htb & Hs & Hw).
    rewrite time_base_encode_body, waiting_encode_body, log_encode_body,
      write_times_app, write_times_body.
    repeat split; [exact Htb | now apply StronglySorted_snoc |].
    apply Forall_app; split.
    + revert Hw; apply Forall_impl; intros ts Hts. lra.
    + constructor; [lra | constructor].
  - stable_trivial.
  - stable_trivial.
  - stable_trivial.
  - stable_trivial.
  - stable_trivial.
  - stable_trivial.
Qed.

Lemma stale_stable env t :
  stable env (fun a => negb (is_write a)) (stale t).
Proof.
  constructor; unfold stale.
  - stable_trivial.
  - intros s (Htb & Ht & Hc). simpl. repeat split; auto.
    unfold QMap.contains in *. rewrite find_remove.
    destruct (Qeq_bool t (waiting_for_frame_ s)) eqn:E; [|exact Hc].
    apply Qeq_bool_iff in E. rewrite E in Ht.
    exfalso; revert Ht; apply Qlt_irrefl.
  - intros t' v s (Htb & Ht & Hc). simpl. repeat split; auto.
    unfold QMap.contains in *. rewrite find_insert.
    now destruct (Qeq_bool t t').
  - intros v s (Htb & Ht & Hc).
    rewrite time_base_encode_body, waiting_encode_body, cached_encode_body.
    repeat split; [exact Htb | lra | exact Hc].
  - stable_trivial.
  - stable_trivial.
  - stable_trivial.
  - stable_trivial.
  - stable_trivial.
  - stable_trivial.
Qed.

Lemma beyond_stable env t :
  stable env (fun a => negb (is_write a)) (beyond t).
Proof.
  constructor; unfold beyond.
  - intros a s Hok (Htb & Ht & Hw).
    apply negb_true_iff in Hok.
    rewrite (write_times_emit_quiet _ _ Hok). simpl. auto.
  - stable_trivial.
  - stable_trivial.
  - intros v s (Htb & Ht & Hw).
    rewrite time_base_encode_body, waiting_encode_body, log_encode_body,
      write_times_app, write_times_body.
    repeat split; [exact Htb | lra |].
    apply Forall_app; split; [exact Hw | constructor; [exact Ht | constructor]].
  - stable_trivial.
  - stable_trivial.
  - stable_trivial.
  - stable_trivial.
  - stable_trivial.
  - stable_trivial.
Qed.

Lemma not_write_quiet (a : @Action QVariant Pixels) :
  is_write a = false -> is_progress a = false ->
  is_EncoderClose a = false -> negb (is_write a) = true.
Proof. now intros ->. Qed.

Lemma not_write_succeeded env (P : @Exporter QVariant Pixels -> Prop) :
  stable env (fun a => negb (is_write a)) P ->
  forall s, P s -> P (ExportSucceeded s).
Proof. intros HP. now apply (succeeded_stable env _ P HP). Qed.

Lemma Call_eq_start (c : @Call QVariant) :
  c = CallStartExporting \/ c <> CallStartExporting.
Proof. destruct c; [now left | right; discriminate ..]. Qed.

Lemma run_app env calls calls' s :
  run env (calls ++ calls') s = run env calls' (run env calls s).
Proof. unfold run. apply fold_left_app. Qed.

Lemma run_deleted env calls s : deleted_ s = true -> run env calls s = s.
Proof.
  unfold run. induction calls as [|c calls IH]; intros H; simpl; [reflexivity|].
  unfold deliver at 2. rewrite H. now apply IH.
Qed.

(** C1: whatever calls follow [StartExporting], the frames handed to
    [WriteFrame] carry strictly increasing timestamps.  A frame whose
    timestamp is not the expected one is only stored in
    [cached_frames_]; a frame with the expected timestamp is written,
    followed by the cached frames of the timestamps expected next, until
    the cache no longer holds the expected timestamp. *)
Theorem write_frame_order env calls s t v :
  0 < video_params_time_base s ->
  Forall (fun c => c <> CallStartExporting) calls ->
  StronglySorted Qlt (write_times (trace env calls s))
  /\ (~ t == waiting_for_frame_ s ->
      EncodeFrame env t v s
      = set_cached (QMap.insert t v (cached_frames_ s)) s
      /\ QMap.find t (cached_frames_ (EncodeFrame env t v s)) = Some v
      /\ log (EncodeFrame env t v s) = log s)
  /\ (t == waiting_for_frame_ s ->
      let s' := EncodeFrame env t v s in
      QMap.contains (waiting_for_frame_ s') (cached_frames_ s') = false
      /\ exists frames,
          written_frames (log s')
          = written_frames (log s)
            ++ set_timestamp (converted v) (waiting_for_frame_ s) :: frames
          /\ Forall
               (fun f =>
                  exists v',
                    QMap.find (frame_timestamp f) (cached_frames_ s) = Some v'
                    /\ f = set_timestamp (converted v') (frame_timestamp f)
                    /\ QMap.find (frame_timestamp f) (cached_frames_ s') = None)
               frames).
Proof.
  intros Htb Hcalls. split; [|split].
  - unfold trace.
    assert (H : ordered (run env calls (set_log [] s))).
    { apply (run_stable env _ ordered (ordered_stable env) not_write_quiet
               (not_write_succeeded env _ (ordered_stable env)));
        auto.
      unfold ordered; simpl. repeat split; auto; constructor. }
    apply H.
  - intros Hne. apply Qeq_bool_false_iff in Hne.
    unfold EncodeFrame. rewrite Hne. simpl.
    repeat split. rewrite find_insert. now rewrite Qeq_bool_refl.
  - intros He. apply Qeq_bool_iff in He.
    unfold EncodeFrame. rewrite He. cbv zeta.
    set (s1 := encode_body env v s).
    set (s2 := drain env (List.length (cached_frames_ s1)) s1).
    assert (Hfields :
      forall s3, s3 = (if Qle_bool (Length env) (waiting_for_frame_ s2)
                       then ExportSucceeded (set_video_done true s2) else s2) ->
        waiting_for_frame_ s3 = waiting_for_frame_ s2
        /\ cached_frames_ s3 = cached_frames_ s2
        /\ written_frames (log s3) = written_frames (log s2)).
    { intros s3 ->. destruct (Qle_bool (Length env) (waiting_for_frame_ s2));
        [|auto].
      now rewrite waiting_ExportSucceeded, cached_ExportSucceeded,
        written_frames_ExportSucceeded. }
    destruct (Hfields _ eq_refl) as (Hw & Hc & Hl).
    rewrite Hw, Hc, Hl. split.
    + unfold QMap.contains, s2. now rewrite drain_complete.
    + destruct (drain_writes env (List.length (cached_frames_ s1)) s1)
        as (frames & Hlog & Hall).
      exists frames. split.
      * fold s2 in Hlog. rewrite Hlog. unfold s1.
        rewrite log_encode_body, written_frames_app, written_frames_body.
        now rewrite <- app_assoc.
      * fold s2 in Hall. unfold s1 in Hall at 1.
        rewrite cached_encode_body in Hall. exact Hall.
Qed.

(** C9: a frame passed to [EncodeFrame] with a timestamp before the
    expected one writes nothing and leaves the expected timestamp as it
    is; it is stored in [cached_frames_], and whatever calls follow
    (short of a new [StartExporting]) its timestamp stays in the cache
    and no frame is ever written for it. *)
Theorem stale_frame_never_encoded env calls s t v :
  0 < video_params_time_base s ->
  t < waiting_for_frame_ s ->
  Forall (fun c => c <> CallStartExporting) calls ->
  let s1 := EncodeFrame env t v s in
  log s1 = log s
  /\ waiting_for_frame_ s1 = waiting_for_frame_ s
  /\ QMap.find t (cached_frames_ s1) = Some v
  /\ QMap.contains t (cached_frames_ (run env calls s1)) = true
  /\ Forall (fun ts => ~ ts == t) (write_times (trace env calls s1)).
Proof.
  intros Htb Ht Hcalls.
  assert (Hne : Qeq_bool t (waiting_for_frame_ s) = false).
  { apply Qeq_bool_false_iff. intros E. rewrite E in Ht.
    revert Ht; apply Qlt_irrefl. }
  unfold EncodeFrame. rewrite Hne. cbv zeta.
  set (s1 := set_cached _ s).
  assert (Hfind : QMap.find t (cached_frames_ s1) = Some v).
  { unfold s1; simpl. rewrite find_insert. now rewrite Qeq_bool_refl. }
  repeat split; try exact Hfind.
  - assert (H : stale t (run env calls s1)).
    { apply (run_stable env _ (stale t) (stale_stable env t) not_write_quiet
               (not_write_succeeded env _ (stale_stable env t)));
        auto.
      unfold stale, QMap.contains. rewrite Hfind. repeat split; auto. }
    apply H.
  - unfold trace.
    assert (H : beyond t (run env calls (set_log [] s1))).
    { apply (run_stable env _ (beyond t) (beyond_stable env t) not_write_quiet
               (not_write_succeeded env _ (beyond_stable env t)));
        auto.
      unfold beyond. simpl. repeat split; auto. }
    destruct H as (_ & _ & H). revert H. apply Forall_impl.
    intros ts Hlt E. rewrite E in Hlt. revert Hlt; apply Qlt_irrefl.
Qed.

(** *** Progress values *)

Lemma pow2_pos e : 0 < Double.pow2 e.
Proof. apply Qpower_0_lt. reflexivity. Qed.

Lemma pow2_add (i j : Z) :
  Double.pow2 (i + j) == Double.pow2 i * Double.pow2 j.
Proof. apply Qpower_plus. discriminate. Qed.

Lemma pow2_le (i j : Z) : (i <= j)%Z -> Double.pow2 i <= Double.pow2 j.
Proof. intros H. apply Qpower_le_compat_l; [exact H | discriminate]. Qed.

Lemma pow2_lt (i j : Z) : (i < j)%Z -> Double.pow2 i < Double.pow2 j.
Proof. intros H. apply Qpower_lt_compat_l; [exact H | reflexivity]. Qed.

Lemma pow2_inject (i : Z) :
  (0 <= i)%Z -> Double.pow2 i == inject_Z (2 ^ i).
Proof. intros H. symmetry. now apply Zpower_Qpower. Qed.

Lemma pow2_succ (i : Z) : Double.pow2 (i + 1) == 2 * Double.pow2 i.
Proof. rewrite pow2_add. change (Double.pow2 1) with 2. ring. Qed.

(** *** The Double.nearest integer *)

Lemma nearest_even_bounds x :
  (Qfloor x <= Double.nearest_even x <= Qfloor x + 1)%Z.
Proof.
  unfold Double.nearest_even.
  destruct (Qcompare (x - inject_Z (Qfloor x)) (1 # 2));
    [destruct (Z.even (Qfloor x))| |]; lia.
Qed.

Lemma nearest_even_mono x y : x <= y -> (Double.nearest_even x <= Double.nearest_even y)%Z.
Proof.
  intros H. pose proof (Qfloor_resp_le _ _ H) as Hf.
  pose proof (nearest_even_bounds x) as Bx.
  pose proof (nearest_even_bounds y) as By.
  destruct (Z.eq_dec (Qfloor x) (Qfloor y)) as [E|N]; [|lia].
  unfold Double.nearest_even. rewrite <- E.
  destruct (Qcompare_spec (x - inject_Z (Qfloor x)) (1 # 2)) as [Hx|Hx|Hx];
    destruct (Qcompare_spec (y - inject_Z (Qfloor x)) (1 # 2)) as [Hy|Hy|Hy];
    try (destruct (Z.even (Qfloor x))); try lia; exfalso; lra.
Qed.

Lemma nearest_even_integer z : Double.nearest_even (inject_Z z) = z.
Proof.
  unfold Double.nearest_even. rewrite Qfloor_Z.
  destruct (Qcompare_spec (inject_Z z - inject_Z z) (1 # 2)) as [H|H|H];
    [exfalso; lra | reflexivity | exfalso; lra].
Qed.

Lemma nearest_even_ge z x : inject_Z z <= x -> (z <= Double.nearest_even x)%Z.
Proof.
  intros H. rewrite <- (nearest_even_integer z). now apply nearest_even_mono.
Qed.

Lemma nearest_even_le z x : x <= inject_Z z -> (Double.nearest_even x <= z)%Z.
Proof.
  intros H. rewrite <- (nearest_even_integer z). now apply nearest_even_mono.
Qed.

(** *** The binary logarithm *)

Lemma ilog2_spec q : 0 < q -> Double.pow2 (Double.ilog2 q) <= q < Double.pow2 (Double.ilog2 q + 1).
Proof.
  intros Hq. destruct q as [n d].
  assert (Hn : (0 < n)%Z) by (unfold Qlt in Hq; simpl in Hq; lia).
  unfold Double.ilog2. cbn [Qnum Qden].
  set (a := Z.log2 n). set (b := Z.log2 (Z.pos d)).
  assert (Ha : (0 <= a)%Z) by apply Z.log2_nonneg.
  assert (Hb : (0 <= b)%Z) by apply Z.log2_nonneg.
  destruct (Z.log2_spec n Hn) as [A1 A2]. fold a in A1, A2.
  destruct (Z.log2_spec (Z.pos d) eq_refl) as [B1 B2]. fold b in B1, B2.
  rewrite Zle_Qle in A1, B1. rewrite Zlt_Qlt in A2, B2.
  rewrite <- pow2_inject in A1, B1 by lia.
  rewrite <- !Z.add_1_r, <- pow2_inject, pow2_succ in A2, B2 by lia.
  assert (E : Double.pow2 (a - b) == Double.pow2 a / Double.pow2 b)
    by (apply Qpower_minus; discriminate).
  pose proof (pow2_pos a) as Pa. pose proof (pow2_pos b) as Pb.
  assert (Eq : n # d == inject_Z n / inject_Z (Z.pos d)) by apply Qmake_Qdiv.
  assert (Hd : 0 < inject_Z (Z.pos d)) by reflexivity.
  assert (HN : 0 < inject_Z n) by (now rewrite Zlt_Qlt in Hn).
  revert A1 A2 B1 B2 E Eq Hd HN Pa Pb.
  generalize (Double.pow2 a) (Double.pow2 b) (inject_Z n) (inject_Z (Z.pos d)).
  intros A B N D A1 A2 B1 B2 E Eq Hd HN Pa Pb.
  assert (Up : n # d < 2 * (A / B)).
  { rewrite Eq. apply Qlt_shift_div_r; [exact Hd|].
    apply Qlt_le_trans with (2 * (A / B) * B).
    - field_simplify (2 * (A / B) * B); [lra | lra].
    - apply Qmult_le_l; [|exact B1].
      apply Qmult_lt_0_compat; [reflexivity|].
      apply Qlt_shift_div_l; [exact Pb | lra]. }
  assert (Low : (1 # 2) * (A / B) <= n # d).
  { rewrite Eq. apply Qle_shift_div_l; [exact Hd|].
    apply Qle_trans with ((1 # 2) * (A / B) * (2 * B)).
    - apply Qmult_le_l; [|lra].
      apply Qmult_lt_0_compat; [reflexivity|].
      apply Qlt_shift_div_l; [exact Pb | lra].
    - field_simplify ((1 # 2) * (A / B) * (2 * B)); [lra | lra]. }
  destruct (Qle_bool (Double.pow2 (a - b)) (n # d)) eqn:T.
  - apply Qle_bool_iff in T. split; [exact T|].
    rewrite pow2_succ, E. exact Up.
  - assert (T' : n # d < Double.pow2 (a - b)).
    { apply Qnot_le_lt. intros C. apply Qle_bool_iff in C. congruence. }
    replace (a - b - 1 + 1)%Z with (a - b)%Z by lia.
    split; [|exact T'].
    assert (E' : Double.pow2 (a - b) == 2 * Double.pow2 (a - b - 1)).
    { rewrite <- pow2_succ. apply Qpower_comp; [reflexivity | lia]. }
    rewrite E in E'. lra.
Qed.

Lemma ilog2_mono q q' : 0 < q -> q <= q' -> (Double.ilog2 q <= Double.ilog2 q')%Z.
Proof.
  intros Hq H.
  destruct (ilog2_spec q Hq) as [L _].
  destruct (ilog2_spec q') as [_ U]; [lra|].
  destruct (Z_le_gt_dec (Double.ilog2 q) (Double.ilog2 q')) as [Hle|Hgt]; [exact Hle|].
  exfalso. assert (P : Double.pow2 (Double.ilog2 q' + 1) <= Double.pow2 (Double.ilog2 q))
    by (apply pow2_le; lia).
  lra.
Qed.

(** *** Rounding to a double *)

Lemma last_place_mono q q' : 0 < q -> q <= q' -> (Double.last_place q <= Double.last_place q')%Z.
Proof.
  intros Hq H. unfold Double.last_place.
  pose proof (ilog2_mono q q' Hq H). lia.
Qed.

Lemma scaled_mono e q q' : q <= q' -> q / Double.pow2 e <= q' / Double.pow2 e.
Proof.
  intros H. unfold Qdiv. apply Qmult_le_compat_r; [exact H|].
  apply Qlt_le_weak, Qinv_lt_0_compat, pow2_pos.
Qed.

Lemma scaled_ge e k q : Double.pow2 (e + k) <= q -> Double.pow2 k <= q / Double.pow2 e.
Proof.
  intros H. apply Qle_shift_div_l; [apply pow2_pos|].
  rewrite <- pow2_add, Z.add_comm. exact H.
Qed.

Lemma scaled_le e k q : q <= Double.pow2 (e + k) -> q / Double.pow2 e <= Double.pow2 k.
Proof.
  intros H. apply Qle_shift_div_r; [apply pow2_pos|].
  rewrite <- pow2_add, Z.add_comm. exact H.
Qed.

Lemma nearest_nonneg q : 0 < q -> 0 <= Double.nearest q.
Proof.
  intros Hq. unfold Double.nearest.
  apply Qmult_le_0_compat; [|apply Qlt_le_weak, pow2_pos].
  change 0 with (inject_Z 0). rewrite <- Zle_Qle.
  apply nearest_even_ge. change (inject_Z 0) with 0.
  apply Qle_shift_div_l; [apply pow2_pos | lra].
Qed.

Lemma nearest_mono q q' : 0 < q -> q <= q' -> Double.nearest q <= Double.nearest q'.
Proof.
  intros Hq H. assert (Hq' : 0 < q') by lra.
  pose proof (last_place_mono q q' Hq H) as He.
  unfold Double.nearest.
  destruct (Z.eq_dec (Double.last_place q) (Double.last_place q')) as [E|N].
  - rewrite <- E. apply Qmult_le_compat_r; [|apply Qlt_le_weak, pow2_pos].
    rewrite <- Zle_Qle. apply nearest_even_mono, scaled_mono, H.
  - set (e := Double.last_place q) in *. set (e' := Double.last_place q') in *.
    apply Qle_trans with (Double.pow2 (e + 53)).
    + rewrite pow2_add, (Qmult_comm (Double.pow2 e)).
      apply Qmult_le_compat_r; [|apply Qlt_le_weak, pow2_pos].
      rewrite (pow2_inject 53) by lia. rewrite <- Zle_Qle.
      apply nearest_even_le. rewrite <- pow2_inject by lia.
      apply scaled_le.
      destruct (ilog2_spec q Hq) as [_ U].
      apply Qle_trans with (Double.pow2 (Double.ilog2 q + 1)); [lra|].
      apply pow2_le. unfold e, Double.last_place. lia.
    + apply Qle_trans with (Double.pow2 (e' + 52)); [apply pow2_le; lia|].
      rewrite pow2_add, (Qmult_comm (Double.pow2 e')).
      apply Qmult_le_compat_r; [|apply Qlt_le_weak, pow2_pos].
      rewrite (pow2_inject 52) by lia. rewrite <- Zle_Qle.
      apply nearest_even_ge. rewrite <- pow2_inject by lia.
      apply scaled_ge.
      destruct (ilog2_spec q' Hq') as [L _].
      apply Qle_trans with (Double.pow2 (Double.ilog2 q')); [|exact L].
      apply pow2_le.
      assert (e' = (Double.ilog2 q' - 52)%Z).
      { unfold e', Double.last_place in *. unfold e, Double.last_place in He, N. lia. }
      lia.
Qed.

Lemma round_positive_mono q q' :
  0 < q -> q <= q' -> Double.below (Double.round_positive q) (Double.round_positive q').
Proof.
  intros Hq H. assert (Hq' : 0 < q') by lra.
  pose proof (nearest_mono q q' Hq H) as Hn.
  pose proof (nearest_nonneg q Hq) as H0.
  unfold Double.round_positive.
  destruct (Qle_bool (Double.pow2 1024) (Double.nearest q)) eqn:T;
    destruct (Qle_bool (Double.pow2 1024) (Double.nearest q')) eqn:T'; unfold Double.below.
  - exact I.
  - apply Qle_bool_iff in T.
    assert (C : Qle_bool (Double.pow2 1024) (Double.nearest q') = true)
      by (apply Qle_bool_iff; lra).
    congruence.
  - now rewrite Qred_correct.
  - now rewrite !Qred_correct.
Qed.

Lemma round_zero q : q == 0 -> Double.round q = Double.Finite 0.
Proof.
  intros H. unfold Double.round. apply Qeq_alt in H. now rewrite H.
Qed.

Lemma round_positive_eq q : 0 < q -> Double.round q = Double.round_positive q.
Proof.
  intros H. unfold Double.round. apply Qgt_alt in H. now rewrite H.
Qed.

Lemma round_mono q q' : 0 <= q -> q <= q' -> Double.below (Double.round q) (Double.round q').
Proof.
  intros H0 H.
  destruct (Qlt_le_dec 0 q) as [Hq|Hq].
  - rewrite !round_positive_eq by lra. now apply round_positive_mono.
  - rewrite (round_zero q) by lra.
    destruct (Qlt_le_dec 0 q') as [Hq'|Hq'].
    + rewrite round_positive_eq by exact Hq'.
      pose proof (nearest_nonneg q' Hq') as Hn.
      unfold Double.round_positive.
      destruct (Qle_bool (Double.pow2 1024) (Double.nearest q')); unfold Double.below;
        rewrite ?Qred_correct; lra.
    + rewrite (round_zero q') by lra. unfold Double.below. lra.
Qed.

Lemma below_trans x y z : Double.below x y -> Double.below y z -> Double.below x z.
Proof.
  destruct x as [a|[|]|], y as [b|[|]|], z as [c|[|]|]; simpl; try tauto;
    intros; lra.
Qed.

Lemma below_finite x b : Double.below x (Double.Finite b) -> exists a : Q, x = Double.Finite a /\ 0 <= a <= b.
Proof.
  destruct x as [a|[|]|]; simpl; try tauto. intros H. now exists a.
Qed.

(** *** The operations, on numbers that are not Double.negative *)

Lemma div_mono x x' b :
  0 < b -> Double.below x x' -> Double.below (Double.div x (Double.Finite b)) (Double.div x' (Double.Finite b)).
Proof.
  intros Hb.
  assert (Z : Double.is_zero b = false).
  { unfold Double.is_zero. destruct (Qeq_bool b 0) eqn:E; [|reflexivity].
    apply Qeq_bool_iff in E. lra. }
  assert (N : Double.negative b = false).
  { unfold Double.negative. apply negb_false_iff, Qle_bool_iff. lra. }
  assert (Q0 : forall a : Q, 0 <= a -> 0 <= a / b).
  { intros a Ha. apply Qle_shift_div_l; [exact Hb | lra]. }
  assert (R0 : forall a : Q, 0 <= a -> Double.below (Double.round (a / b)) (Double.Infinite false)).
  { intros a Ha. pose proof (round_mono 0 (a / b) (Qle_refl 0) (Q0 a Ha)) as H.
    rewrite (round_zero 0) in H by reflexivity.
    destruct (Double.round (a / b)) as [v|[|]|]; simpl in *; tauto. }
  destruct x as [a|[|]|], x' as [a'|[|]|]; simpl; rewrite ?Z, ?N; simpl;
    try tauto.
  - intros [H0 H]. apply round_mono; [now apply Q0|].
    apply Qle_shift_div_l; [exact Hb|].
    field_simplify (a / b * b); [lra | lra].
  - apply R0.
Qed.

Lemma mul_mono c x x' :
  0 < c -> Double.below x x' -> Double.below (Double.mul (Double.Finite c) x) (Double.mul (Double.Finite c) x').
Proof.
  intros Hc.
  assert (Z : Double.is_zero c = false).
  { unfold Double.is_zero. destruct (Qeq_bool c 0) eqn:E; [|reflexivity].
    apply Qeq_bool_iff in E. lra. }
  assert (N : Double.negative c = false).
  { unfold Double.negative. apply negb_false_iff, Qle_bool_iff. lra. }
  assert (Q0 : forall a : Q, 0 <= a -> 0 <= c * a).
  { intros a Ha. apply Qmult_le_0_compat; lra. }
  assert (R0 : forall a : Q, 0 <= a -> Double.below (Double.round (c * a)) (Double.Infinite false)).
  { intros a Ha. pose proof (round_mono 0 (c * a) (Qle_refl 0) (Q0 a Ha)) as H.
    rewrite (round_zero 0) in H by reflexivity.
    destruct (Double.round (c * a)) as [v|[|]|]; simpl in *; tauto. }
  destruct x as [a|[|]|], x' as [a'|[|]|]; simpl; rewrite ?Z, ?N; simpl;
    try tauto.
  - intros [H0 H]. apply round_mono; [now apply Q0|].
    apply Qmult_le_l; [exact Hc | exact H].
  - apply R0.
Qed.

Lemma add_mono c x x' :
  0 <= c -> Double.below x x' -> Double.below (Double.add x (Double.Finite c)) (Double.add x' (Double.Finite c)).
Proof.
  intros Hc.
  assert (R0 : forall a : Q, 0 <= a -> Double.below (Double.round (a + c)) (Double.Infinite false)).
  { intros a Ha.
    assert (Q0 : 0 <= a + c) by lra.
    pose proof (round_mono 0 (a + c) (Qle_refl 0) Q0) as H.
    rewrite (round_zero 0) in H by reflexivity.
    destruct (Double.round (a + c)) as [v|[|]|]; simpl in *; tauto. }
  destruct x as [a|[|]|], x' as [a'|[|]|]; simpl; try tauto.
  - intros [H0 H]. apply round_mono; lra.
  - apply R0.
Qed.

Lemma truncate_nonneg q : 0 <= q -> Double.truncate q = Qfloor q.
Proof.
  intros H. unfold Double.truncate.
  assert (E : Qle_bool 0 q = true) by now apply Qle_bool_iff.
  now rewrite E.
Qed.

Lemma to_int_mono x v :
  Double.below x (Double.Finite v) -> (Qfloor v <= Double.INT_MAX)%Z ->
  (0 <= Double.to_int x <= Double.to_int (Double.Finite v))%Z.
Proof.
  intros H Hv. apply below_finite in H. destruct H as (a & -> & H0 & H).
  assert (F0 : (0 <= Qfloor a)%Z).
  { change 0%Z with (Qfloor 0). now apply Qfloor_resp_le. }
  pose proof (Qfloor_resp_le _ _ H) as F.
  unfold Double.to_int. rewrite !truncate_nonneg by lra.
  assert (M : (Double.INT_MIN <= 0)%Z) by discriminate.
  assert (E1 : (Double.INT_MIN <=? Qfloor a)%Z && (Qfloor a <=? Double.INT_MAX)%Z = true).
  { apply andb_true_iff. split; apply Z.leb_le; lia. }
  assert (E2 : (Double.INT_MIN <=? Qfloor v)%Z && (Qfloor v <=? Double.INT_MAX)%Z = true).
  { apply andb_true_iff. split; apply Z.leb_le; lia. }
  rewrite E1, E2. lia.
Qed.

Lemma qRound_nonneg d :
  Double.below (Double.Finite 0) d -> qRound d = Double.to_int (Double.add d (Double.Finite (1 # 2))).
Proof.
  intros H. unfold qRound.
  assert (E : Double.ge_zero d = true).
  { destruct d as [a|[|]|]; simpl in *; try tauto.
    apply Qle_bool_iff. tauto. }
  now rewrite E.
Qed.

(** *** The percentage *)

Lemma length_ok_positive len : length_ok len -> 0 < len.
Proof.
  intros [H _]. pose proof (pow2_pos (-63)). lra.
Qed.

Lemma toDouble_length len :
  length_ok len -> exists b, toDouble len = Double.Finite b /\ 0 < b.
Proof.
  intros [L U]. unfold toDouble.
  assert (P : 0 <= Double.pow2 (-63)) by (apply Qlt_le_weak, pow2_pos).
  pose proof (round_mono _ _ P L) as H1.
  assert (P' : 0 <= len) by lra.
  pose proof (round_mono _ _ P' U) as H2.
  replace (Double.round (Double.pow2 (-63))) with (Double.Finite (1 # 9223372036854775808)) in H1
    by (vm_compute; reflexivity).
  replace (Double.round (Double.pow2 63)) with (Double.Finite 9223372036854775808) in H2
    by (vm_compute; reflexivity).
  destruct (Double.round len) as [b|[|]|]; simpl in *; try tauto.
  exists b. split; [reflexivity|]. destruct H1 as [_ H1].
  apply Qlt_le_trans with (1 # 9223372036854775808); [reflexivity | exact H1].
Qed.

Lemma below_nonneg x y : Double.below x y -> Double.below (Double.Finite 0) x.
Proof.
  destruct x as [a|[|]|], y as [b|[|]|]; simpl; try tauto; intros; lra.
Qed.

Lemma div_self b : 0 < b -> Double.below (Double.div (Double.Finite b) (Double.Finite b)) (Double.Finite 1)
                            /\ Double.below (Double.Finite 1) (Double.div (Double.Finite b) (Double.Finite b)).
Proof.
  intros Hb.
  assert (Z : Double.is_zero b = false).
  { unfold Double.is_zero. destruct (Qeq_bool b 0) eqn:E; [|reflexivity].
    apply Qeq_bool_iff in E. lra. }
  assert (E : b / b == 1) by (field; lra).
  cbn [Double.div]. rewrite Z.
  change (Double.Finite 1) with (Double.round 1).
  split; apply round_mono; lra.
Qed.

Lemma div_nonneg u b :
  0 < b -> 0 <= u -> Double.below (Double.Finite 0) (Double.div (toDouble u) (Double.Finite b)).
Proof.
  intros Hb Hu.
  assert (Z : Double.is_zero b = false).
  { unfold Double.is_zero. destruct (Qeq_bool b 0) eqn:E; [|reflexivity].
    apply Qeq_bool_iff in E. lra. }
  assert (E : Double.div (Double.Finite 0) (Double.Finite b) = Double.Finite 0).
  { cbn [Double.div]. rewrite Z. apply round_zero. field. lra. }
  rewrite <- E at 1. change (Double.Finite 0) with (toDouble 0) at 1.
  apply div_mono; [exact Hb|]. apply round_mono; lra.
Qed.

(** The double handed to the conversion to [int]. *)
Lemma percentage_mono w w' b :
  0 < b -> 0 <= w -> w <= w' ->
  Double.below
    (Double.add (Double.mul (Double.Finite 100) (Double.div (toDouble w) (Double.Finite b))) (Double.Finite (1 # 2)))
    (Double.add (Double.mul (Double.Finite 100) (Double.div (toDouble w') (Double.Finite b))) (Double.Finite (1 # 2))).
Proof.
  intros Hb H0 H.
  apply add_mono; [discriminate|].
  apply mul_mono; [reflexivity|].
  apply div_mono; [exact Hb|].
  apply round_mono; assumption.
Qed.

Lemma percentage_full b :
  0 < b ->
  let d := Double.add (Double.mul (Double.Finite 100) (Double.div (Double.Finite b) (Double.Finite b))) (Double.Finite (1 # 2)) in
  Double.below d (Double.Finite (201 # 2)) /\ Double.below (Double.Finite (201 # 2)) d.
Proof.
  intros Hb d. destruct (div_self b Hb) as [D1 D2].
  change (Double.Finite (201 # 2))
    with (Double.add (Double.mul (Double.Finite 100) (Double.Finite 1)) (Double.Finite (1 # 2))).
  split; (apply add_mono; [discriminate|]); (apply mul_mono; [reflexivity|]);
    assumption.
Qed.

Lemma qRound_percentage x :
  Double.below (Double.Finite 0) x ->
  qRound (Double.mul (Double.Finite 100) x)
  = Double.to_int (Double.add (Double.mul (Double.Finite 100) x) (Double.Finite (1 # 2))).
Proof.
  intros H. apply qRound_nonneg.
  change (Double.Finite 0) with (Double.mul (Double.Finite 100) (Double.Finite 0)).
  apply mul_mono; [reflexivity | exact H].
Qed.

Lemma progress_bounds env (w w' : Q) :
  length_ok (Length env) -> 0 <= w -> w <= w' -> w' <= Length env ->
  (0 <= progress_of env w <= progress_of env w')%Z
  /\ (progress_of env w' <= 100)%Z.
Proof.
  intros Hl H0 H H'. set (len := Length env) in *.
  destruct (toDouble_length len Hl) as (b & Eb & Hb).
  unfold progress_of. fold len. rewrite Eb.
  rewrite !qRound_percentage by (apply div_nonneg; lra).
  pose proof (percentage_mono w w' b Hb H0 H) as M1.
  assert (M2 : Double.below
                 (Double.add (Double.mul (Double.Finite 100) (Double.div (toDouble w') (Double.Finite b)))
                    (Double.Finite (1 # 2)))
                 (Double.Finite (201 # 2))).
  { eapply below_trans; [|apply (percentage_full b Hb)].
    assert (T : Double.below (toDouble w') (Double.Finite b)).
    { rewrite <- Eb. apply round_mono; lra. }
    apply add_mono; [discriminate|]. apply mul_mono; [reflexivity|].
    apply div_mono; assumption. }
  destruct (below_finite _ _ M2) as (v & Ev & V0 & V1).
  rewrite Ev in *.
  assert (F : (Qfloor v <= 100)%Z).
  { change 100%Z with (Qfloor (201 # 2)). now apply Qfloor_resp_le. }
  assert (I : (100 <= Double.INT_MAX)%Z) by discriminate.
  split.
  - apply to_int_mono; [exact M1 | lia].
  - assert (B : Double.below (Double.Finite v) (Double.Finite (201 # 2))) by (simpl; lra).
    apply (to_int_mono _ _ B). discriminate.
Qed.

Lemma progress_full env (w : Q) :
  length_ok (Length env) -> w == Length env -> progress_of env w = 100%Z.
Proof.
  intros Hl E. set (len := Length env) in *.
  destruct (toDouble_length len Hl) as (b & Eb & Hb).
  pose proof (length_ok_positive len Hl) as Hp.
  destruct (progress_bounds env w w Hl) as [_ U]; try (fold len; lra).
  apply Z.le_antisymm; [exact U|].
  unfold progress_of in *. fold len in U |- *. rewrite Eb in *.
  assert (T : Double.below (Double.Finite b) (toDouble w)).
  { rewrite <- Eb. apply round_mono; lra. }
  assert (N : Double.below (Double.Finite 0) (Double.div (toDouble w) (Double.Finite b)))
    by (apply div_nonneg; lra).
  rewrite qRound_percentage in * by exact N.
  assert (M : Double.below (Double.Finite (201 # 2))
                (Double.add (Double.mul (Double.Finite 100) (Double.div (toDouble w) (Double.Finite b)))
                   (Double.Finite (1 # 2)))).
  { eapply below_trans; [apply (percentage_full b Hb)|].
    apply add_mono; [discriminate|]. apply mul_mono; [reflexivity|].
    apply div_mono; assumption. }
  assert (M' : Double.below
                 (Double.add (Double.mul (Double.Finite 100) (Double.div (toDouble w) (Double.Finite b)))
                    (Double.Finite (1 # 2)))
                 (Double.Finite (201 # 2))).
  { eapply below_trans; [|apply (percentage_full b Hb)].
    assert (T' : Double.below (toDouble w) (Double.Finite b)).
    { rewrite <- Eb. apply round_mono; lra. }
    apply add_mono; [discriminate|]. apply mul_mono; [reflexivity|].
    apply div_mono; assumption. }
  destruct (below_finite _ _ M') as (v & Ev & V0 & V1).
  rewrite Ev in *. simpl in M.
  change 100%Z with (Double.to_int (Double.Finite (201 # 2))).
  apply to_int_mono; [simpl; lra|].
  apply Z.le_trans with (Qfloor (201 # 2)); [now apply Qfloor_resp_le|].
  discriminate.
Qed.

Lemma progress_eq env (w w' : Q) :
  length_ok (Length env) -> 0 <= w -> w == w' -> w' <= Length env ->
  progress_of env w = progress_of env w'.
Proof.
  intros Hl H0 E H.
  destruct (progress_bounds env w w' Hl) as [[_ U] _]; try lra.
  destruct (progress_bounds env w' w Hl) as [[_ U'] _]; try lra.
  lia.
Qed.

(** The model of [double] against the floating-point numbers of the
    machine: on every ratio [k / n] with [n <= 40] and [k <= 2 n + 1]
    the two give the same percentage.  For 23 frames out of 40 it is 57:
    the quotient is just below 0.575. *)
Lemma progress_as_the_machine :
  forallb
    (fun p =>
       Z.eqb
         (progress_of (mkEnv (inject_Z (snd p)) [] true) (inject_Z (fst p)))
         (machine_progress (fst p) (snd p)))
    (ratios 40) = true
  /\ progress_of (mkEnv (inject_Z 40) [] true) (inject_Z 23) = 57%Z.
Proof. split; vm_compute; reflexivity. Qed.

(** The percentages of timestamps that do not decrease, none before 0
    and none after the length of the timeline, do not decrease, lie
    between 0 and 100, and the final 100 is no decrease. *)
Lemma progress_sorted env (tb : Q) (l : list Q) :
  length_ok (Length env) -> 0 <= tb ->
  StronglySorted Qle l ->
  Forall (fun ts => 0 <= ts /\ ts + tb <= Length env) l ->
  StronglySorted Z.le (map (fun ts => progress_of env (ts + tb)) l ++ [100%Z])
  /\ Forall (fun p => (0 <= p <= 100)%Z)
       (map (fun ts => progress_of env (ts + tb)) l).
Proof.
  intros Hl Htb Hs Hf.
  induction Hs as [|ts l Hs IH Hts]; simpl.
  - split; repeat constructor.
  - apply Forall_cons_iff in Hf. destruct Hf as [[H0 H1] Hf].
    destruct (IH Hf) as [IH1 IH2].
    destruct (progress_bounds env (ts + tb) (ts + tb) Hl) as [[B0 _] B1];
      try lra.
    split.
    + constructor; [exact IH1|].
      apply Forall_app. split; [|constructor; [exact B1 | constructor]].
      apply Forall_forall. intros p Hp. apply in_map_iff in Hp.
      destruct Hp as (ts' & <- & Hin).
      rewrite Forall_forall in Hts, Hf.
      pose proof (Hts _ Hin). destruct (Hf _ Hin) as [_ H1'].
      destruct (progress_bounds env (ts + tb) (ts' + tb) Hl) as [[_ B] _];
        try lra.
      exact B.
    + constructor; [lia | exact IH2].
Qed.

Lemma progressing_stable env : stable env is_quiet (progressing env).
Proof.
  constructor; unfold progressing.
  - intros a s Hok (Htb & H0 & Hs & Hn & Hm).
    apply andb_true_iff in Hok. destruct Hok as [Hw Hq].
    apply negb_true_iff in Hw, Hq.
    rewrite (write_times_emit_quiet _ _ Hw),
      (progress_values_emit_quiet _ _ Hq). simpl. auto 10.
  - stable_trivial.
  - stable_trivial.
  - intros v s (Htb & H0 & Hs & Hn & Hm).
    rewrite time_base_encode_body, waiting_encode_body, log_encode_body,
      write_times_app, write_times_body, progress_values_app,
      progress_values_body.
    split; [exact Htb|]. split; [lra|]. split; [|split].
    + apply StronglySorted_snoc; [exact Hs|].
      revert Hn; apply Forall_impl; intros p Hle. lra.
    + apply Forall_app; split.
      * revert Hn; apply Forall_impl; intros p Hle. lra.
      * constructor; [lra | constructor].
    + rewrite map_app, Hm. reflexivity.
  - stable_trivial.
  - stable_trivial.
  - stable_trivial.
  - stable_trivial.
  - stable_trivial.
  - stable_trivial.
Qed.

Lemma time_base_stable env (tb : Q) :
  stable env (fun _ => true) (fun s => video_params_time_base s = tb).
Proof.
  constructor; try (intros; simpl; assumption).
  intros v s H. now rewrite time_base_encode_body.
Qed.

Lemma is_quiet_quiet (a : @Action QVariant Pixels) :
  is_write a = false -> is_progress a = false ->
  is_EncoderClose a = false -> is_quiet a = true.
Proof. unfold is_quiet. now intros -> ->. Qed.

(** *** Failure to open the encoder *)

Lemma run_cons env c calls s :
  run env (c :: calls) s = run env calls (deliver env s c).
Proof. reflexivity. Qed.

Lemma deleted_StartExporting env s :
  initialize_ok env = true ->
  deleted_ (StartExporting env s) = deleted_ s.
Proof.
  intros Hinit. unfold StartExporting, Initialize. rewrite Hinit. simpl.
  destruct (video_done_ s) eqn:Ev; simpl;
    destruct (audio_done_ s) eqn:Ea; reflexivity.
Qed.

Lemma log_StartExporting env s :
  initialize_ok env = true ->
  log (StartExporting env s)
  = log s
    ++ (if video_done_ s then []
        else [VideoSetViewerNode;
              VideoSetParameters (video_params_time_base s)])
    ++ (if audio_done_ s then [] else [AudioSetViewerNode; AudioSetParameters])
    ++ [EncoderOpen].
Proof.
  intros Hinit. unfold StartExporting, Initialize. rewrite Hinit. simpl.
  destruct (video_done_ s) eqn:Ev; simpl;
    destruct (audio_done_ s) eqn:Ea; simpl;
    rewrite <- ?app_assoc; reflexivity.
Qed.



(** *** A job with no stream enabled *)

(** C7 (what the code does): with neither [EnableVideo] nor
    [EnableAudio], [StartExporting] opens the encoder, and the success
    of the open sends nothing and ends nothing: [ExportSucceeded] is
    never reached, so the encoder is not closed, [ExportEnded] is not
    emitted and the export status stays false. *)
Theorem no_stream_job_is_left_open (len : rational)
    (hashes : QMap.t QByteArray) :
  let env := mkEnv len hashes true in
  let s := run env [CallStartExporting; CallEncoderOpenedSuccessfully]
             (@constructor QVariant Pixels) in
  log s = [EncoderOpen]
  /\ count is_EncoderClose (log s) = 0%nat
  /\ count is_ExportEnded (log s) = 0%nat
  /\ GetExportStatus s = false
  /\ deleted_ s = false
  /\ video_done_ s = true /\ audio_done_ s = true.
Proof. repeat split. Qed.

(** *** Time ranges *)

Lemma Qltb_iff (a b : Q) : TimeRange.Qltb a b = true <-> a < b.
Proof.
  unfold TimeRange.Qltb. rewrite negb_true_iff.
  destruct (Qle_bool b a) eqn:E.
  - apply Qle_bool_iff in E. split; [discriminate | intros; lra].
  - split; [intros _ | reflexivity].
    apply Qnot_le_lt. intros H. apply Qle_bool_iff in H. congruence.
Qed.

Lemma inside_iff (r : TimeRange.t) (x : Q) :
  TimeRange.inside r x = true
  <-> TimeRange.range_in r <= x /\ x < TimeRange.range_out r.
Proof.
  unfold TimeRange.inside. now rewrite andb_true_iff, Qle_bool_iff, Qltb_iff.
Qed.

Lemma covers_iff (l : TimeRangeList.t) (x : Q) :
  TimeRangeList.covers l x = true
  <-> exists r, In r l /\ TimeRange.range_in r <= x < TimeRange.range_out r.
Proof.
  unfold TimeRangeList.covers. rewrite existsb_exists.
  split; intros (r & Hin & H); exists r; split; auto; now apply inside_iff.
Qed.

Lemma piece_iff (a b : Q) (r : TimeRange.t) :
  In r (TimeRange.piece a b) <-> r = (a, b) /\ a < b.
Proof.
  unfold TimeRange.piece. destruct (TimeRange.Qltb a b) eqn:E; simpl.
  - apply Qltb_iff in E. split; [intros [<-|[]]; auto | intros [-> _]; auto].
  - split; [intros [] | intros [_ H]]. apply Qltb_iff in H. congruence.
Qed.

Lemma subtract_iff (r rm : TimeRange.t) (x : Q) :
  (exists p, In p (TimeRange.subtract r rm)
             /\ TimeRange.range_in p <= x < TimeRange.range_out p)
  <-> (TimeRange.range_in r <= x < TimeRange.range_out r)
      /\ ~ (TimeRange.range_in rm <= x < TimeRange.range_out rm).
Proof.
  destruct r as [a b], rm as [c d]. unfold TimeRange.subtract. simpl.
  destruct (Q.min_spec b c) as [[Hbc Hmin]|[Hcb Hmin]];
    destruct (Q.max_spec a d) as [[Had Hmax]|[Hda Hmax]];
    (split;
     [ intros (p & Hin & Hx); apply in_app_iff in Hin;
       destruct Hin as [Hin|Hin]; apply piece_iff in Hin;
       destruct Hin as [-> Hlt]; simpl in Hx; rewrite ?Hmin, ?Hmax in *;
       split; try lra; intros [? ?]; lra
     | intros [[Ha Hb] Hn];
       destruct (Qlt_le_dec x c) as [Hxc|Hxc];
       [ exists (a, Qmin b c); split;
         [ apply in_app_iff; left; apply piece_iff; split; auto;
           rewrite Hmin; lra
         | simpl; rewrite Hmin; lra ]
       | assert (Hxd : d <= x) by (apply Qnot_lt_le; intros ?; apply Hn; lra);
         exists (Qmax a d, b); split;
         [ apply in_app_iff; right; apply piece_iff; split; auto;
           rewrite Hmax; lra
         | simpl; rewrite Hmax; lra ] ] ]).
Qed.

Lemma covers_RemoveTimeRange (rm : TimeRange.t) (l : TimeRangeList.t) (x : Q) :
  TimeRangeList.covers (TimeRangeList.RemoveTimeRange rm l) x = true
  <-> TimeRangeList.covers l x = true
      /\ ~ (TimeRange.range_in rm <= x < TimeRange.range_out rm).
Proof.
  rewrite !covers_iff. unfold TimeRangeList.RemoveTimeRange. split.
  - intros (p & Hin & Hx). apply in_flat_map in Hin.
    destruct Hin as (r & Hr & Hp).
    destruct (proj1 (subtract_iff r rm x)) as [H1 H2]; [now exists p|].
    split; [now exists r | exact H2].
  - intros [(r & Hr & Hx) Hn].
    destruct (proj2 (subtract_iff r rm x)) as (p & Hp & Hpx); [now split|].
    exists p. split; [|exact Hpx]. apply in_flat_map. now exists r.
Qed.

(** *** The two loops of [VideoHashesComplete] *)

Lemma times_with_hash_cons h k h' (m : QMap.t QByteArray) :
  times_with_hash h ((k, h') :: m)
  = if QByteArray_eqb h h' then k :: times_with_hash h m
    else times_with_hash h m.
Proof.
  unfold times_with_hash. simpl. now destruct (QByteArray_eqb h h').
Qed.

Lemma scan_kept tb ih seg acc :
  fst (scan tb ih seg acc)
  = filter (fun e => negb (QByteArray_eqb ih (snd e))) seg.
Proof.
  revert acc; induction seg as [|[jk jv] seg IH]; intros acc; simpl;
    [reflexivity|].
  destruct (QByteArray_eqb ih jv); simpl; [apply IH|].
  specialize (IH acc). destruct (scan tb ih seg acc) as [kept acc'].
  simpl in *. now rewrite IH.
Qed.

Lemma scan_matched tb ih seg acc h :
  HashMap.value h (snd (snd (scan tb ih seg acc))) []
  = HashMap.value h (snd acc) []
    ++ (if QByteArray_eqb h ih then times_with_hash ih seg else []).
Proof.
  revert acc; induction seg as [|[jk jv] seg IH]; intros acc; simpl.
  - destruct (QByteArray_eqb h ih); now rewrite app_nil_r.
  - rewrite times_with_hash_cons.
    destruct (QByteArray_eqb ih jv); simpl.
    + rewrite IH. simpl. rewrite hash_value_insert.
      destruct (QByteArray_eqb h ih) eqn:E; [|reflexivity].
      apply QByteArray_eqb_eq in E; subst h.
      now rewrite <- app_assoc.
    + specialize (IH acc). destruct (scan tb ih seg acc) as [kept acc'].
      exact IH.
Qed.

Lemma scan_ranges tb ih seg acc x :
  TimeRangeList.covers (fst (snd (scan tb ih seg acc))) x = true
  <-> TimeRangeList.covers (fst acc) x = true
      /\ forall k, In k (times_with_hash ih seg) -> ~ (k <= x < k + tb).
Proof.
  revert acc; induction seg as [|[jk jv] seg IH]; intros acc; simpl.
  - unfold times_with_hash; simpl. tauto.
  - rewrite times_with_hash_cons.
    destruct (QByteArray_eqb ih jv); simpl.
    + rewrite IH. simpl. rewrite covers_RemoveTimeRange. simpl.
      split.
      * intros [[H1 H2] H3]. split; [exact H1|].
        intros k [<-|Hk]; [exact H2 | now apply H3].
      * intros [H1 H2]. repeat split; auto.
    + specialize (IH acc). destruct (scan tb ih seg acc) as [kept acc'].
      exact IH.
Qed.

Lemma times_with_hash_filter_same ih (m : QMap.t QByteArray) :
  times_with_hash ih
    (filter (fun e => negb (QByteArray_eqb ih (snd e))) m) = [].
Proof.
  induction m as [|[k h] m IH]; simpl; [reflexivity|].
  destruct (QByteArray_eqb ih h) eqn:E; simpl; [exact IH|].
  rewrite times_with_hash_cons, E. exact IH.
Qed.

Lemma times_with_hash_filter_other h ih (m : QMap.t QByteArray) :
  h <> ih ->
  times_with_hash h
    (filter (fun e => negb (QByteArray_eqb ih (snd e))) m)
  = times_with_hash h m.
Proof.
  intros Hne. induction m as [|[k h'] m IH]; simpl; [reflexivity|].
  rewrite times_with_hash_cons.
  destruct (QByteArray_eqb ih h') eqn:E; simpl.
  - apply QByteArray_eqb_eq in E; subst h'.
    apply QByteArray_eqb_neq in Hne. now rewrite Hne.
  - now rewrite times_with_hash_cons, IH.
Qed.

Lemma times_with_hash_absent h (m : QMap.t QByteArray) :
  (forall e, In e m -> snd e <> h) -> times_with_hash h m = [].
Proof.
  induction m as [|[k h'] m IH]; intros H; [reflexivity|].
  rewrite times_with_hash_cons.
  destruct (QByteArray_eqb h h') eqn:E.
  - apply QByteArray_eqb_eq in E; subst h'.
    exfalso. apply (H (k, h)); [now left | reflexivity].
  - apply IH. intros e He. apply H. now right.
Qed.

Lemma filter_absent ih (m : QMap.t QByteArray) :
  (forall e, In e m -> snd e <> ih) ->
  filter (fun e => negb (QByteArray_eqb ih (snd e))) m = m.
Proof.
  induction m as [|[k h'] m IH]; intros H; simpl; [reflexivity|].
  destruct (QByteArray_eqb ih h') eqn:E.
  - apply QByteArray_eqb_eq in E; subst h'.
    exfalso. apply (H (k, ih)); [now left | reflexivity].
  - simpl. rewrite IH; [reflexivity|]. intros e He. apply H. now right.
Qed.

(** The outcome of the nested loops: under every hash the timestamps
    that carry it, except the first, are appended to the table of
    duplicates, and exactly their one-step ranges leave [ranges]. *)
Lemma dedup_loop_spec tb fuel before after acc :
  (List.length after <= fuel)%nat ->
  (forall e e', In e before -> In e' after -> snd e <> snd e') ->
  (forall h,
      HashMap.value h (snd (dedup_loop tb fuel before after acc)) []
      = HashMap.value h (snd acc) [] ++ tl (times_with_hash h after))
  /\ (forall x,
         TimeRangeList.covers (fst (dedup_loop tb fuel before after acc)) x
         = true
         <-> TimeRangeList.covers (fst acc) x = true
             /\ forall h k, In k (tl (times_with_hash h after)) ->
                            ~ (k <= x < k + tb)).
Proof.
  revert before after acc.
  induction fuel as [|fuel IH]; intros before after acc Hlen Hdis.
  - destruct after; [|simpl in Hlen; lia]. simpl. split.
    + intros h. now rewrite app_nil_r.
    + intros x. unfold times_with_hash; simpl. tauto.
  - destruct after as [|[ik ih] rest].
    { simpl. split.
      + intros h. now rewrite app_nil_r.
      + intros x. unfold times_with_hash; simpl. tauto. }
    simpl.
    assert (Hbefore : forall e, In e before -> snd e <> ih).
    { intros e He. apply (Hdis e (ik, ih)); [exact He | now left]. }
    pose proof (scan_kept tb ih before acc) as K1.
    pose proof (scan_matched tb ih before acc) as M1.
    pose proof (scan_ranges tb ih before acc) as R1.
    destruct (scan tb ih before acc) as [before' acc1]. simpl in K1, M1, R1.
    pose proof (scan_kept tb ih rest acc1) as K2.
    pose proof (scan_matched tb ih rest acc1) as M2.
    pose proof (scan_ranges tb ih rest acc1) as R2.
    destruct (scan tb ih rest acc1) as [rest' acc2]. simpl in K2, M2, R2.
    rewrite (filter_absent _ _ Hbefore) in K1. subst before'.
    rewrite (times_with_hash_absent _ _ Hbefore) in M1, R1.
    destruct (IH (before ++ [(ik, ih)]) rest' acc2) as [IHm IHr].
    { subst rest'.
      pose proof (filter_length_le
                    (fun e => negb (QByteArray_eqb ih (snd e))) rest).
      simpl in Hlen. lia. }
    { intros e e' He He'. subst rest'. apply filter_In in He'.
      destruct He' as [He' Hf]. apply in_app_iff in He.
      destruct He as [He|[<-|[]]].
      - apply Hdis; [exact He | now right].
      - simpl. apply negb_true_iff, QByteArray_eqb_neq in Hf. exact Hf. }
    split.
    + intros h. rewrite IHm, M2, M1. rewrite times_with_hash_cons.
      destruct (QByteArray_eqb h ih) eqn:E.
      * apply QByteArray_eqb_eq in E; subst h. subst rest'.
        rewrite times_with_hash_filter_same. simpl.
        now rewrite !app_nil_r.
      * apply QByteArray_eqb_neq in E. subst rest'.
        rewrite (times_with_hash_filter_other _ _ _ E).
        now rewrite !app_nil_r.
    + intros x. rewrite IHr, R2, R1. split.
      * intros [[[H1 _] H2] H3]. split; [exact H1|].
        intros h k. rewrite times_with_hash_cons.
        destruct (QByteArray_eqb h ih) eqn:E.
        -- apply QByteArray_eqb_eq in E; subst h. simpl. apply H2.
        -- apply QByteArray_eqb_neq in E. subst rest'. intros Hk.
           apply (H3 h k).
           now rewrite (times_with_hash_filter_other _ _ _ E).
      * intros [H1 H2]. repeat split; auto.
        -- intros k Hk. apply (H2 ih k).
           rewrite times_with_hash_cons, QByteArray_eqb_refl. exact Hk.
        -- intros h k Hk. subst rest'.
           destruct (QByteArray_eqb h ih) eqn:E.
           ++ apply QByteArray_eqb_eq in E; subst h.
              rewrite times_with_hash_filter_same in Hk. destruct Hk.
           ++ apply (H2 h k). rewrite times_with_hash_cons, E.
              apply QByteArray_eqb_neq in E.
              now rewrite (times_with_hash_filter_other _ _ _ E) in Hk.
Qed.

(** *** The grid of timestamps *)

Lemma time_of_S tb k : time_of tb (S k) == time_of tb k + tb.
Proof.
  unfold time_of. rewrite Nat2Z.inj_succ, <- Z.add_1_r, inject_Z_plus.
  change (inject_Z 1%Z) with 1%Q. ring.
Qed.

Lemma time_of_lt tb i j :
  0 < tb -> (time_of tb i < time_of tb j <-> (i < j)%nat).
Proof.
  intros Htb. unfold time_of. rewrite Qmult_lt_r by exact Htb.
  rewrite <- Zlt_Qlt. lia.
Qed.

Lemma time_of_le tb i j :
  0 < tb -> (time_of tb i <= time_of tb j <-> (i <= j)%nat).
Proof.
  intros Htb. unfold time_of. rewrite Qmult_le_r by exact Htb.
  rewrite <- Zle_Qle. lia.
Qed.

Lemma time_of_inj tb i j : 0 < tb -> time_of tb i == time_of tb j -> i = j.
Proof.
  intros Htb H.
  assert (H1 : (i <= j)%nat) by (apply (time_of_le tb); [exact Htb | lra]).
  assert (H2 : (j <= i)%nat) by (apply (time_of_le tb); [exact Htb | lra]).
  lia.
Qed.

Lemma time_of_eqb tb i j :
  0 < tb -> Qeq_bool (time_of tb i) (time_of tb j) = Nat.eqb i j.
Proof.
  intros Htb. destruct (Nat.eqb i j) eqn:E.
  - apply Nat.eqb_eq in E; subst. apply Qeq_bool_refl.
  - apply Nat.eqb_neq in E. apply Qeq_bool_false_iff. intros H.
    apply E. now apply (time_of_inj tb).
Qed.

Lemma time_of_nonneg tb k : 0 < tb -> 0 <= time_of tb k.
Proof.
  intros Htb. apply Qle_trans with (time_of tb 0).
  - unfold time_of. change (inject_Z (Z.of_nat 0)) with 0%Q. lra.
  - apply time_of_le; [exact Htb | lia].
Qed.

(** *** Sorted time -> hash tables *)

Lemma times_with_hash_In h k (m : QMap.t QByteArray) :
  In k (times_with_hash h m) <-> In (k, h) m.
Proof.
  unfold times_with_hash. rewrite in_map_iff. split.
  - intros ([k' h'] & <- & Hin). apply filter_In in Hin.
    destruct Hin as [Hin E]. simpl in *.
    apply QByteArray_eqb_eq in E. now subst.
  - intros Hin. exists (k, h). split; [reflexivity|].
    apply filter_In. split; [exact Hin | apply QByteArray_eqb_refl].
Qed.

Lemma times_with_hash_keys h k (m : QMap.t QByteArray) :
  In k (times_with_hash h m) -> In k (QMap.keys m).
Proof.
  intros H. apply times_with_hash_In in H.
  unfold QMap.keys. apply in_map_iff. now exists (k, h).
Qed.

Lemma times_with_hash_sorted h (m : QMap.t QByteArray) :
  QMap.sorted m -> StronglySorted Qlt (times_with_hash h m).
Proof.
  unfold QMap.sorted, QMap.keys.
  induction m as [|[k h'] m IH]; intros Hs; [constructor|].
  simpl in Hs. inversion Hs as [|? ? Hs' Hk]; subst.
  rewrite times_with_hash_cons.
  destruct (QByteArray_eqb h h'); [|now apply IH].
  constructor; [now apply IH|].
  rewrite Forall_forall in *. intros k' Hk'. apply Hk.
  now apply times_with_hash_keys in Hk'.
Qed.

Lemma sorted_unique (m : QMap.t QByteArray) k h k' h' :
  QMap.sorted m -> In (k, h) m -> In (k', h') m -> k == k' -> h = h'.
Proof.
  unfold QMap.sorted, QMap.keys.
  induction m as [|[k0 h0] m IH]; intros Hs H1 H2 E; [destruct H1|].
  simpl in Hs. inversion Hs as [|? ? Hs' Hk]; subst.
  rewrite Forall_forall in Hk.
  assert (Hfst : forall x y, In (x, y) m -> k0 < x).
  { intros x y Hxy. apply Hk. apply in_map_iff. now exists (x, y). }
  destruct H1 as [H1|H1], H2 as [H2|H2].
  - congruence.
  - inversion H1; subst. apply Hfst in H2. lra.
  - inversion H2; subst. apply Hfst in H1. lra.
  - now apply IH.
Qed.

Lemma tl_In {A} (x : A) (l : list A) : In x (tl l) -> In x l.
Proof. destruct l; simpl; auto. Qed.

(** *** [VideoHashesComplete] *)

Lemma log_fold_invalidate ranges s :
  log (fold_left
         (fun s range =>
            emit (VideoInvalidateCache (TimeRange.range_in range)
                    (TimeRange.range_out range)) s) ranges s)
  = log s ++ map invalidate ranges.
Proof.
  revert s; induction ranges as [|r ranges IH]; intros s; simpl.
  - now rewrite app_nil_r.
  - rewrite IH. simpl. now rewrite <- app_assoc.
Qed.

Lemma matched_fold_invalidate ranges s :
  matched_frames_
    (fold_left
       (fun s range =>
          emit (VideoInvalidateCache (TimeRange.range_in range)
                  (TimeRange.range_out range)) s) ranges s)
  = matched_frames_ s.
Proof.
  revert s; induction ranges as [|r ranges IH]; intros s; simpl;
    [reflexivity | now rewrite IH].
Qed.

Lemma log_VideoHashesComplete env s :
  log (VideoHashesComplete env s)
  = log s
    ++ [VideoSetOperatingMode kRenderOnly;
        VideoSetOnlySignalLastFrameRequested false]
    ++ map invalidate (fst (collapsed env s)).
Proof.
  unfold VideoHashesComplete, collapsed.
  destruct (dedup_loop _ _ _ _ _) as [ranges matched].
  rewrite log_fold_invalidate. simpl. now rewrite <- !app_assoc.
Qed.

Lemma matched_VideoHashesComplete env s :
  matched_frames_ (VideoHashesComplete env s) = snd (collapsed env s).
Proof.
  unfold VideoHashesComplete, collapsed.
  destruct (dedup_loop _ _ _ _ _) as [ranges matched].
  now rewrite matched_fold_invalidate.
Qed.

Lemma collapsed_spec env s :
  (forall h,
      HashMap.value h (snd (collapsed env s)) []
      = HashMap.value h (matched_frames_ s) []
        ++ tl (times_with_hash h (time_hash_map env)))
  /\ (forall x,
         TimeRangeList.covers (fst (collapsed env s)) x = true
         <-> 0 <= x < Length env
             /\ forall h d,
                 In d (tl (times_with_hash h (time_hash_map env))) ->
                 ~ (d <= x < d + backend_params_time_base s)).
Proof.
  unfold collapsed.
  destruct (dedup_loop_spec (backend_params_time_base s)
              (List.length (time_hash_map env)) [] (time_hash_map env)
              ([(0, Length env)], matched_frames_ s)) as [Hm Hr].
  - lia.
  - intros e e' [].
  - split; [exact Hm|]. intros x. rewrite Hr. cbn [fst].
    rewrite covers_iff. split.
    + intros [(r & [<-|[]] & Hx) H]. simpl in Hx. auto.
    + intros [Hx H]. split; [|exact H]. exists (0, Length env). simpl. auto.
Qed.

(** C2: after [VideoHashesComplete], for every hash the timestamps
    carrying it, except the earliest, have been appended in order to the
    entry of that hash in [matched_frames_]; the ranges requested from
    the backend in render mode are the timeline minus the one-step
    range of each of these later timestamps, wherever they sit in the
    table.  So no later timestamp is requested, and on a table whose
    keys lie on the frame grid the earliest timestamp of every group
    within the timeline is. *)
Theorem duplicate_frames_collapsed env s :
  QMap.sorted (time_hash_map env) ->
  0 < backend_params_time_base s ->
  let m := time_hash_map env in
  let tb := backend_params_time_base s in
  let s' := VideoHashesComplete env s in
  (forall h,
      HashMap.value h (matched_frames_ s') []
      = HashMap.value h (matched_frames_ s) [] ++ tl (times_with_hash h m))
  /\ (forall h t later,
         times_with_hash h m = t :: later -> Forall (fun t' => t < t') later)
  /\ exists ranges,
      log s'
      = log s
        ++ [VideoSetOperatingMode kRenderOnly;
            VideoSetOnlySignalLastFrameRequested false]
        ++ map invalidate ranges
      /\ (forall x,
             TimeRangeList.covers ranges x = true
             <-> 0 <= x < Length env
                 /\ forall h d, In d (tl (times_with_hash h m)) ->
                                ~ (d <= x < d + tb))
      /\ (forall h d,
             In d (tl (times_with_hash h m)) ->
             TimeRangeList.covers ranges d = false)
      /\ (forall h t later,
             times_with_hash h m = t :: later ->
             0 <= t < Length env ->
             Forall (fun k => exists i, k == time_of tb i) (QMap.keys m) ->
             TimeRangeList.covers ranges t = true).
Proof.
  intros Hsorted Htb m tb s'.
  destruct (collapsed_spec env s) as [Hm Hr].
  assert (Hearliest : forall h t later,
             times_with_hash h m = t :: later ->
             Forall (fun t' => t < t') later).
  { intros h t later E.
    pose proof (times_with_hash_sorted h m Hsorted) as Hs.
    rewrite E in Hs. now inversion Hs. }
  split; [|split; [exact Hearliest|]].
  - intros h. unfold s'. rewrite matched_VideoHashesComplete. apply Hm.
  - exists (fst (collapsed env s)). split; [|split; [|split]].
    + apply log_VideoHashesComplete.
    + exact Hr.
    + intros h d Hd.
      destruct (TimeRangeList.covers (fst (collapsed env s)) d) eqn:E;
        [|reflexivity].
      apply Hr in E. destruct E as [_ E]. exfalso.
      apply (E h d Hd). unfold tb. lra.
    + intros h t later E Ht Hgrid. apply Hr. split; [exact Ht|].
      intros h' d Hd [H1 H2]. fold tb in H2, Htb.
      rewrite Forall_forall in Hgrid.
      assert (Hdm : In (d, h') m) by now apply times_with_hash_In, tl_In.
      assert (Htm : In (t, h) m).
      { apply times_with_hash_In. fold m. rewrite E. now left. }
      destruct (Hgrid d) as (i & Hi).
      { apply in_map_iff. now exists (d, h'). }
      destruct (Hgrid t) as (j & Hj).
      { apply in_map_iff. now exists (t, h). }
      assert (Hij : i = j).
      { assert (L1 : (i <= j)%nat)
          by (apply (time_of_le tb); [exact Htb | lra]).
        assert (L2 : (j < S i)%nat).
        { apply (time_of_lt tb); [exact Htb|]. rewrite time_of_S. lra. }
        lia. }
      subst j.
      assert (Hdt : d == t) by lra.
      assert (h' = h) by exact (sorted_unique m d h' t h Hsorted Hdm Htm Hdt).
      subst h'. fold m in Hd. rewrite E in Hd. simpl in Hd.
      specialize (Hearliest h t later E).
      rewrite Forall_forall in Hearliest. apply Hearliest in Hd. lra.
Qed.

(** *** A whole job: the frames of a timeline, in any order *)

Lemma Qeq_bool_proper_r (a b c : Q) : b == c -> Qeq_bool a b = Qeq_bool a c.
Proof.
  intros H. apply eq_true_iff_eq. rewrite !Qeq_bool_iff. now rewrite H.
Qed.

Lemma others_app l l' : others (l ++ l') = others l ++ others l'.
Proof. unfold others. apply filter_app. Qed.

Lemma others_body env tb w v : others (body_actions env tb w v) = [].
Proof.
  unfold body_actions, pipeline_calls.
  destruct (PixelFormat_eqb (frame_format (TextureToFrame v))
              PIX_FMT_RGBA32F); reflexivity.
Qed.

Lemma textures_body env tb w v :
  count is_texture_to_frame (body_actions env tb w v) = 1%nat.
Proof.
  unfold body_actions, pipeline_calls.
  destruct (PixelFormat_eqb (frame_format (TextureToFrame v))
              PIX_FMT_RGBA32F); reflexivity.
Qed.

Lemma flags_encode_body env v s :
  matched_frames_ (encode_body env v s) = matched_frames_ s
  /\ audio_done_ (encode_body env v s) = audio_done_ s
  /\ video_done_ (encode_body env v s) = video_done_ s
  /\ video_backend_ (encode_body env v s) = video_backend_ s
  /\ export_status_ (encode_body env v s) = export_status_ s
  /\ deleted_ (encode_body env v s) = deleted_ s.
Proof.
  unfold encode_body.
  destruct (PixelFormat_eqb (frame_format (TextureToFrame v))
              PIX_FMT_RGBA32F); repeat split; reflexivity.
Qed.

Lemma count_written l : count is_write l = List.length (written_frames l).
Proof.
  unfold count. induction l as [|a l IH]; simpl; [reflexivity|].
  destruct a; simpl; auto.
Qed.

(** *** The table of a backend that hashed every frame of the grid *)

Lemma indexed_In_from (l : list QByteArray) (from k : nat) (h : QByteArray) :
  In (k, h) (combine (seq from (List.length l)) l)
  <-> (from <= k)%nat /\ nth_error l (k - from) = Some h.
Proof.
  revert from; induction l as [|x l IH]; intros from; simpl.
  - split; [intros [] | intros [_ H]]. now destruct (k - from)%nat.
  - rewrite IH. split.
    + intros [H|[H1 H2]].
      * inversion H; subst. rewrite Nat.sub_diag. now split.
      * split; [lia|]. replace (k - from)%nat with (S (k - S from)) by lia.
        exact H2.
    + intros [H1 H2]. destruct (Nat.eq_dec from k) as [->|Hne].
      * rewrite Nat.sub_diag in H2. simpl in H2. left. congruence.
      * right. split; [lia|].
        replace (k - from)%nat with (S (k - S from)) in H2 by lia. exact H2.
Qed.

Lemma indexed_In hashes k h :
  In (k, h) (indexed hashes) <-> nth_error hashes k = Some h.
Proof.
  unfold indexed. rewrite indexed_In_from, Nat.sub_0_r.
  split; [tauto | split; [lia | assumption]].
Qed.

Lemma nth_error_hash (hashes : list QByteArray) k (h : QByteArray) :
  nth_error hashes k = Some h
  <-> (k < List.length hashes)%nat /\ nth k hashes [] = h.
Proof.
  split.
  - intros H. split.
    + apply nth_error_Some. congruence.
    + now apply nth_error_nth.
  - intros [H <-]. now apply nth_error_nth'.
Qed.

Lemma indices_with_hash_In h hashes k :
  In k (indices_with_hash h hashes)
  <-> (k < List.length hashes)%nat /\ nth k hashes [] = h.
Proof.
  rewrite <- nth_error_hash, <- indexed_In.
  unfold indices_with_hash. rewrite in_map_iff. split.
  - intros ([k' h'] & <- & Hin). apply filter_In in Hin.
    destruct Hin as [Hin E]. simpl in *.
    apply QByteArray_eqb_eq in E. now subst.
  - intros Hin. exists (k, h). split; [reflexivity|].
    apply filter_In. split; [exact Hin | apply QByteArray_eqb_refl].
Qed.

Lemma times_with_hash_index tb h hashes :
  times_with_hash h (hash_index tb hashes)
  = map (time_of tb) (indices_with_hash h hashes).
Proof.
  unfold times_with_hash, hash_index, indices_with_hash.
  induction (indexed hashes) as [|[k h'] l IH]; simpl; [reflexivity|].
  destruct (QByteArray_eqb h h'); simpl; now rewrite IH.
Qed.

Lemma hash_index_sorted tb hashes :
  0 < tb -> QMap.sorted (hash_index tb hashes).
Proof.
  intros Htb. unfold QMap.sorted, QMap.keys, hash_index, indexed.
  generalize 0%nat as from.
  induction hashes as [|x l IH]; intros from; simpl; [constructor|].
  constructor; [apply IH|].
  apply Forall_forall. intros t Ht.
  apply in_map_iff in Ht. destruct Ht as ([t' h'] & <- & Ht).
  apply in_map_iff in Ht. destruct Ht as ([k h] & E & Ht).
  inversion E; subst. simpl.
  apply indexed_In_from in Ht. apply time_of_lt; [exact Htb | lia].
Qed.

Lemma find_hash_index_from tb (l : list QByteArray) (from k : nat) :
  0 < tb ->
  QMap.find (time_of tb k)
    (map (fun e => (time_of tb (fst e), snd e))
       (combine (seq from (List.length l)) l))
  = if Nat.leb from k then nth_error l (k - from) else None.
Proof.
  intros Htb. revert from; induction l as [|x l IH]; intros from; simpl.
  - destruct (Nat.leb from k); [now destruct (k - from)%nat | reflexivity].
  - rewrite time_of_eqb by exact Htb. rewrite IH.
    destruct (Nat.eqb k from) eqn:E.
    + apply Nat.eqb_eq in E; subst. rewrite Nat.leb_refl, Nat.sub_diag.
      reflexivity.
    + apply Nat.eqb_neq in E. destruct (Nat.leb from k) eqn:L.
      * apply Nat.leb_le in L.
        assert (L' : Nat.leb (S from) k = true) by (apply Nat.leb_le; lia).
        rewrite L'. now replace (k - from)%nat with (S (k - S from)) by lia.
      * apply Nat.leb_gt in L.
        assert (L' : Nat.leb (S from) k = false) by (apply Nat.leb_gt; lia).
        now rewrite L'.
Qed.

Lemma value_hash_index tb hashes k :
  0 < tb ->
  QMap.value (time_of tb k) (hash_index tb hashes) [] = nth k hashes [].
Proof.
  intros Htb. unfold QMap.value, hash_index, indexed.
  rewrite find_hash_index_from by exact Htb. simpl. rewrite Nat.sub_0_r.
  destruct (nth_error hashes k) eqn:E.
  - symmetry. now apply nth_error_nth.
  - symmetry. apply nth_overflow. now apply nth_error_None.
Qed.

(** Within the frames of one hash the first index is the smallest. *)
Lemma indices_with_hash_first tb h hashes p rest :
  0 < tb ->
  indices_with_hash h hashes = p :: rest ->
  Forall (fun k => (p < k)%nat) rest /\ ~ In p rest.
Proof.
  intros Htb E.
  pose proof (times_with_hash_sorted h _ (hash_index_sorted tb hashes Htb))
    as Hs.
  rewrite times_with_hash_index, E in Hs. simpl in Hs.
  inversion Hs as [|? ? _ Hlt]; subst.
  assert (H : Forall (fun k => (p < k)%nat) rest).
  { apply Forall_forall. intros k Hk. rewrite Forall_forall in Hlt.
    apply (time_of_lt tb); [exact Htb|]. apply Hlt. now apply in_map. }
  split; [exact H|]. intros Hin. rewrite Forall_forall in H.
  specialize (H p Hin). lia.
Qed.

Lemma primary_of_group tb hashes k :
  0 < tb -> (k < List.length hashes)%nat ->
  exists rest,
    indices_with_hash (nth k hashes []) hashes = primary_of hashes k :: rest
    /\ (primary_of hashes k <= k)%nat.
Proof.
  intros Htb Hk.
  assert (Hin : In k (indices_with_hash (nth k hashes []) hashes))
    by now apply indices_with_hash_In.
  destruct (indices_with_hash (nth k hashes []) hashes) as [|p rest] eqn:E;
    [destruct Hin|].
  exists rest. unfold primary_of. rewrite E. split; [reflexivity|]. simpl.
  destruct (indices_with_hash_first tb _ _ _ _ Htb E) as [Hlt _].
  destruct Hin as [->|Hin]; [lia|].
  rewrite Forall_forall in Hlt. specialize (Hlt k Hin). lia.
Qed.

Lemma primary_of_hash tb hashes k :
  0 < tb -> (k < List.length hashes)%nat ->
  (primary_of hashes k < List.length hashes)%nat
  /\ nth (primary_of hashes k) hashes [] = nth k hashes [].
Proof.
  intros Htb Hk.
  destruct (primary_of_group tb hashes k Htb Hk) as (rest & E & _).
  apply (indices_with_hash_In (nth k hashes [])). rewrite E. now left.
Qed.

Lemma primary_of_idem tb hashes k :
  0 < tb -> (k < List.length hashes)%nat ->
  primary_of hashes (primary_of hashes k) = primary_of hashes k.
Proof.
  intros Htb Hk.
  destruct (primary_of_hash tb hashes k Htb Hk) as [_ Hh].
  destruct (primary_of_group tb hashes k Htb Hk) as (rest & E & _).
  unfold primary_of at 1. rewrite Hh, E. reflexivity.
Qed.

(** The members of the group of a primary frame have it as primary. *)
Lemma group_primary tb hashes p k :
  0 < tb -> primary_of hashes p = p ->
  In k (indices_with_hash (nth p hashes []) hashes) ->
  primary_of hashes k = p.
Proof.
  intros Htb Hp Hin.
  pose proof (proj1 (indices_with_hash_In _ _ _) Hin) as [Hk Hh].
  unfold primary_of in *. rewrite Hh.
  destruct (indices_with_hash (nth p hashes []) hashes); [destruct Hin|].
  exact Hp.
Qed.

(** A frame is primary exactly when it follows no frame of its hash. *)
Lemma primary_iff tb hashes k :
  0 < tb -> (k < List.length hashes)%nat ->
  (primary_of hashes k = k
   <-> forall h, ~ In k (tl (indices_with_hash h hashes))).
Proof.
  intros Htb Hk.
  destruct (primary_of_group tb hashes k Htb Hk) as (rest & E & _).
  split.
  - intros Hp h Hin. rewrite Hp in E.
    assert (Hh : nth k hashes [] = h).
    { apply tl_In in Hin. now apply indices_with_hash_In in Hin. }
    subst h. rewrite E in Hin. simpl in Hin.
    now destruct (indices_with_hash_first tb _ _ _ _ Htb E).
  - intros H. specialize (H (nth k hashes [])). rewrite E in H. simpl in H.
    assert (Hin : In k (primary_of hashes k :: rest)).
    { rewrite <- E. now apply indices_with_hash_In. }
    destruct Hin as [Hin|Hin]; [exact Hin | contradiction].
Qed.

Lemma sorted_indices tb (l : list nat) :
  0 < tb -> StronglySorted Qlt (map (time_of tb) l) -> StronglySorted lt l.
Proof.
  intros Htb. induction l as [|k l IH]; intros H; [constructor|].
  simpl in H. inversion H as [|? ? Hs Hlt]; subst.
  constructor; [now apply IH|].
  apply Forall_forall. intros j Hj. rewrite Forall_forall in Hlt.
  apply (time_of_lt tb); [exact Htb|]. apply Hlt. now apply in_map.
Qed.

Lemma sorted_NoDup (l : list nat) : StronglySorted lt l -> NoDup l.
Proof.
  induction 1 as [|k l Hs IH Hlt]; constructor; [|exact IH].
  intros Hin. rewrite Forall_forall in Hlt. specialize (Hlt k Hin). lia.
Qed.

Lemma indices_with_hash_NoDup tb h hashes :
  0 < tb -> NoDup (indices_with_hash h hashes).
Proof.
  intros Htb. apply sorted_NoDup, (sorted_indices tb); [exact Htb|].
  rewrite <- times_with_hash_index.
  apply times_with_hash_sorted, hash_index_sorted, Htb.
Qed.

Section Job.
Variables (tb : Q) (n : nat) (value_of : nat -> QVariant)
  (matched : HashMap.t (list Q)) (audio_done : bool)
  (base : list (@Action QVariant Pixels)) (env : Env).
Hypothesis Htb : 0 < tb.
Hypothesis Hgrid : forall k, time_of tb k < Length env <-> (k < n)%nat.

Lemma output_encode_body w s :
  output_ok tb value_of matched w s ->
  output_ok tb value_of matched (S w) (encode_body env (value_of w) s).
Proof.
  intros [Ht Hm Hw Hf Hc].
  destruct (flags_encode_body env (value_of w) s) as (Fm & _).
  constructor.
  - now rewrite time_base_encode_body.
  - now rewrite Fm.
  - rewrite waiting_encode_body, Ht, time_of_S, Hw. reflexivity.
  - rewrite log_encode_body, written_frames_app, written_frames_body, seq_S.
    apply Forall2_app; [exact Hf|]. constructor; [|constructor].
    simpl. split; [reflexivity | exact Hw].
  - rewrite log_encode_body, count_app, textures_body, Hc. lia.
Qed.

Lemma output_set_cached c w s :
  output_ok tb value_of matched w s ->
  output_ok tb value_of matched w (set_cached c s).
Proof. intros [Ht Hm Hw Hf Hc]. constructor; assumption. Qed.

Lemma unfinished_encode_body v s :
  unfinished audio_done base s ->
  unfinished audio_done base (encode_body env v s).
Proof.
  intros [Ha Hb Hd Hv Hs Ho].
  destruct (flags_encode_body env v s) as (_ & Fa & Fv & Fb & Fs & Fd).
  constructor; try congruence.
  now rewrite log_encode_body, others_app, others_body, app_nil_r.
Qed.

Lemma unfinished_set_cached c s :
  unfinished audio_done base s -> unfinished audio_done base (set_cached c s).
Proof. intros [Ha Hb Hd Hv Hs Ho]. constructor; assumption. Qed.

Lemma cache_first w seen (c : QMap.t QVariant) :
  cache_ok tb n value_of w seen c ->
  QMap.find (time_of tb w) c = None ->
  (w < n)%nat ->
  cache_ok tb n value_of (S w) (w :: seen) c.
Proof.
  intros [He Hs Hd Hb] Hnone Hw. constructor.
  - intros k v Hk. destruct (He k v Hk) as (H1 & H2 & H3).
    repeat split; [now right | | exact H3].
    destruct (Nat.eq_dec k w) as [->|]; [congruence | lia].
  - intros k [<-|Hk]; [left; lia|].
    destruct (Hs k Hk); [left; lia | now right].
  - intros k Hk. destruct (Nat.eq_dec k w) as [->|]; [now left|].
    right. apply Hd. lia.
  - intros k [<-|Hk]; [exact Hw | now apply Hb].
Qed.

Lemma cache_take w seen (c : QMap.t QVariant) key v :
  cache_ok tb n value_of w seen c ->
  key == time_of tb w ->
  QMap.find key c = Some v ->
  v = value_of w
  /\ cache_ok tb n value_of (S w) seen (QMap.remove key c).
Proof.
  intros [He Hs Hd Hb] Hkey Hfind.
  rewrite (find_proper _ _ _ Hkey) in Hfind.
  destruct (He w v Hfind) as (Hin & _ & Hv). split; [exact Hv|].
  assert (Hrem : forall k,
             QMap.find (time_of tb k) (QMap.remove key c)
             = if Nat.eqb k w then None else QMap.find (time_of tb k) c).
  { intros k. rewrite find_remove, (Qeq_bool_proper_r _ _ _ Hkey).
    now rewrite time_of_eqb. }
  constructor.
  - intros k v' Hk. rewrite Hrem in Hk.
    destruct (Nat.eqb k w) eqn:E; [discriminate|].
    apply Nat.eqb_neq in E.
    destruct (He k v' Hk) as (H1 & H2 & H3). repeat split; auto. lia.
  - intros k Hk. rewrite Hrem.
    destruct (Nat.eqb k w) eqn:E.
    + apply Nat.eqb_eq in E. left; lia.
    + destruct (Hs k Hk); [left; lia | now right].
  - intros k Hk. destruct (Nat.eq_dec k w) as [->|]; [exact Hin|].
    apply Hd. lia.
  - exact Hb.
Qed.

Lemma cache_insert w seen (c : QMap.t QVariant) k :
  cache_ok tb n value_of w seen c ->
  QMap.find (time_of tb w) c = None ->
  ~ In k seen -> (k < n)%nat -> k <> w ->
  cache_ok tb n value_of w (k :: seen)
    (QMap.insert (time_of tb k) (value_of k) c)
  /\ QMap.find (time_of tb w)
       (QMap.insert (time_of tb k) (value_of k) c) = None.
Proof.
  intros [He Hs Hd Hb] Hnone Hk Hkn Hkw.
  assert (Hwk : (w <= k)%nat).
  { destruct (le_lt_dec w k) as [|Hlt]; [assumption|].
    exfalso. apply Hk, Hd, Hlt. }
  assert (Hins : forall j,
             QMap.find (time_of tb j)
               (QMap.insert (time_of tb k) (value_of k) c)
             = if Nat.eqb j k then Some (value_of k)
               else QMap.find (time_of tb j) c).
  { intros j. now rewrite find_insert, time_of_eqb. }
  split.
  - constructor.
    + intros j v Hj. rewrite Hins in Hj.
      destruct (Nat.eqb j k) eqn:E.
      * apply Nat.eqb_eq in E; subst j. inversion Hj; subst.
        repeat split; [now left | exact Hwk].
      * destruct (He j v Hj) as (H1 & H2 & H3).
        repeat split; [now right | exact H2 | exact H3].
    + intros j Hj. rewrite Hins.
      destruct (Nat.eqb j k) eqn:E; [right; discriminate|].
      apply Nat.eqb_neq in E. destruct Hj as [<-|Hj]; [congruence|].
      now apply Hs.
    + intros j Hj. right. now apply Hd.
    + intros j [<-|Hj]; [exact Hkn | now apply Hb].
  - rewrite Hins. destruct (Nat.eqb w k) eqn:E; [|exact Hnone].
    apply Nat.eqb_eq in E. congruence.
Qed.

(** The later rounds of the loop, with fuel for the whole cache. *)
Lemma drain_settles fuel s w seen :
  (List.length (cached_frames_ s) <= fuel)%nat ->
  output_ok tb value_of matched w s ->
  unfinished audio_done base s ->
  cache_ok tb n value_of w seen (cached_frames_ s) ->
  exists w',
    (w <= w')%nat
    /\ output_ok tb value_of matched w' (drain env fuel s)
    /\ unfinished audio_done base (drain env fuel s)
    /\ cache_ok tb n value_of w' seen (cached_frames_ (drain env fuel s))
    /\ QMap.find (time_of tb w') (cached_frames_ (drain env fuel s)) = None.
Proof.
  revert s w; induction fuel as [|fuel IH]; intros s w Hlen Ho Hu Hc.
  - exists w. simpl. split; [lia|]. split; [exact Ho|]. split; [exact Hu|].
    split; [exact Hc|].
    destruct (cached_frames_ s); [reflexivity | simpl in Hlen; lia].
  - simpl.
    destruct (QMap.find (waiting_for_frame_ s) (cached_frames_ s)) eqn:E.
    + destruct (cache_take _ _ _ _ _ Hc (out_waiting _ _ _ _ _ Ho) E)
        as [-> Hc'].
      destruct (IH (encode_body env (value_of w)
                      (set_cached (QMap.remove (waiting_for_frame_ s)
                                     (cached_frames_ s)) s)) (S w))
        as (w' & Hle & H1 & H2 & H3 & H4).
      * rewrite cached_encode_body. simpl.
        pose proof (remove_length_lt _ _ _ E). lia.
      * apply output_encode_body, output_set_cached, Ho.
      * apply unfinished_encode_body, unfinished_set_cached, Hu.
      * rewrite cached_encode_body. exact Hc'.
      * exists w'. split; [lia | auto].
    + exists w. split; [lia|]. split; [exact Ho|]. split; [exact Hu|].
      split; [exact Hc|].
      now rewrite <- (find_proper _ _ _ (out_waiting _ _ _ _ _ Ho)).
Qed.

Lemma ExportSucceeded_done s :
  audio_done_ s = true -> video_done_ s = true -> video_backend_ s = true ->
  ExportSucceeded s
  = emit EncoderClose
      (set_export_status true (emit VideoDeleteLater (emit CallCleanup s))).
Proof.
  intros Ha Hv Hb. unfold ExportSucceeded. rewrite Ha, Hv. simpl.
  now rewrite Hb.
Qed.

Lemma ExportSucceeded_wait s :
  audio_done_ s = false -> ExportSucceeded s = s.
Proof. intros Ha. unfold ExportSucceeded. now rewrite Ha. Qed.

Lemma textures_ExportSucceeded s :
  count is_texture_to_frame (log (ExportSucceeded s))
  = count is_texture_to_frame (log s).
Proof.
  unfold ExportSucceeded.
  destruct (negb (audio_done_ s) || negb (video_done_ s)); [reflexivity|].
  destruct (video_backend_ (emit CallCleanup s)); simpl;
    unfold count; rewrite !filter_app, !length_app; simpl; lia.
Qed.

Lemma fields_ExportSucceeded s :
  video_params_time_base (ExportSucceeded s) = video_params_time_base s
  /\ matched_frames_ (ExportSucceeded s) = matched_frames_ s
  /\ audio_done_ (ExportSucceeded s) = audio_done_ s
  /\ video_done_ (ExportSucceeded s) = video_done_ s
  /\ deleted_ (ExportSucceeded s) = deleted_ s.
Proof.
  unfold ExportSucceeded.
  destruct (negb (audio_done_ s) || negb (video_done_ s)); [auto 6|].
  destruct (video_backend_ (emit CallCleanup s)); auto 6.
Qed.

(** The end of [EncodeFrame]: the video is done exactly when all [n]
    frames are written. *)
Lemma finish_settles w seen s :
  (0 < n)%nat -> (w <= n)%nat ->
  output_ok tb value_of matched w s ->
  unfinished audio_done base s ->
  cache_ok tb n value_of w seen (cached_frames_ s) ->
  QMap.find (time_of tb w) (cached_frames_ s) = None ->
  settled tb n value_of matched audio_done base w seen
    (if Qle_bool (Length env) (waiting_for_frame_ s)
     then ExportSucceeded (set_video_done true s) else s).
Proof.
  intros Hn Hw Ho Hu Hc Hd.
  pose proof (out_waiting _ _ _ _ _ Ho) as Hwait.
  destruct (Qle_bool (Length env) (waiting_for_frame_ s)) eqn:E.
  - apply Qle_bool_iff in E. rewrite Hwait in E.
    assert (Hwn : w = n).
    { destruct (le_lt_dec n w) as [|Hlt]; [lia|].
      apply Hgrid in Hlt. lra. }
    subst w.
    destruct (fields_ExportSucceeded (set_video_done true s))
      as (F1 & F2 & F3 & F4 & F5).
    destruct Ho as [Ht Hm _ Hf Hcv]. destruct Hu as [Ha Hb Hdel Hv Hs Hoth].
    constructor.
    + constructor.
      * now rewrite F1.
      * now rewrite F2.
      * now rewrite waiting_ExportSucceeded.
      * now rewrite written_frames_ExportSucceeded.
      * now rewrite textures_ExportSucceeded.
    + now rewrite cached_ExportSucceeded.
    + now rewrite cached_ExportSucceeded.
    + intros Hlt; lia.
    + intros _ _. destruct audio_done eqn:Ead.
      * rewrite ExportSucceeded_done by (simpl; congruence).
        constructor; simpl; try congruence.
        rewrite !others_app, Hoth. simpl. now rewrite <- !app_assoc.
      * rewrite ExportSucceeded_wait by (simpl; congruence).
        constructor; simpl; try congruence.
        now rewrite app_nil_r.
  - assert (Hlt : (w < n)%nat).
    { apply Hgrid. apply Qnot_le_lt. intros H.
      rewrite <- Hwait in H. apply Qle_bool_iff in H. congruence. }
    constructor; auto. intros; lia.
Qed.

(** One call of [EncodeFrame] for a frame index not seen before. *)
Lemma EncodeFrame_settled w seen s k :
  settled tb n value_of matched audio_done base w seen s ->
  ~ In k seen -> (k < n)%nat ->
  exists w',
    settled tb n value_of matched audio_done base w' (k :: seen)
      (EncodeFrame env (time_of tb k) (value_of k) s).
Proof.
  intros [Ho Hc Hd Hr Hf] Hk Hkn.
  pose proof (out_waiting _ _ _ _ _ Ho) as Hwait.
  assert (Hwk : (w <= k)%nat).
  { destruct (le_lt_dec w k) as [|Hlt]; [assumption|].
    exfalso. apply Hk, (cache_done _ _ _ _ _ _ Hc), Hlt. }
  assert (Hu : unfinished audio_done base s) by (apply Hr; lia).
  unfold EncodeFrame.
  rewrite (Qeq_bool_proper_r _ _ _ Hwait), time_of_eqb by exact Htb.
  destruct (Nat.eqb k w) eqn:E.
  - apply Nat.eqb_eq in E; subst k. cbv zeta.
    set (s1 := encode_body env (value_of w) s).
    destruct (drain_settles (List.length (cached_frames_ s1)) s1 (S w)
                (w :: seen)) as (w' & Hle & H1 & H2 & H3 & H4).
    + lia.
    + apply output_encode_body, Ho.
    + apply unfinished_encode_body, Hu.
    + unfold s1. rewrite cached_encode_body. now apply cache_first.
    + exists w'. apply finish_settles; auto; [lia|].
      destruct (le_lt_dec w' n) as [|Hlt]; [assumption|].
      exfalso.
      pose proof (cache_bound _ _ _ _ _ _ H3 n
                    (cache_done _ _ _ _ _ _ H3 n Hlt)). lia.
  - apply Nat.eqb_neq in E. exists w.
    destruct (cache_insert w seen (cached_frames_ s) k Hc Hd Hk Hkn E)
      as [Hc' Hd'].
    constructor; simpl.
    + apply output_set_cached, Ho.
    + exact Hc'.
    + exact Hd'.
    + intros _. apply unfinished_set_cached, Hu.
    + intros; lia.
Qed.

(** The frames of a list of fresh frame indices, passed to
    [EncodeFrame] in turn with the same rendered value. *)
Lemma encode_all_settled ks v w seen s :
  settled tb n value_of matched audio_done base w seen s ->
  NoDup ks ->
  (forall k, In k ks -> ~ In k seen /\ (k < n)%nat /\ value_of k = v) ->
  exists w',
    settled tb n value_of matched audio_done base w' (rev ks ++ seen)
      (fold_left (fun s t => EncodeFrame env t v s) (map (time_of tb) ks) s).
Proof.
  revert w seen s; induction ks as [|k ks IH]; intros w seen s Hs Hnd Hks.
  - exists w. exact Hs.
  - inversion Hnd as [|? ? Hnk Hnd']; subst.
    destruct (Hks k (or_introl eq_refl)) as (Hk1 & Hk2 & Hk3).
    destruct (EncodeFrame_settled w seen s k Hs Hk1 Hk2) as (w1 & Hs1).
    rewrite Hk3 in Hs1.
    destruct (IH w1 (k :: seen) _ Hs1 Hnd') as (w' & Hs').
    + intros j Hj. destruct (Hks j (or_intror Hj)) as (H1 & H2 & H3).
      repeat split; auto. intros [<-|Hin]; [exact (Hnk Hj) | exact (H1 Hin)].
    + exists w'. simpl. rewrite <- app_assoc. exact Hs'.
Qed.

(** When every frame index has been seen, every frame is written. *)
Lemma settled_complete w seen s :
  settled tb n value_of matched audio_done base w seen s ->
  (forall k, (k < n)%nat -> In k seen) ->
  w = n.
Proof.
  intros [Ho Hc Hd _ _] Hall.
  destruct (lt_eq_lt_dec w n) as [[Hlt|Heq]|Hgt]; [|exact Heq|].
  - exfalso. destruct (cache_seen _ _ _ _ _ _ Hc w (Hall w Hlt)); [lia|].
    contradiction.
  - exfalso.
    pose proof (cache_bound _ _ _ _ _ _ Hc n
                  (cache_done _ _ _ _ _ _ Hc n Hgt)). lia.
Qed.

(** **** The frames as the backend delivers them *)

Variables (hs : list QByteArray) (frames : nat -> QVariant).
Hypothesis Hn : n = List.length hs.
Hypothesis Hmap : time_hash_map env = hash_index tb hs.
Hypothesis Hmatched :
  forall h,
    HashMap.value h matched []
    = map (time_of tb) (tl (indices_with_hash h hs)).
Hypothesis Hvalue : forall k, value_of k = frames (primary_of hs k).

(** One rendered frame: it is encoded for its own timestamp and for
    the timestamps recorded under its hash. *)
Lemma FrameRendered_settled w seen s p :
  settled tb n value_of matched audio_done base w seen s ->
  primary_of hs p = p -> (p < n)%nat ->
  (forall k, In k (indices_with_hash (nth p hs []) hs) -> ~ In k seen) ->
  exists w',
    settled tb n value_of matched audio_done base w'
      (rev (indices_with_hash (nth p hs []) hs) ++ seen)
      (FrameRendered env (time_of tb p) (frames p) s).
Proof.
  intros Hs Hp Hpn Hfresh.
  assert (Hpl : (p < List.length hs)%nat) by now rewrite <- Hn.
  destruct (primary_of_group tb hs p Htb Hpl) as (rest & E & _).
  rewrite Hp in E.
  destruct (indices_with_hash_first tb _ _ _ _ Htb E) as [_ Hnotin].
  assert (Hnd : NoDup rest).
  { pose proof (indices_with_hash_NoDup tb (nth p hs []) hs Htb) as H.
    rewrite E in H. now inversion H. }
  unfold FrameRendered. rewrite Hmap, value_hash_index by exact Htb.
  destruct (EncodeFrame_settled w seen s p Hs) as (w1 & Hs1).
  { apply Hfresh. rewrite E. now left. }
  { exact Hpn. }
  rewrite Hvalue, Hp in Hs1.
  rewrite (out_matched _ _ _ _ _ (set_output _ _ _ _ _ _ _ _ _ Hs1)).
  rewrite Hmatched, E. simpl tl.
  destruct (encode_all_settled rest (frames p) w1 (p :: seen) _ Hs1 Hnd)
    as (w' & Hs').
  - intros k Hk. split; [|split].
    + intros [<-|Hin]; [exact (Hnotin Hk)|].
      apply (Hfresh k); [rewrite E; now right | exact Hin].
    + rewrite Hn. apply (indices_with_hash_In (nth p hs [])).
      rewrite E. now right.
    + rewrite Hvalue. f_equal. apply (group_primary tb); auto.
      rewrite E. now right.
  - exists w'. simpl rev. rewrite <- app_assoc. exact Hs'.
Qed.

Lemma settled_alive w seen s :
  settled tb n value_of matched audio_done base w seen s ->
  (0 < n)%nat -> deleted_ s = false.
Proof.
  intros [_ _ _ Hr Hf] Hpos. destruct (le_lt_dec n w) as [Hle|Hlt].
  - exact (fin_deleted _ _ _ (Hf Hle Hpos)).
  - exact (unf_deleted _ _ _ (Hr Hlt)).
Qed.

Lemma frames_settled order w seen s :
  settled tb n value_of matched audio_done base w seen s ->
  NoDup order ->
  (forall p, In p order -> primary_of hs p = p /\ (p < n)%nat) ->
  (forall p k,
      In p order -> In k (indices_with_hash (nth p hs []) hs) ->
      ~ In k seen) ->
  exists w' seen',
    settled tb n value_of matched audio_done base w' seen'
      (run env (frame_calls tb frames order) s)
    /\ (forall k,
           In k seen'
           <-> In k seen
               \/ exists p, In p order
                            /\ In k (indices_with_hash (nth p hs []) hs)).
Proof.
  revert w seen s.
  induction order as [|p order IH]; intros w seen s Hs Hnd Hprim Hfresh.
  - exists w, seen. split; [exact Hs|]. intros k. split; [auto|].
    intros [H|(p & [] & _)]. exact H.
  - apply NoDup_cons_iff in Hnd. destruct Hnd as [Hp Hnd'].
    destruct (Hprim p (or_introl eq_refl)) as [Hpp Hpn].
    destruct (FrameRendered_settled w seen s p Hs Hpp Hpn) as (w1 & Hs1).
    { intros k Hk. apply (Hfresh p k); [now left | exact Hk]. }
    unfold frame_calls. simpl map. rewrite run_cons. unfold deliver.
    rewrite (settled_alive _ _ _ Hs) by lia. simpl handle.
    destruct (IH w1 _ _ Hs1 Hnd') as (w' & seen' & Hs' & Hseen').
    + intros q Hq. apply Hprim. now right.
    + intros q k Hq Hk Hin. apply in_app_iff in Hin.
      destruct Hin as [Hin|Hin].
      * apply in_rev in Hin.
        assert (Hq' : primary_of hs q = q) by (apply Hprim; now right).
        pose proof (group_primary tb hs p k Htb Hpp Hin) as E1.
        pose proof (group_primary tb hs q k Htb Hq' Hk) as E2.
        apply Hp. congruence.
      * apply (Hfresh q k); [now right | exact Hk | exact Hin].
    + exists w', seen'. split; [exact Hs'|].
      intros k. rewrite Hseen', in_app_iff, <- in_rev. split.
      * intros [[H|H]|(q & Hq & Hk)].
        -- right. exists p. split; [now left | exact H].
        -- now left.
        -- right. exists q. split; [now right | exact Hk].
      * intros [H|(q & [<-|Hq] & Hk)].
        -- left; now right.
        -- left; now left.
        -- right. exists q. now split.
Qed.

End Job.

(** *** From [StartExporting] to the last frame *)

Lemma job_start_log tb audio :
  set_log [] (@job_start QVariant Pixels tb audio) = job_start tb audio.
Proof. now destruct audio. Qed.

Lemma run_setup tb len hashes audio :
  run (job_env tb len hashes) setup_calls (job_start tb audio)
  = VideoHashesComplete (job_env tb len hashes) (@after_open QVariant Pixels tb len audio).
Proof. now destruct audio. Qed.

Lemma fields_fold_invalidate ranges s :
  let s' :=
    fold_left
      (fun s range =>
         emit (VideoInvalidateCache (TimeRange.range_in range)
                 (TimeRange.range_out range)) s) ranges s in
  video_params_time_base s' = video_params_time_base s
  /\ waiting_for_frame_ s' = waiting_for_frame_ s
  /\ cached_frames_ s' = cached_frames_ s
  /\ audio_done_ s' = audio_done_ s
  /\ video_done_ s' = video_done_ s
  /\ video_backend_ s' = video_backend_ s
  /\ export_status_ s' = export_status_ s
  /\ deleted_ s' = deleted_ s.
Proof.
  revert s; induction ranges as [|r ranges IH]; intros s; simpl.
  - repeat split.
  - exact (IH (emit _ s)).
Qed.

Lemma fields_VideoHashesComplete env s :
  let s' := VideoHashesComplete env s in
  video_params_time_base s' = video_params_time_base s
  /\ waiting_for_frame_ s' = waiting_for_frame_ s
  /\ cached_frames_ s' = cached_frames_ s
  /\ audio_done_ s' = audio_done_ s
  /\ video_done_ s' = video_done_ s
  /\ video_backend_ s' = video_backend_ s
  /\ export_status_ s' = export_status_ s
  /\ deleted_ s' = deleted_ s.
Proof.
  unfold VideoHashesComplete.
  destruct (dedup_loop _ _ _ _ _) as [ranges matched].
  pose proof (fields_fold_invalidate ranges
                (emit (VideoSetOnlySignalLastFrameRequested false)
                   (emit (VideoSetOperatingMode kRenderOnly)
                      (set_matched matched s)))) as H.
  cbv zeta in *. simpl in H. exact H.
Qed.

Lemma video_requests_render ranges :
  video_requests kRenderOnly (Some kRenderOnly)
    (map (@invalidate QVariant Pixels) ranges) = ranges.
Proof.
  induction ranges as [|[a0 b0] ranges IH]; simpl; [reflexivity|].
  now rewrite IH.
Qed.

Lemma written_frames_invalidate ranges :
  written_frames (map (@invalidate QVariant Pixels) ranges) = [].
Proof. induction ranges as [|r ranges IH]; simpl; auto. Qed.

Lemma count_invalidate p ranges :
  (forall x y, p (@VideoInvalidateCache QVariant Pixels x y) = false) ->
  count p (map invalidate ranges) = 0%nat.
Proof.
  intros Hp. unfold count.
  induction ranges as [|r ranges IH]; simpl; [reflexivity|].
  unfold invalidate at 1. now rewrite Hp.
Qed.

Lemma render_requests_setup tb len hashes audio :
  render_requests
    (trace (job_env tb len hashes) setup_calls (job_start tb audio))
  = fst (collapsed (job_env tb len hashes) (@after_open QVariant Pixels tb len audio)).
Proof.
  unfold trace. rewrite job_start_log, run_setup, log_VideoHashesComplete.
  unfold render_requests. destruct audio; simpl; apply video_requests_render.
Qed.

Lemma tl_map {A B} (f : A -> B) (l : list A) : tl (map f l) = map f (tl l).
Proof. now destruct l. Qed.

(** The frames requested in render mode are the primary ones. *)
Lemma requested_iff tb len hashes audio k :
  0 < tb ->
  (forall j, time_of tb j < len <-> (j < List.length hashes)%nat) ->
  In k (requested tb len hashes audio)
  <-> (k < List.length hashes)%nat /\ primary_of hashes k = k.
Proof.
  intros Htb Hgrid. unfold requested.
  rewrite filter_In, in_seq, render_requests_setup.
  destruct (collapsed_spec (job_env tb len hashes) (@after_open QVariant Pixels tb len audio))
    as [_ Hr].
  rewrite Hr. simpl Length. simpl time_hash_map.
  simpl backend_params_time_base. split.
  - intros [[_ Hk] [_ Hdup]]. simpl in Hk. split; [exact Hk|].
    apply (primary_iff tb); auto.
    intros h Hin. apply (Hdup h (time_of tb k)).
    + rewrite times_with_hash_index, tl_map. now apply in_map.
    + lra.
  - intros [Hk Hp]. split; [simpl; lia|]. split.
    + split; [now apply time_of_nonneg | now apply Hgrid].
    + intros h d Hd [H1 H2].
      rewrite times_with_hash_index, tl_map in Hd.
      apply in_map_iff in Hd. destruct Hd as (j & <- & Hj).
      assert (j = k).
      { assert (L1 : (j <= k)%nat) by now apply (time_of_le tb).
        assert (L2 : (k < S j)%nat).
        { apply (time_of_lt tb); [exact Htb|]. now rewrite time_of_S. }
        lia. }
      subst j. exact (proj1 (primary_iff tb hashes k Htb Hk) Hp h Hj).
Qed.

Lemma requested_NoDup tb len hashes audio :
  NoDup (requested tb len hashes audio).
Proof. apply NoDup_filter, seq_NoDup. Qed.

(** The state of a job when the backend has delivered, in any order,
    one frame for each timestamp it was asked to render: all the
    frames of the timeline are written. *)
Lemma job_settled tb len hashes frames order audio :
  0 < tb ->
  (forall k, time_of tb k < len <-> (k < List.length hashes)%nat) ->
  Permutation order (requested tb len hashes audio) ->
  let env := job_env tb len hashes in
  let s3 := run env setup_calls (job_start tb audio) in
  exists seen,
    settled tb (List.length hashes) (fun k => frames (primary_of hashes k))
      (matched_frames_ s3) (negb audio) (others (log s3))
      (List.length hashes) seen
      (run env (setup_calls ++ frame_calls tb frames order)
         (job_start tb audio)).
Proof.
  intros Htb Hgrid Hperm env s3.
  assert (Hrun : run env (setup_calls ++ frame_calls tb frames order)
                   (job_start tb audio)
                 = run env (frame_calls tb frames order) s3).
  { unfold run. now rewrite fold_left_app. }
  rewrite Hrun.
  assert (E3 : s3 = VideoHashesComplete env (@after_open QVariant Pixels tb len audio))
    by apply run_setup.
  destruct (fields_VideoHashesComplete env (@after_open QVariant Pixels tb len audio))
    as (F1 & F2 & F3 & F4 & F5 & F6 & F7 & F8).
  rewrite <- E3 in *. simpl in F1, F2, F3, F4, F5, F6, F7, F8.
  assert (Hmatched : forall h,
             HashMap.value h (matched_frames_ s3) []
             = map (time_of tb) (tl (indices_with_hash h hashes))).
  { intros h. rewrite E3, matched_VideoHashesComplete.
    destruct (collapsed_spec env (@after_open QVariant Pixels tb len audio)) as [Hm _].
    rewrite Hm. simpl. now rewrite times_with_hash_index, tl_map. }
  assert (Hlog0 : written_frames (log s3) = []
                  /\ count is_texture_to_frame (log s3) = 0%nat).
  { rewrite E3, log_VideoHashesComplete.
    rewrite !written_frames_app, written_frames_invalidate, !count_app,
      count_invalidate by reflexivity.
    destruct audio; split; reflexivity. }
  destruct Hlog0 as [Hw0 Hc0].
  assert (Hs3 : settled tb (List.length hashes)
                  (fun k => frames (primary_of hashes k))
                  (matched_frames_ s3) (negb audio) (others (log s3))
                  0 [] s3).
  { constructor.
    - constructor; auto.
      + rewrite F2. unfold time_of.
        change (inject_Z (Z.of_nat 0)) with 0%Q. lra.
      + rewrite Hw0. constructor.
    - rewrite F3. constructor; simpl; try tauto; try discriminate; intros; lia.
    - now rewrite F3.
    - intros _. constructor; auto.
    - intros; lia. }
  destruct (frames_settled tb (List.length hashes)
              (fun k => frames (primary_of hashes k)) (matched_frames_ s3)
              (negb audio) (others (log s3)) env Htb Hgrid hashes frames
              eq_refl eq_refl Hmatched (fun k => eq_refl)
              order 0%nat [] s3 Hs3)
    as (w' & seen' & Hs' & Hseen').
  - apply (Permutation_NoDup (Permutation_sym Hperm)), requested_NoDup.
  - intros p Hp. apply (Permutation_in _ Hperm) in Hp.
    apply (requested_iff tb len hashes audio p Htb Hgrid) in Hp. tauto.
  - intros p k _ _ [].
  - exists seen'.
    assert (Hall : forall k, (k < List.length hashes)%nat -> In k seen').
    { intros k Hk. apply Hseen'. right.
      destruct (primary_of_hash tb hashes k Htb Hk) as [Hpk Hph].
      exists (primary_of hashes k). split.
      - apply (Permutation_in _ (Permutation_sym Hperm)).
        apply (requested_iff tb len hashes audio _ Htb Hgrid).
        split; [exact Hpk | now apply (primary_of_idem tb)].
      - apply indices_with_hash_In. split; [exact Hk | now symmetry]. }
    pose proof (settled_complete _ _ _ _ _ _ _ _ _ Hs' Hall) as Hw.
    now rewrite Hw in Hs'.
Qed.

(** *** The guard of [ExportSucceeded] *)

Lemma count_snoc p l a :
  count p (l ++ [a]) = (count p l + (if p a then 1 else 0))%nat.
Proof. rewrite count_app. unfold count. simpl. now destruct (p a). Qed.

Lemma closes_body env tb w v :
  count is_EncoderClose (body_actions env tb w v) = 0%nat.
Proof.
  unfold body_actions, pipeline_calls.
  destruct (PixelFormat_eqb (frame_format (TextureToFrame v))
              PIX_FMT_RGBA32F); reflexivity.
Qed.

Lemma closes_ExportSucceeded s :
  count is_EncoderClose (log (ExportSucceeded s))
  = (count is_EncoderClose (log s)
     + (if audio_done_ s && video_done_ s then 1 else 0))%nat.
Proof.
  unfold ExportSucceeded.
  destruct (audio_done_ s), (video_done_ s); simpl; try lia.
  destruct (video_backend_ s); simpl; rewrite !count_snoc; simpl; lia.
Qed.

Lemma close_guard_stable env s0 :
  stable env (fun a => negb (is_EncoderClose a)) (close_guard s0).
Proof.
  constructor; unfold close_guard; try (intros; simpl; assumption).
  - intros a s Hok H. simpl. rewrite count_snoc.
    apply negb_true_iff in Hok. rewrite Hok, Nat.add_0_r. exact H.
  - intros v s H.
    destruct (flags_encode_body env v s) as (_ & Fa & Fv & _).
    rewrite log_encode_body, count_app, closes_body, Nat.add_0_r, Fa, Fv.
    exact H.
  - intros s [H1 [H2 H3]]. simpl. repeat split; auto.
    destruct H1 as [H1|[_ H1]]; [now left | right; now split].
  - intros s [H1 [H2 H3]]. simpl. repeat split; auto.
    destruct H1 as [H1|[H1 _]]; [now left | right; now split].
Qed.

Lemma close_guard_succeeded s0 s :
  close_guard s0 s -> close_guard s0 (ExportSucceeded s).
Proof.
  unfold close_guard.
  destruct (fields_ExportSucceeded s) as (_ & _ & Fa & Fv & _).
  rewrite closes_ExportSucceeded, Fa, Fv.
  destruct (audio_done_ s), (video_done_ s); simpl; rewrite ?Nat.add_0_r;
    tauto.
Qed.

Lemma close_guard_quiet (a : @Action QVariant Pixels) :
  is_write a = false -> is_progress a = false ->
  is_EncoderClose a = false -> negb (is_EncoderClose a) = true.
Proof. now intros _ _ ->. Qed.

Lemma close_guard_start env s0 s :
  close_guard s0 s -> close_guard s0 (StartExporting env s).
Proof.
  unfold close_guard, StartExporting, Initialize.
  destruct (initialize_ok env); simpl.
  - destruct (video_done_ s) eqn:Ev; simpl;
      destruct (audio_done_ s) eqn:Ea; simpl; rewrite ?Ev, ?Ea;
      rewrite ?count_snoc; simpl; rewrite ?Nat.add_0_r; tauto.
  - rewrite count_snoc. simpl. rewrite Nat.add_0_r. tauto.
Qed.

Lemma close_guard_handle env c s : close_guard s (handle env c s).
Proof.
  assert (H0 : close_guard s s) by (unfold close_guard; auto).
  destruct (Call_eq_start c) as [->|Hc].
  - now apply close_guard_start.
  - apply (handle_stable env _ _ (close_guard_stable env s)
             close_guard_quiet (close_guard_succeeded s)); auto.
Qed.

Lemma count_others p l :
  (forall a, p a = true -> is_other a = true) ->
  count p (others l) = count p l.
Proof.
  intros Hp. unfold count, others.
  induction l as [|a l IH]; simpl; [reflexivity|].
  destruct (is_other a) eqn:Eo; simpl.
  - destruct (p a); simpl; now rewrite IH.
  - destruct (p a) eqn:Ep; [|exact IH].
    apply Hp in Ep. congruence.
Qed.

Lemma Forall2_seq_nth {A} (R : A -> nat -> Prop) (l : list A) from len i x :
  Forall2 R l (seq from len) -> nth_error l i = Some x -> R x (from + i)%nat.
Proof.
  revert from len i; induction l as [|y l IH]; intros from len i H Hi.
  - now destruct i.
  - destruct len as [|len]; [inversion H|]. simpl in H.
    inversion H as [|? ? ? ? Hy Hl]; subst.
    destruct i as [|i]; simpl in Hi.
    + inversion Hi; subst. now rewrite Nat.add_0_r.
    + rewrite <- Nat.add_succ_comm. now apply (IH _ len).
Qed.

Lemma primary_of_same_hash tb hashes i j :
  0 < tb ->
  (i < List.length hashes)%nat -> (j < List.length hashes)%nat ->
  nth i hashes [] = nth j hashes [] ->
  primary_of hashes i = primary_of hashes j.
Proof.
  intros Htb Hi Hj E.
  destruct (primary_of_group tb hashes i Htb Hi) as (rest & E1 & _).
  unfold primary_of at 2. rewrite <- E, E1. reflexivity.
Qed.

Lemma job_trace tb len hashes calls audio :
  trace (job_env tb len hashes) calls (@job_start QVariant Pixels tb audio)
  = log (run (job_env tb len hashes) calls (job_start tb audio)).
Proof. unfold trace. now rewrite job_start_log. Qed.

Lemma grid_scenario k : time_of 1 k < inject_Z 10 <-> (k < 10)%nat.
Proof.
  assert (E : inject_Z 10 == time_of 1 10).
  { unfold time_of. simpl. ring. }
  rewrite E. apply time_of_lt. reflexivity.
Qed.

(** C3 (as the code has it): when the backend delivers, in any order,
    one frame for each timestamp it was asked to render, the number of
    frames handed to [WriteFrame] is the number of timestamps of the
    timeline.  For ten frames at step 1 of which frames 3 and 7 hash
    alike, the frames asked for rendering are 0 to 6, 8 and 9 (frame 3
    is rendered, frame 7 is not) and ten frames are written. *)
Theorem every_timestamp_written :
  (forall tb len hashes (frames : nat -> QVariant) order audio,
      0 < tb ->
      (forall k, time_of tb k < len <-> (k < List.length hashes)%nat) ->
      Permutation order (requested tb len hashes audio) ->
      count is_write
        (trace (job_env tb len hashes)
           (setup_calls ++ frame_calls tb frames order)
           (job_start tb audio))
      = List.length hashes)
  /\ requested 1 (inject_Z 10) scenario_hashes false
     = [0; 1; 2; 3; 4; 5; 6; 8; 9]%nat
  /\ (forall (frames : nat -> QVariant) order,
         Permutation order [0; 1; 2; 3; 4; 5; 6; 8; 9]%nat ->
         count is_write
           (trace (job_env 1 (inject_Z 10) scenario_hashes)
              (setup_calls ++ frame_calls 1 frames order)
              (job_start 1 false))
         = 10%nat).
Proof.
  assert (General :
    forall tb len hashes (frames : nat -> QVariant) order audio,
      0 < tb ->
      (forall k, time_of tb k < len <-> (k < List.length hashes)%nat) ->
      Permutation order (requested tb len hashes audio) ->
      count is_write
        (trace (job_env tb len hashes)
           (setup_calls ++ frame_calls tb frames order)
           (job_start tb audio))
      = List.length hashes).
  { intros tb len hashes frames order audio Htb Hgrid Hperm.
    destruct (job_settled tb len hashes frames order audio Htb Hgrid Hperm)
      as (seen & Hs).
    rewrite job_trace, count_written.
    pose proof (out_written _ _ _ _ _ (set_output _ _ _ _ _ _ _ _ _ Hs)) as H.
    apply Forall2_length in H. now rewrite length_seq in H. }
  assert (Scenario : requested 1 (inject_Z 10) scenario_hashes false
                     = [0; 1; 2; 3; 4; 5; 6; 8; 9]%nat) by reflexivity.
  split; [exact General | split; [exact Scenario|]].
  intros frames order Hperm.
  apply (General 1 (inject_Z 10) scenario_hashes frames order false).
  - reflexivity.
  - exact grid_scenario.
  - now rewrite Scenario.
Qed.

(** C4 (as the code has it): in a whole job the frame written for
    timestamp [k] is the conversion of the value rendered for the
    primary frame of [k], stamped with the timestamp of [k]; so two
    timestamps with the same hash get frames with the same pixel data
    and layout.  The rendered value is what is shared: the conversion
    pipeline runs once for every frame written, duplicates included. *)
Theorem duplicate_gets_primary_content tb len hashes
    (frames : nat -> QVariant) order audio :
  0 < tb ->
  (forall k, time_of tb k < len <-> (k < List.length hashes)%nat) ->
  Permutation order (requested tb len hashes audio) ->
  let tr :=
    trace (job_env tb len hashes)
      (setup_calls ++ frame_calls tb frames order) (job_start tb audio) in
  Forall2
    (fun f k =>
       f = set_timestamp (converted (frames (primary_of hashes k)))
             (frame_timestamp f)
       /\ frame_timestamp f == time_of tb k)
    (written_frames tr) (seq 0 (List.length hashes))
  /\ (forall i j fi fj,
         nth_error (written_frames tr) i = Some fi ->
         nth_error (written_frames tr) j = Some fj ->
         nth i hashes [] = nth j hashes [] ->
         frame_data fi = frame_data fj /\ frame_format fi = frame_format fj)
  /\ count is_texture_to_frame tr = List.length hashes
  /\ count is_texture_to_frame tr = count is_write tr.
Proof.
  intros Htb Hgrid Hperm tr.
  destruct (job_settled tb len hashes frames order audio Htb Hgrid Hperm)
    as (seen & Hs).
  pose proof (set_output _ _ _ _ _ _ _ _ _ Hs) as Ho.
  pose proof (out_written _ _ _ _ _ Ho) as Hw.
  pose proof (out_conversions _ _ _ _ _ Ho) as Hc.
  rewrite <- job_trace in Hw, Hc. fold tr in Hw, Hc.
  assert (Hlen : List.length (written_frames tr) = List.length hashes).
  { apply Forall2_length in Hw. now rewrite length_seq in Hw. }
  split; [exact Hw | split; [|split]].
  - intros i j fi fj Hi Hj Hh.
    assert (Li : (i < List.length hashes)%nat).
    { rewrite <- Hlen. apply nth_error_Some. congruence. }
    assert (Lj : (j < List.length hashes)%nat).
    { rewrite <- Hlen. apply nth_error_Some. congruence. }
    destruct (Forall2_seq_nth _ _ _ _ _ _ Hw Hi) as [Ei _].
    destruct (Forall2_seq_nth _ _ _ _ _ _ Hw Hj) as [Ej _].
    simpl in Ei, Ej.
    rewrite (primary_of_same_hash tb hashes i j Htb Li Lj Hh) in Ei.
    rewrite Ei, Ej. now split.
  - exact Hc.
  - now rewrite Hc, count_written, Hlen.
Qed.

Lemma closes_AudioEncodeComplete s :
  count is_EncoderClose (log (AudioEncodeComplete s))
  = (count is_EncoderClose (log s) + (if video_done_ s then 1 else 0))%nat.
Proof. unfold AudioEncodeComplete. now rewrite closes_ExportSucceeded. Qed.

(** C8: [Close] is requested by [ExportSucceeded] only, and only in a
    state where [video_done_] and [audio_done_] both hold; whatever
    call it is, a call that requests [Close] leaves both flags set.
    The guard is evaluated when the audio completes
    ([AudioEncodeComplete]) and when the video does (the end of
    [EncodeFrame]).  A job with video only, once all its frames have
    been delivered and the encoder has closed, has requested [Close]
    once, has emitted [ExportEnded] once with status true, and has
    never touched the audio backend. *)
Theorem close_when_streams_done :
  (forall s : @Exporter QVariant Pixels,
      count is_EncoderClose (log (ExportSucceeded s))
      = (count is_EncoderClose (log s)
         + (if audio_done_ s && video_done_ s then 1 else 0))%nat)
  /\ (forall env c (s : @Exporter QVariant Pixels),
         count is_EncoderClose (log (handle env c s))
         <> count is_EncoderClose (log s) ->
         video_done_ (handle env c s) = true
         /\ audio_done_ (handle env c s) = true)
  /\ (forall s : @Exporter QVariant Pixels,
         count is_EncoderClose (log (AudioEncodeComplete s))
         = (count is_EncoderClose (log s)
            + (if video_done_ s then 1 else 0))%nat)
  /\ (forall env t v (s : @Exporter QVariant Pixels),
         t == waiting_for_frame_ s ->
         let s2 :=
           drain env (List.length (cached_frames_ (encode_body env v s)))
             (encode_body env v s) in
         Length env <= waiting_for_frame_ s2 ->
         EncodeFrame env t v s = ExportSucceeded (set_video_done true s2))
  /\ (forall tb len hashes (frames : nat -> QVariant) order,
         0 < tb ->
         (forall k, time_of tb k < len <-> (k < List.length hashes)%nat) ->
         (0 < List.length hashes)%nat ->
         Permutation order (requested tb len hashes false) ->
         let env := job_env tb len hashes in
         let calls :=
           setup_calls ++ frame_calls tb frames order
           ++ [CallEncoderClosed] in
         let tr := trace env calls (job_start tb false) in
         GetExportStatus (run env calls (job_start tb false)) = true
         /\ count is_EncoderClose tr = 1%nat
         /\ count is_ExportEnded tr = 1%nat
         /\ count is_audio_backend tr = 0%nat).
Proof.
  split; [exact closes_ExportSucceeded|].
  split.
  { intros env c s Hne.
    destruct (close_guard_handle env c s) as [[H|H] _]; [congruence|exact H]. }
  split; [exact closes_AudioEncodeComplete|].
  split.
  { intros env t v s Ht s2 Hlen. unfold EncodeFrame.
    apply Qeq_bool_iff in Ht. rewrite Ht. cbv zeta. fold s2.
    apply Qle_bool_iff in Hlen. now rewrite Hlen. }
  intros tb len hashes frames order Htb Hgrid Hpos Hperm. cbv zeta.
  rewrite !job_trace.
  destruct (job_settled tb len hashes frames order false Htb Hgrid Hperm)
    as (seen & Hs).
  set (env := job_env tb len hashes) in *.
  set (sf := run env (setup_calls ++ frame_calls tb frames order)
               (job_start tb false)) in *.
  destruct (set_finished _ _ _ _ _ _ _ _ _ Hs (le_n _) Hpos)
    as [_ Hdel _ Hstatus Hothers].
  assert (Hrun : run env (setup_calls ++ frame_calls tb frames order
                          ++ [CallEncoderClosed]) (job_start tb false)
                 = EncoderClosed sf).
  { rewrite app_assoc, run_app. fold sf.
    unfold run. simpl. unfold deliver. now rewrite Hdel. }
  rewrite !Hrun.
  split; [exact Hstatus|].
  assert (Hbase : forall p,
             (forall a, p a = true -> is_other a = true) ->
             (forall x y,
                 p (@VideoInvalidateCache QVariant Pixels x y) = false) ->
             count p (log sf)
             = (count p
                  (log (@after_open QVariant Pixels tb len false)
                   ++ [VideoSetOperatingMode kRenderOnly;
                       VideoSetOnlySignalLastFrameRequested false])
                + count p [CallCleanup; VideoDeleteLater; EncoderClose])%nat).
  { intros p Hp Hinv.
    rewrite <- (count_others p (log sf) Hp), Hothers.
    simpl negb. cbv iota. rewrite count_app. f_equal.
    rewrite (count_others p _ Hp).
    unfold env. rewrite run_setup, log_VideoHashesComplete.
    rewrite app_assoc, count_app, (count_invalidate p _ Hinv). lia. }
  unfold EncoderClosed, emit_ExportEnded. simpl log.
  rewrite !count_snoc.
  rewrite !Hbase; try reflexivity;
    try (intros a Ha; destruct a; try discriminate Ha; reflexivity).
  repeat split.
Qed.

(** *** The progress of a job *)

Lemma last_map_seq {A} (g : nat -> A) (n : nat) (d : A) :
  last (map g (seq 0 (S n))) d = g n.
Proof. rewrite seq_S, map_app. simpl. apply last_last. Qed.

Lemma frame_calls_quiet tb (frames : nat -> QVariant) order :
  Forall (fun c => c <> CallStartExporting /\ c <> CallEncoderClosed)
    (CallVideoHashesComplete :: frame_calls tb frames order).
Proof.
  constructor; [split; discriminate|].
  unfold frame_calls. apply Forall_forall. intros c Hc.
  apply in_map_iff in Hc. destruct Hc as (k & <- & _).
  split; discriminate.
Qed.

Lemma map_Forall2 {A B C} (R : A -> B -> Prop) (f : A -> C) (g : B -> C)
    (l1 : list A) (l2 : list B) :
  Forall2 R l1 l2 -> (forall x y, In y l2 -> R x y -> f x = g y) ->
  map f l1 = map g l2.
Proof.
  intros H. induction H as [|x y l1 l2 Hxy _ IH]; intros Hfg; [reflexivity|].
  simpl. rewrite (Hfg x y (or_introl eq_refl) Hxy), IH; [reflexivity|].
  intros x' y' Hin. apply Hfg. now right.
Qed.

Lemma progressing_run env calls s :
  0 < video_params_time_base s ->
  0 <= waiting_for_frame_ s ->
  write_times (log s) = [] -> progress_values (log s) = [] ->
  Forall (fun c => c <> CallStartExporting /\ c <> CallEncoderClosed) calls ->
  progressing env (run env calls s).
Proof.
  intros Htb H0 Hw Hp Hcalls.
  apply (run_stable env _ (progressing env) (progressing_stable env)
           is_quiet_quiet
           (succeeded_stable env _ _ (progressing_stable env)
              eq_refl eq_refl eq_refl)).
  - revert Hcalls; apply Forall_impl; tauto.
  - intros Hin. rewrite Forall_forall in Hcalls.
    now destruct (Hcalls _ Hin).
  - reflexivity.
  - unfold progressing. rewrite Hw, Hp.
    repeat split; auto; constructor.
Qed.

(** A video job whose frames have all been delivered, on a timeline
    that is a whole number of frames long: the progress values sent
    with the frames, before the encoder has closed. *)
Lemma whole_job_progress tb len hashes (frames : nat -> QVariant) order :
  0 < tb ->
  length_ok len ->
  len == time_of tb (List.length hashes) ->
  (0 < List.length hashes)%nat ->
  Permutation order (requested tb len hashes false) ->
  let env := job_env tb len hashes in
  let sf :=
    run env (setup_calls ++ frame_calls tb frames order)
      (job_start tb false) in
  progress_values (log sf)
  = map (fun k => progress_of env (time_of tb (S k)))
      (seq 0 (List.length hashes))
  /\ StronglySorted Z.le (progress_values (log sf) ++ [100%Z])
  /\ Forall (fun p => (0 <= p <= 100)%Z) (progress_values (log sf))
  /\ deleted_ sf = false
  /\ count is_ExportEnded (log sf) = 0%nat.
Proof.
  intros Htb Hl Hlen Hpos Hperm. cbv zeta.
  assert (Hgrid : forall k,
             time_of tb k < len <-> (k < List.length hashes)%nat).
  { intros k. rewrite Hlen. now apply time_of_lt. }
  destruct (job_settled tb len hashes frames order false Htb Hgrid Hperm)
    as (seen & Hs).
  cbv zeta in Hs.
  assert (Hprog : progressing (job_env tb len hashes)
                    (run (job_env tb len hashes)
                       (setup_calls ++ frame_calls tb frames order)
                       (job_start tb false))).
  { rewrite run_app, run_setup.
    change (progressing (job_env tb len hashes)
              (run (job_env tb len hashes)
                 (CallVideoHashesComplete :: frame_calls tb frames order)
                 (@after_open QVariant Pixels tb len false))).
    apply progressing_run; try reflexivity; try discriminate.
    - exact Htb.
    - apply frame_calls_quiet. }
  assert (Hbase : count is_ExportEnded
                    (log (run (job_env tb len hashes) setup_calls
                            (@job_start QVariant Pixels tb false)))
                  = 0%nat).
  { rewrite run_setup, log_VideoHashesComplete, app_assoc, count_app,
      count_invalidate by reflexivity.
    reflexivity. }
  remember (run (job_env tb len hashes)
              (setup_calls ++ frame_calls tb frames order)
              (job_start tb false)) as sf eqn:Esf.
  destruct Hs as [[Htbf _ Hwait Hw _] _ _ _ Hfin].
  destruct (Hfin (le_n _) Hpos) as [_ Hdel _ _ Hothers].
  destruct Hprog as (_ & _ & Hsorted & Hts & Hm).
  rewrite Htbf in Hts, Hm.
  assert (Hends : Forall (fun ts => 0 <= ts /\ ts + tb <= len)
                    (write_times (log sf))).
  { revert Hts. apply Forall_impl. intros ts [H0 H1].
    split; [exact H0|]. rewrite Hlen, <- Hwait. exact H1. }
  destruct (progress_sorted (job_env tb len hashes) tb
              (write_times (log sf)) Hl (Qlt_le_weak _ _ Htb) Hsorted Hends)
    as [S1 S2].
  rewrite <- Hm in S1, S2.
  split; [|split; [exact S1 | split; [exact S2 | split; [exact Hdel|]]]].
  - rewrite Hm. unfold write_times. rewrite map_map.
    apply (map_Forall2 _ _ _ _ _ Hw).
    intros f k Hk [_ Hf]. apply in_seq in Hk.
    pose proof (time_of_nonneg tb k Htb) as Hk0.
    assert (Hk1 : time_of tb (S k) <= len).
    { rewrite Hlen. apply time_of_le; [exact Htb | lia]. }
    pose proof (time_of_S tb k) as HS.
    apply progress_eq; [exact Hl | lra | lra | exact Hk1].
  - assert (O : forall a : @Action QVariant Pixels,
               is_ExportEnded a = true -> is_other a = true)
      by (intros a; destruct a; try discriminate; reflexivity).
    rewrite <- (count_others _ _ O), Hothers, count_app, (count_others _ _ O),
      Hbase.
    reflexivity.
Qed.

(** C5 (as the code has it): one value is sent with [ProgressChanged]
    per frame written, computed in [double] arithmetic from the
    expected timestamp after the write and the timeline length,
    [qRound(100.0 * (waiting / length))].  As long as the frames written
    end within the timeline the values never decrease and lie between 0
    and 100, and the 100 that [EncoderClosed] sends at the end is no
    decrease; the value is 100 for the frame that ends exactly at the
    end of the timeline.  So on a timeline that is a whole number of
    frames long the values of a whole job never decrease, lie between 0
    and 100, and 100 is reached when the last frame is written, before
    [ExportEnded], and sent once more by [EncoderClosed]. *)
Theorem progress_follows_writes :
  (forall env calls (s : @Exporter QVariant Pixels),
      0 < video_params_time_base s ->
      length_ok (Length env) ->
      0 <= waiting_for_frame_ s ->
      Forall (fun c => c <> CallStartExporting /\ c <> CallEncoderClosed)
        calls ->
      let tr := trace env calls s in
      let tb := video_params_time_base s in
      progress_values tr
      = map (fun ts => progress_of env (ts + tb)) (write_times tr)
      /\ (Forall (fun ts => ts + tb <= Length env) (write_times tr) ->
          StronglySorted Z.le (progress_values tr ++ [100%Z])
          /\ Forall (fun p => (0 <= p <= 100)%Z) (progress_values tr)))
  /\ (forall env (w : rational),
         length_ok (Length env) -> w == Length env ->
         progress_of env w = 100%Z)
  /\ (forall s' : @Exporter QVariant Pixels,
         progress_values (log (EncoderClosed s'))
         = progress_values (log s') ++ [100%Z])
  /\ (forall tb len hashes (frames : nat -> QVariant) order,
         0 < tb ->
         length_ok len ->
         len == time_of tb (List.length hashes) ->
         (0 < List.length hashes)%nat ->
         Permutation order (requested tb len hashes false) ->
         let env := job_env tb len hashes in
         let video := setup_calls ++ frame_calls tb frames order in
         let before := trace env video (job_start tb false) in
         let whole :=
           trace env (video ++ [CallEncoderClosed]) (job_start tb false) in
         progress_values whole = progress_values before ++ [100%Z]
         /\ StronglySorted Z.le (progress_values whole)
         /\ Forall (fun p => (0 <= p <= 100)%Z) (progress_values whole)
         /\ last (progress_values before) 0%Z = 100%Z
         /\ count is_ExportEnded before = 0%nat).
Proof.
  split; [|split; [|split]].
  - intros env calls s Htb Hl H0 Hcalls tr tb.
    assert (H : progressing env (run env calls (set_log [] s)))
      by (apply progressing_run; auto).
    assert (Ht : video_params_time_base (run env calls (set_log [] s)) = tb).
    { apply (run_stable env _ _ (time_base_stable env _)
               (fun _ _ _ _ => eq_refl)
               (succeeded_stable env _ _ (time_base_stable env _)
                  eq_refl eq_refl eq_refl));
        auto.
      revert Hcalls; apply Forall_impl; tauto. }
    destruct H as (_ & _ & Hs & Hts & Hm).
    rewrite Ht in Hts, Hm. fold (trace env calls s) in Hs, Hts, Hm.
    fold tr in Hs, Hts, Hm.
    split; [exact Hm|].
    intros Hend. rewrite Hm.
    apply progress_sorted; [exact Hl | now apply Qlt_le_weak | exact Hs |].
    apply Forall_forall. intros ts Hin.
    rewrite Forall_forall in Hts, Hend.
    split; [apply (Hts _ Hin) | apply (Hend _ Hin)].
  - intros env w Hl Hw. now apply progress_full.
  - intros s'. unfold EncoderClosed, emit_ExportEnded. simpl.
    rewrite !progress_values_app. simpl. now rewrite app_nil_r.
  - intros tb len hashes frames order Htb Hl Hlen Hpos Hperm. cbv zeta.
    destruct (whole_job_progress tb len hashes frames order
                Htb Hl Hlen Hpos Hperm)
      as (Hv & Hs & Hr & Hd & He).
    cbv zeta in Hv, Hs, Hr, Hd, He.
    rewrite !job_trace, run_app.
    remember (run (job_env tb len hashes)
                (setup_calls ++ frame_calls tb frames order)
                (job_start tb false)) as sf eqn:Esf.
    assert (E : progress_values
                  (log (run (job_env tb len hashes) [CallEncoderClosed] sf))
                = progress_values (log sf) ++ [100%Z]).
    { unfold run. simpl. unfold deliver. rewrite Hd. simpl.
      rewrite !progress_values_app. simpl. now rewrite app_nil_r. }
    rewrite E.
    split; [reflexivity|]. split; [exact Hs|]. split; [|split; [|exact He]].
    + apply Forall_app. split; [exact Hr|]. constructor; [lia | constructor].
    + rewrite Hv.
      destruct (List.length hashes) as [|n] eqn:En; [lia|].
      rewrite last_map_seq. apply progress_full; [exact Hl|].
      simpl Length. rewrite Hlen. reflexivity.
Qed.


End ExporterFacts.

(** ** The theorems at work on concrete jobs *)

Lemma write_frame_order_witness :
  let calls := frame_calls 1 ten_frames [2; 0; 1]%nat in
  (0 < video_params_time_base ten_ready
   /\ Forall (fun c => c <> CallStartExporting) calls)
  /\ StronglySorted Qlt (write_times (trace ten_env calls ten_ready))
  /\ write_times (trace ten_env calls ten_ready) = [0; 1; 2].
Proof.
  intros calls.
  assert (H1 : 0 < video_params_time_base ten_ready) by reflexivity.
  assert (H2 : Forall (fun c => c <> CallStartExporting) calls)
    by (repeat constructor; discriminate).
  split; [split; [exact H1 | exact H2]|].
  split; [|reflexivity].
  exact (proj1 (write_frame_order ten_env calls ten_ready 5 5%nat H1 H2)).
Defined.

Lemma stale_frame_never_encoded_witness :
  let s := run ten_env (frame_calls 1 ten_frames [0; 1; 2]%nat) ten_ready in
  let calls := frame_calls 1 ten_frames [3; 4]%nat in
  let s1 := EncodeFrame ten_env 1 42%nat s in
  (0 < video_params_time_base s
   /\ 1 < waiting_for_frame_ s
   /\ Forall (fun c => c <> CallStartExporting) calls)
  /\ log s1 = log s
  /\ waiting_for_frame_ s1 = waiting_for_frame_ s
  /\ QMap.find 1 (cached_frames_ s1) = Some 42%nat
  /\ QMap.contains 1 (cached_frames_ (run ten_env calls s1)) = true
  /\ Forall (fun ts => ~ ts == 1) (write_times (trace ten_env calls s1)).
Proof.
  intros s calls s1.
  assert (H1 : 0 < video_params_time_base s) by reflexivity.
  assert (H2 : 1 < waiting_for_frame_ s) by reflexivity.
  assert (H3 : Forall (fun c => c <> CallStartExporting) calls)
    by (repeat constructor; discriminate).
  split; [split; [exact H1 | split; [exact H2 | exact H3]]|].
  exact (stale_frame_never_encoded ten_env calls s 1 42%nat H1 H2 H3).
Defined.

Lemma progress_follows_writes_witness :
  let order := rev [0; 1; 2; 3; 4; 5; 6; 8; 9]%nat in
  let video := setup_calls ++ frame_calls 1 ten_frames order in
  let whole := trace ten_env (video ++ [CallEncoderClosed]) ten_start in
  (0 < 1
   /\ length_ok (inject_Z 10)
   /\ inject_Z 10 == time_of 1 (List.length scenario_hashes)
   /\ (0 < List.length scenario_hashes)%nat
   /\ Permutation order (requested 1 (inject_Z 10) scenario_hashes false))
  /\ StronglySorted Z.le (progress_values whole)
  /\ progress_values whole
     = [10; 20; 30; 40; 50; 60; 70; 80; 90; 100; 100]%Z.
Proof.
  intros order video whole.
  assert (H1 : 0 < 1) by reflexivity.
  assert (H2 : length_ok (inject_Z 10))
    by (split; apply Qle_bool_iff; vm_compute; reflexivity).
  assert (H3 : inject_Z 10 == time_of 1 (List.length scenario_hashes))
    by reflexivity.
  assert (H4 : (0 < List.length scenario_hashes)%nat) by (simpl; lia).
  assert (H5 : Permutation order
                 (requested 1 (inject_Z 10) scenario_hashes false)).
  { apply Permutation_sym. exact (Permutation_rev _). }
  split;
    [split; [exact H1 | split; [exact H2 | split; [exact H3 |
     split; [exact H4 | exact H5]]]]|].
  split; [|vm_compute; reflexivity].
  exact (proj1 (proj2 (proj2 (proj2 (proj2 progress_follows_writes))
                         1 (inject_Z 10) scenario_hashes ten_frames order
                         H1 H2 H3 H4 H5))).
Defined.


Lemma duplicate_frames_collapsed_witness :
  let s := @after_open nat nat 1 (inject_Z 10) false in
  (QMap.sorted (time_hash_map ten_env) /\ 0 < backend_params_time_base s)
  /\ (forall h,
         HashMap.value h (matched_frames_ (VideoHashesComplete ten_env s)) []
         = HashMap.value h (matched_frames_ s) []
           ++ tl (times_with_hash h (time_hash_map ten_env)))
  /\ matched_frames_ (VideoHashesComplete ten_env s) = [([x03], [7])].
Proof.
  intros s.
  assert (H1 : QMap.sorted (time_hash_map ten_env)).
  { unfold QMap.sorted. simpl. repeat constructor. }
  assert (H2 : 0 < backend_params_time_base s) by reflexivity.
  split; [split; [exact H1 | exact H2]|].
  split; [|reflexivity].
  exact (proj1 (duplicate_frames_collapsed ten_env s H1 H2)).
Defined.

Lemma every_timestamp_written_witness :
  let order := rev [0; 1; 2; 3; 4; 5; 6; 8; 9]%nat in
  (0 < 1
   /\ (forall k, time_of 1 k < inject_Z 10
                 <-> (k < List.length scenario_hashes)%nat)
   /\ Permutation order (requested 1 (inject_Z 10) scenario_hashes false))
  /\ count is_write
       (trace ten_env (setup_calls ++ frame_calls 1 ten_frames order)
          ten_start)
     = 10%nat.
Proof.
  intros order.
  assert (H1 : 0 < 1) by reflexivity.
  assert (H2 : forall k, time_of 1 k < inject_Z 10
                         <-> (k < List.length scenario_hashes)%nat)
    by exact grid_scenario.
  assert (H3 : Permutation order
                 (requested 1 (inject_Z 10) scenario_hashes false)).
  { apply Permutation_sym. exact (Permutation_rev _). }
  split; [split; [exact H1 | split; [exact H2 | exact H3]]|].
  exact (proj1 every_timestamp_written 1 (inject_Z 10) scenario_hashes
           ten_frames order false H1 H2 H3).
Defined.

Lemma duplicate_gets_primary_content_witness :
  let order := rev [0; 1; 2; 3; 4; 5; 6; 8; 9]%nat in
  let tr :=
    trace ten_env (setup_calls ++ frame_calls 1 ten_frames order) ten_start in
  (0 < 1
   /\ (forall k, time_of 1 k < inject_Z 10
                 <-> (k < List.length scenario_hashes)%nat)
   /\ Permutation order (requested 1 (inject_Z 10) scenario_hashes false))
  /\ count is_texture_to_frame tr = 10%nat
  /\ map frame_data (written_frames tr) = [0; 1; 2; 3; 4; 5; 6; 3; 8; 9]%nat.
Proof.
  intros order tr.
  assert (H1 : 0 < 1) by reflexivity.
  assert (H2 : forall k, time_of 1 k < inject_Z 10
                         <-> (k < List.length scenario_hashes)%nat)
    by exact grid_scenario.
  assert (H3 : Permutation order
                 (requested 1 (inject_Z 10) scenario_hashes false)).
  { apply Permutation_sym. exact (Permutation_rev _). }
  split; [split; [exact H1 | split; [exact H2 | exact H3]]|].
  split; [|reflexivity].
  exact (proj1 (proj2 (proj2
           (duplicate_gets_primary_content 1 (inject_Z 10) scenario_hashes
              ten_frames order false H1 H2 H3)))).
Defined.

Lemma close_when_streams_done_witness :
  let order := rev [0; 1; 2; 3; 4; 5; 6; 8; 9]%nat in
  let calls :=
    setup_calls ++ frame_calls 1 ten_frames order ++ [CallEncoderClosed] in
  (0 < 1
   /\ (forall k, time_of 1 k < inject_Z 10
                 <-> (k < List.length scenario_hashes)%nat)
   /\ (0 < List.length scenario_hashes)%nat
   /\ Permutation order (requested 1 (inject_Z 10) scenario_hashes false))
  /\ GetExportStatus (run ten_env calls ten_start) = true
  /\ count is_EncoderClose (trace ten_env calls ten_start) = 1%nat
  /\ count is_ExportEnded (trace ten_env calls ten_start) = 1%nat
  /\ count is_audio_backend (trace ten_env calls ten_start) = 0%nat.
Proof.
  intros order calls.
  assert (H1 : 0 < 1) by reflexivity.
  assert (H2 : forall k, time_of 1 k < inject_Z 10
                         <-> (k < List.length scenario_hashes)%nat)
    by exact grid_scenario.
  assert (H3 : (0 < List.length scenario_hashes)%nat) by (simpl; lia).
  assert (H4 : Permutation order
                 (requested 1 (inject_Z 10) scenario_hashes false)).
  { apply Permutation_sym. exact (Permutation_rev _). }
  split; [split; [exact H1 | split; [exact H2 | split; [exact H3 | exact H4]]]|].
  exact (proj2 (proj2 (proj2 (proj2 close_when_streams_done)))
           1 (inject_Z 10) scenario_hashes ten_frames order H1 H2 H3 H4).
Defined.

Lemma clickable_label_signals_witness :
  let w := ClickableLabel.mkWidget true in
  ClickableLabel.underMouse w = true
  /\ ClickableLabel.mouseReleaseEvent w = [ClickableLabel.MouseClicked].
Proof.
  intros w. split; [reflexivity|].
  exact (proj1 (clickable_label_signals w) eq_refl).
Defined.

(** ** Where the code departs from the specification *)

(** Against C3: in the ten-frame job where frames 3 and 7 hash alike
    the backend is asked to render [0, 7) and [8, 10): frame 3, the
    primary of the pair, is rendered; only frame 7 is left out. *)
Lemma scenario_renders_frame_three :
  render_requests (trace ten_env setup_calls ten_start)
  = [(0, 7); (8, inject_Z 10)]
  /\ In 3%nat (requested (hooks := example_hooks) 1 (inject_Z 10)
                 scenario_hashes false)
  /\ requested (hooks := example_hooks) 1 (inject_Z 10) scenario_hashes false
     <> [0; 1; 2; 4; 5; 6; 8; 9]%nat.
Proof.
  split; [reflexivity|]. split; [|discriminate].
  vm_compute. tauto.
Qed.

(** Against C4: two frames with the same hash, one rendered frame
    delivered.  [FrameRendered] runs the whole conversion pipeline a
    second time for the duplicate timestamp. *)
Lemma pipeline_runs_for_the_duplicate :
  trace twin_env [CallFrameRendered 0 7%nat] twin_ready
  = [CallTextureToFrame 7%nat; CallConvertPixelFormat;
     CallDisassociateAlpha; CallConvertFrame;
     EncoderWriteFrame (mkFrame PIX_FMT_RGBA32F 7%nat 0);
     ProgressChanged 50;
     CallTextureToFrame 7%nat; CallConvertPixelFormat;
     CallDisassociateAlpha; CallConvertFrame;
     EncoderWriteFrame (mkFrame PIX_FMT_RGBA32F 7%nat 1);
     ProgressChanged 100;
     CallCleanup; VideoDeleteLater; EncoderClose]
  /\ count is_texture_to_frame
       (trace twin_env [CallFrameRendered 0 7%nat] twin_ready) = 2%nat
  /\ count is_conversion
       (trace twin_env [CallFrameRendered 0 7%nat] twin_ready) = 8%nat.
Proof. repeat split. Qed.

(** Against C5: the value 100 is emitted by [EncodeFrame] when the last
    frame is written, before [Close] is even requested and with
    [ExportEnded] still to come; and on a timeline whose length is not
    a multiple of the step the values go beyond 100 and come back to
    100 at the end. *)
Lemma progress_reaches_100_early :
  progress_values (trace twin_env [CallFrameRendered 0 7%nat] twin_ready)
  = [50%Z; 100%Z]
  /\ count is_ExportEnded
       (trace twin_env [CallFrameRendered 0 7%nat] twin_ready) = 0%nat
  /\ progress_values (trace short_env short_calls (job_start 1 false))
     = [67%Z; 133%Z; 100%Z].
Proof. repeat split; vm_compute; reflexivity. Qed.

(** ** Further properties of the exporter *)

Section ExporterExtras.
Context {QVariant Pixels : Type} {hooks : ExporterHooks QVariant Pixels}.
Implicit Types (s : @Exporter QVariant Pixels) (env : Env).

(** *** Properties kept by the steps [EncodeFrame] is made of *)

Section Closed.
Variables (env : Env) (P : @Exporter QVariant Pixels -> Prop).
Hypothesis Hbody : forall v s, P s -> P (encode_body env v s).
Hypothesis Htake : forall s,
    P s ->
    P (set_cached (QMap.remove (waiting_for_frame_ s) (cached_frames_ s)) s).
Hypothesis Hinsert : forall t v s,
    P s -> P (set_cached (QMap.insert t v (cached_frames_ s)) s).
Hypothesis Hdone : forall s, P s -> P (set_video_done true s).
Hypothesis Hsucc : forall s, P s -> P (ExportSucceeded s).

Lemma drain_closed fuel s : P s -> P (drain env fuel s).
Proof.
  revert s; induction fuel as [|fuel IH]; intros s H; simpl; [exact H|].
  destruct (QMap.find (waiting_for_frame_ s) (cached_frames_ s)); [|exact H].
  apply IH, Hbody, Htake, H.
Qed.

Lemma EncodeFrame_closed t v s : P s -> P (EncodeFrame env t v s).
Proof.
  intros H. unfold EncodeFrame.
  destruct (Qeq_bool t (waiting_for_frame_ s)); [|apply Hinsert, H].
  match goal with |- P (if ?c then _ else _) => destruct c end.
  - apply Hsucc, Hdone, drain_closed, Hbody, H.
  - apply drain_closed, Hbody, H.
Qed.

Lemma FrameRendered_closed t v s : P s -> P (FrameRendered env t v s).
Proof.
  intros H. unfold FrameRendered.
  generalize (HashMap.value (QMap.value t (time_hash_map env) [])
                (matched_frames_ (EncodeFrame env t v s)) []).
  intros ts. apply (EncodeFrame_closed t v) in H. revert H.
  generalize (EncodeFrame env t v s). clear s.
  induction ts as [|t' ts IH]; intros s H; simpl; [exact H|].
  apply IH, EncodeFrame_closed, H.
Qed.
End Closed.

(** The flags and tables [FrameRendered] never touches. *)
Lemma FrameRendered_keeps env t v s :
  let s' := FrameRendered env t v s in
  deleted_ s' = deleted_ s
  /\ export_msg_ s' = export_msg_ s
  /\ matched_frames_ s' = matched_frames_ s
  /\ audio_done_ s' = audio_done_ s
  /\ video_params_time_base s' = video_params_time_base s.
Proof.
  apply (FrameRendered_closed env
           (fun s' => deleted_ s' = deleted_ s
                      /\ export_msg_ s' = export_msg_ s
                      /\ matched_frames_ s' = matched_frames_ s
                      /\ audio_done_ s' = audio_done_ s
                      /\ video_params_time_base s'
                         = video_params_time_base s));
    try (intros; simpl; assumption); [| |repeat split].
  - intros v0 s0 H. unfold encode_body.
    destruct (PixelFormat_eqb (frame_format (TextureToFrame v0))
                PIX_FMT_RGBA32F); exact H.
  - intros s0 H. unfold ExportSucceeded.
    destruct (negb (audio_done_ s0) || negb (video_done_ s0)); [exact H|].
    destruct (video_backend_ (emit CallCleanup s0)); exact H.
Qed.

(** *** What each call sends *)

Lemma Forall_invalidate (A : @Action QVariant Pixels -> Prop) ranges :
  (forall x y, A (VideoInvalidateCache x y)) ->
  Forall A (map invalidate ranges).
Proof.
  intros HA. induction ranges as [|r ranges IH]; constructor; auto.
  apply HA.
Qed.

Lemma ExportSucceeded_emits s (A : @Action QVariant Pixels -> Prop) :
  A CallCleanup -> A VideoDeleteLater -> A EncoderClose ->
  exists ext, log (ExportSucceeded s) = log s ++ ext /\ Forall A ext.
Proof.
  intros H1 H2 H3. unfold ExportSucceeded.
  destruct (negb (audio_done_ s) || negb (video_done_ s)).
  - exists []. now rewrite app_nil_r.
  - destruct (video_backend_ (emit CallCleanup s)); simpl;
      eexists; (split; [rewrite <- !app_assoc; simpl; reflexivity|]);
      repeat constructor; assumption.
Qed.

Lemma FrameRendered_emits env t v s :
  exists ext,
    log (FrameRendered env t v s) = log s ++ ext
    /\ Forall (fun a => emits (CallFrameRendered t v) a = true) ext.
Proof.
  apply (FrameRendered_closed env
           (fun s' => exists ext,
                log s' = log s ++ ext
                /\ Forall (fun a => emits (CallFrameRendered t v) a = true)
                     ext)).
  - intros v0 s0 (ext & E & H). rewrite log_encode_body, E.
    exists (ext ++ body_actions env (video_params_time_base s0)
                     (waiting_for_frame_ s0) v0).
    split; [now rewrite app_assoc|]. apply Forall_app. split; [exact H|].
    unfold body_actions, pipeline_calls.
    destruct (PixelFormat_eqb (frame_format (TextureToFrame v0))
                PIX_FMT_RGBA32F); repeat constructor.
  - intros s0 H; exact H.
  - intros t0 v0 s0 H; exact H.
  - intros s0 H; exact H.
  - intros s0 (ext & E & H).
    destruct (ExportSucceeded_emits s0
                (fun a => emits (CallFrameRendered t v) a = true))
      as (ext' & E' & H'); try reflexivity.
    exists (ext ++ ext'). rewrite E', E.
    split; [now rewrite app_assoc | now apply Forall_app].
  - exists []. split; [now rewrite app_nil_r | constructor].
Qed.

Lemma handle_emits env c s :
  exists ext,
    log (handle env c s) = log s ++ ext
    /\ Forall (fun a => emits c a = true) ext.
Proof.
  destruct c; simpl handle.
  - unfold StartExporting, Initialize.
    destruct (initialize_ok env); simpl.
    + destruct (video_done_ s) eqn:Ev; simpl;
        destruct (audio_done_ s) eqn:Ea; simpl;
        eexists; (split; [rewrite <- ?app_assoc; simpl; reflexivity|]);
        repeat constructor.
    + eexists. split; [reflexivity | repeat constructor].
  - unfold EncoderOpenedSuccessfully.
    destruct (video_done_ s) eqn:Ev; simpl; rewrite ?Ev; simpl;
      destruct (audio_done_ s) eqn:Ea; simpl;
      try (exists []; split; [now rewrite app_nil_r | constructor]);
      eexists; (split; [rewrite <- ?app_assoc; simpl; reflexivity|]);
      repeat constructor.
  - eexists. split; [reflexivity | repeat constructor].
  - unfold AudioEncodeComplete.
    destruct (ExportSucceeded_emits (set_audio_done true s)
                (fun a => emits CallAudioEncodeComplete a = true))
      as (ext & E & H); try reflexivity.
    exists ext. split; [exact E | exact H].
  - rewrite log_VideoHashesComplete. eexists. split; [reflexivity|].
    repeat constructor. now apply Forall_invalidate.
  - apply FrameRendered_emits.
  - unfold AudioRendered. simpl. eexists.
    split; [rewrite <- !app_assoc; simpl; reflexivity | repeat constructor].
  - unfold EncoderClosed, emit_ExportEnded. simpl. eexists.
    split; [rewrite <- !app_assoc; simpl; reflexivity | repeat constructor].
Qed.

Lemma run_emits env calls s :
  exists ext,
    log (run env calls s) = log s ++ ext
    /\ Forall (fun a => exists c, In c calls /\ emits c a = true) ext.
Proof.
  revert s; induction calls as [|c calls IH]; intros s.
  - exists []. split; [now rewrite app_nil_r | constructor].
  - rewrite run_cons.
    assert (Hc : exists ext,
               log (deliver env s c) = log s ++ ext
               /\ Forall (fun a => emits c a = true) ext).
    { unfold deliver. destruct (deleted_ s); [|apply handle_emits].
      exists []. split; [now rewrite app_nil_r | constructor]. }
    destruct Hc as (e1 & E1 & H1).
    destruct (IH (deliver env s c)) as (e2 & E2 & H2).
    exists (e1 ++ e2). split; [now rewrite E2, E1, app_assoc|].
    apply Forall_app. split.
    + revert H1. apply Forall_impl. intros a Ha. exists c. split; [now left|auto].
    + revert H2. apply Forall_impl. intros a (c' & Hc' & Ha).
      exists c'. split; [now right | exact Ha].
Qed.

Lemma trace_emits env calls s :
  Forall (fun a => exists c, In c calls /\ emits c a = true)
    (trace env calls s).
Proof.
  unfold trace. destruct (run_emits env calls (set_log [] s)) as (ext & E & H).
  rewrite E. exact H.
Qed.

Lemma count_none (p : @Action QVariant Pixels -> bool) l :
  Forall (fun a => p a = false) l -> count p l = 0%nat.
Proof.
  unfold count. induction 1 as [|a l Ha _ IH]; simpl; [reflexivity|].
  now rewrite Ha.
Qed.

(** X1: every action of a job is one that some delivered call sends.
    So without a [FrameRendered] call nothing is written to the encoder
    and the conversion pipeline never runs; without [AudioRendered] no
    audio is written; and [ExportEnded] needs [StartExporting],
    [EncoderOpenFailed] or [EncoderClosed]. *)
Theorem actions_come_from_calls env calls s :
  (forall a, In a (trace env calls s) ->
             exists c, In c calls /\ emits c a = true)
  /\ (forallb (fun c => negb (is_FrameRendered c)) calls = true ->
      count is_write (trace env calls s) = 0%nat
      /\ count is_conversion (trace env calls s) = 0%nat)
  /\ (~ In CallAudioRendered calls ->
      count is_WriteAudio (trace env calls s) = 0%nat)
  /\ (~ In CallStartExporting calls ->
      ~ In CallEncoderOpenFailed calls ->
      ~ In CallEncoderClosed calls ->
      count is_ExportEnded (trace env calls s) = 0%nat).
Proof.
  pose proof (trace_emits env calls s) as H.
  split; [|split; [|split]].
  - intros a Ha. rewrite Forall_forall in H. now apply H.
  - intros Hc. rewrite forallb_forall in Hc.
    split; apply count_none; revert H; apply Forall_impl;
      intros a (c & Hin & He); specialize (Hc c Hin);
      destruct c; try discriminate Hc; destruct a; try discriminate He;
      try reflexivity; destruct m; discriminate He.
  - intros Hc. apply count_none. revert H. apply Forall_impl.
    intros a (c & Hin & He).
    destruct a; try reflexivity.
    destruct c; try discriminate He. contradiction.
  - intros H1 H2 H3. apply count_none. revert H. apply Forall_impl.
    intros a (c & Hin & He).
    destruct a; try reflexivity.
    destruct c; try discriminate He; contradiction.
Qed.

(** *** Hashing comes before rendering *)

Lemma video_requests_no_render cur (l : list (@Action QVariant Pixels)) :
  cur <> Some kRenderOnly ->
  Forall (fun a => is_render_mode a = false) l ->
  video_requests kRenderOnly cur l = [].
Proof.
  intros Hcur H. revert cur Hcur.
  induction H as [|a l Ha _ IH]; intros cur Hcur; [reflexivity|].
  destruct a; simpl; try (now apply IH).
  - destruct m; [|discriminate Ha]. apply IH. discriminate.
  - destruct cur as [[|]|]; try (now apply IH). congruence.
Qed.

(** X2: as long as [VideoHashesComplete] has not been delivered the
    video backend is never put in render mode and no range is requested
    for rendering.  What the successful open requests, when video is
    enabled, is the hash of the whole timeline [0, Length). *)
Theorem no_render_before_hashes env calls s :
  ~ In CallVideoHashesComplete calls ->
  count is_render_mode (trace env calls s) = 0%nat
  /\ render_requests (trace env calls s) = []
  /\ (video_done_ s = false -> deleted_ s = false ->
      hash_requests (trace env [CallEncoderOpenedSuccessfully] s)
      = [(0, Length env)]).
Proof.
  intros Hc.
  assert (H : Forall (fun a => is_render_mode a = false)
                (trace env calls s)).
  { pose proof (trace_emits env calls s) as H. revert H.
    apply Forall_impl. intros a (c & Hin & He).
    destruct a; try reflexivity. destruct m; [reflexivity|].
    destruct c; try discriminate He. contradiction. }
  split; [now apply count_none|]. split.
  - apply video_requests_no_render; [discriminate | exact H].
  - intros Hv Hd. unfold trace, run. simpl. unfold deliver. simpl.
    rewrite Hd. simpl. unfold EncoderOpenedSuccessfully. simpl.
    rewrite Hv. simpl. destruct (audio_done_ s); reflexivity.
Qed.

(** *** The failure of [Initialize] *)

(** X3: when [Initialize] fails, [StartExporting] emits [ExportEnded]
    and nothing else, in whatever state it is called: the encoder is not
    opened and no backend is configured, the status is false, the
    message says that the exporter could not be initialised, and the
    deletion of the object is requested.  Nothing in the code keeps a
    repeated call from doing the same again. *)
Theorem initialize_failure_ends_job env s :
  initialize_ok env = false ->
  log (StartExporting env s) = log s ++ [ExportEnded]
  /\ GetExportStatus (StartExporting env s) = false
  /\ GetExportError (StartExporting env s)
     = "Failed to initialize exporter"%string
  /\ deleted_ (StartExporting env s) = true
  /\ forall n,
      log (run_slots env (repeat CallStartExporting n) s)
      = log s ++ repeat ExportEnded n.
Proof.
  intros Hinit.
  assert (L : forall s0, log (StartExporting env s0) = log s0 ++ [ExportEnded]).
  { intros s0. unfold StartExporting, Initialize. now rewrite Hinit. }
  split; [apply L|].
  unfold GetExportStatus, GetExportError, StartExporting, Initialize.
  rewrite Hinit. simpl. repeat split.
  intros n. revert s. induction n as [|n IH]; intros s.
  - simpl. now rewrite app_nil_r.
  - simpl repeat. unfold run_slots in *. simpl fold_left.
    rewrite IH. simpl handle. rewrite L, <- app_assoc. reflexivity.
Qed.

(** *** The terminal event *)

Lemma ended_none (c : @Call QVariant)
    (ext : list (@Action QVariant Pixels)) :
  (forall a : @Action QVariant Pixels,
      emits c a = true -> is_ExportEnded a = false) ->
  Forall (fun a => emits c a = true) ext ->
  count is_ExportEnded ext = 0%nat.
Proof.
  intros Hc H. apply count_none. revert H. apply Forall_impl. exact Hc.
Qed.

Lemma handle_ends env c s :
  count is_ExportEnded (log (handle env c s))
  = (count is_ExportEnded (log s) + (if ends_job env c then 1 else 0))%nat
  /\ deleted_ (handle env c s) = deleted_ s || ends_job env c.
Proof.
  assert (Quiet :
    ends_job env c = false ->
    (forall a : @Action QVariant Pixels,
        emits c a = true -> is_ExportEnded a = false) ->
    deleted_ (handle env c s) = deleted_ s ->
    count is_ExportEnded (log (handle env c s))
    = (count is_ExportEnded (log s) + (if ends_job env c then 1 else 0))%nat
    /\ deleted_ (handle env c s) = deleted_ s || ends_job env c).
  { intros -> Hc Hd. rewrite orb_false_r. split; [|exact Hd].
    destruct (handle_emits env c s) as (ext & E & H).
    rewrite E, count_app, (ended_none c ext Hc H). lia. }
  destruct c.
  - simpl handle. simpl ends_job. unfold StartExporting, Initialize.
    destruct (initialize_ok env) eqn:Hinit; simpl.
    + pose proof (log_StartExporting env s Hinit) as L.
      pose proof (deleted_StartExporting env s Hinit) as D.
      unfold StartExporting, Initialize in L, D. rewrite Hinit in L, D.
      simpl in L, D. rewrite D, orb_false_r. split; [|reflexivity].
      rewrite L, !count_app.
      destruct (video_done_ s), (audio_done_ s); unfold count; simpl; lia.
    + rewrite count_snoc, orb_true_r. simpl. split; [lia | reflexivity].
  - apply Quiet; [reflexivity | |].
    + intros a Ha. destruct a; try discriminate Ha; reflexivity.
    + simpl. unfold EncoderOpenedSuccessfully.
      destruct (video_done_ s) eqn:Ev; simpl; rewrite ?Ev; simpl;
        destruct (audio_done_ s); reflexivity.
  - simpl. rewrite count_snoc, orb_true_r. simpl. split; [lia | reflexivity].
  - apply Quiet; [reflexivity | |].
    + intros a Ha. destruct a; try discriminate Ha; reflexivity.
    + simpl. unfold AudioEncodeComplete.
      now destruct (fields_ExportSucceeded (set_audio_done true s))
        as (_ & _ & _ & _ & ->).
  - apply Quiet; [reflexivity | |].
    + intros a Ha. destruct a; try discriminate Ha; reflexivity.
    + simpl. apply fields_VideoHashesComplete.
  - apply Quiet; [reflexivity | |].
    + intros a Ha. destruct a; try discriminate Ha; reflexivity.
    + simpl. apply FrameRendered_keeps.
  - apply Quiet; [reflexivity | |].
    + intros a Ha. destruct a; try discriminate Ha; reflexivity.
    + reflexivity.
  - simpl. rewrite !count_snoc, orb_true_r. simpl. split; [lia | reflexivity].
Qed.

(** X4: [ExportEnded] is emitted once by every [StartExporting] whose
    [Initialize] fails, by every [EncoderOpenFailed] and by every
    [EncoderClosed], and by nothing else, whatever calls run and in
    whatever order; the deletion of the object has been requested
    exactly when one of them has run.  A job in which exactly one of
    these calls occurs emits [ExportEnded] exactly once; the code has
    nothing that keeps a second one from emitting it again. *)
Theorem export_ended_once_per_ending_call env calls s :
  let s' := run_slots env calls s in
  count is_ExportEnded (log s')
  = (count is_ExportEnded (log s)
     + List.length (filter (ends_job env) calls))%nat
  /\ deleted_ s' = deleted_ s || existsb (ends_job env) calls.
Proof.
  cbv zeta. revert s. induction calls as [|c calls IH]; intros s.
  - simpl. split; [lia | now rewrite orb_false_r].
  - unfold run_slots in *. simpl fold_left.
    destruct (IH (handle env c s)) as [IH1 IH2].
    destruct (handle_ends env c s) as [H1 H2].
    rewrite IH1, IH2, H1, H2. simpl.
    split; [|now rewrite orb_assoc].
    destruct (ends_job env c); simpl; lia.
Qed.

(** *** The export status *)

Lemma status_guard_grow s s' :
  export_status_ s' = export_status_ s ->
  video_done_ s' = video_done_ s ->
  audio_done_ s' = audio_done_ s ->
  (exists ext, log s' = log s ++ ext) ->
  status_guard s -> status_guard s'.
Proof.
  unfold status_guard. intros -> -> -> (ext & ->) H Hs.
  destruct (H Hs) as (H1 & H2 & H3). repeat split; auto.
  rewrite count_app. lia.
Qed.

Lemma status_guard_succeeded s :
  status_guard s -> status_guard (ExportSucceeded s).
Proof.
  unfold status_guard, ExportSucceeded.
  destruct (audio_done_ s) eqn:Ea, (video_done_ s) eqn:Ev; simpl;
    rewrite ?Ea, ?Ev; auto.
  intros _ _. destruct (video_backend_ s); simpl; rewrite Ea, Ev;
    repeat split; rewrite !count_snoc; simpl; lia.
Qed.

Lemma status_guard_handle env c s :
  status_guard s -> status_guard (handle env c s).
Proof.
  intros H.
  assert (Quiet :
    export_status_ (handle env c s) = export_status_ s ->
    video_done_ (handle env c s) = video_done_ s ->
    audio_done_ (handle env c s) = audio_done_ s ->
    status_guard (handle env c s)).
  { intros H1 H2 H3. apply (status_guard_grow s); auto.
    destruct (handle_emits env c s) as (ext & E & _). now exists ext. }
  destruct c.
  - simpl. intros Hs. exfalso. revert Hs. unfold StartExporting, Initialize.
    destruct (initialize_ok env); simpl; [|discriminate].
    destruct (video_done_ s) eqn:Ev; simpl;
      destruct (audio_done_ s) eqn:Ea; discriminate.
  - apply Quiet; simpl; unfold EncoderOpenedSuccessfully;
      destruct (video_done_ s) eqn:Ev; simpl; rewrite ?Ev; simpl;
      destruct (audio_done_ s) eqn:Ea; simpl; rewrite ?Ev, ?Ea; reflexivity.
  - apply Quiet; reflexivity.
  - simpl. unfold AudioEncodeComplete. apply status_guard_succeeded.
    unfold status_guard in *. simpl. intros Hs.
    destruct (H Hs) as (H1 & _ & H3). auto.
  - apply Quiet; simpl; apply fields_VideoHashesComplete.
  - simpl. apply FrameRendered_closed; auto.
    + intros v s0 H0. unfold status_guard in *.
      destruct (flags_encode_body env v s0) as (_ & Fa & Fv & _ & Fs & _).
      rewrite Fa, Fv, Fs, log_encode_body, count_app. intros Hs.
      destruct (H0 Hs) as (H1 & H2 & H3). repeat split; auto. lia.
    + intros s0 H0. unfold status_guard in *. simpl. intros Hs.
      destruct (H0 Hs) as (_ & H2 & H3). auto.
    + exact status_guard_succeeded.
  - apply Quiet; reflexivity.
  - apply Quiet; reflexivity.
Qed.

(** X5: the export status is an honest success flag.  In every state
    reached by delivering calls, if [GetExportStatus] is true then both
    streams are done and [Close] has been requested from the encoder. *)
Theorem status_true_means_closing env calls s :
  status_guard s ->
  let s' := run env calls s in
  GetExportStatus s' = true ->
  video_done_ s' = true /\ audio_done_ s' = true
  /\ (1 <= count is_EncoderClose (log s'))%nat.
Proof.
  intros H. cbv zeta. change (status_guard (run env calls s)).
  revert s H; induction calls as [|c calls IH]; intros s H; [exact H|].
  rewrite run_cons. apply IH. unfold deliver.
  destruct (deleted_ s); [exact H | now apply status_guard_handle].
Qed.

(** *** The error message *)

Lemma msg_fold_invalidate ranges s :
  export_msg_
    (fold_left
       (fun s range =>
          emit (VideoInvalidateCache (TimeRange.range_in range)
                  (TimeRange.range_out range)) s) ranges s)
  = export_msg_ s.
Proof.
  revert s; induction ranges as [|r ranges IH]; intros s; simpl;
    [reflexivity | now rewrite IH].
Qed.

Lemma msg_handle env c s :
  initialize_ok env = true -> c <> CallEncoderOpenFailed ->
  export_msg_ (handle env c s) = export_msg_ s.
Proof.
  intros Hinit Hc. destruct c; simpl; try congruence.
  - unfold StartExporting, Initialize. rewrite Hinit. simpl.
    destruct (video_done_ s) eqn:Ev; simpl;
      destruct (audio_done_ s); reflexivity.
  - unfold EncoderOpenedSuccessfully.
    destruct (video_done_ s) eqn:Ev; simpl; rewrite ?Ev; simpl;
      destruct (audio_done_ s); reflexivity.
  - unfold AudioEncodeComplete, ExportSucceeded. simpl.
    destruct (video_done_ s); simpl; [|reflexivity].
    destruct (video_backend_ s); reflexivity.
  - unfold VideoHashesComplete.
    destruct (dedup_loop _ _ _ _ _) as [ranges matched].
    now rewrite msg_fold_invalidate.
  - apply FrameRendered_keeps.
Qed.

(** X6: the message returned by [GetExportError] changes on the two
    failure paths only.  When [Initialize] succeeds and the encoder does
    not report an open failure, it is after any calls what it was
    before; a successful export therefore still reports the message set
    by the constructor. *)
Theorem error_message_only_on_failure env calls s :
  initialize_ok env = true ->
  ~ In CallEncoderOpenFailed calls ->
  GetExportError (run env calls s) = GetExportError s.
Proof.
  intros Hinit. unfold GetExportError.
  revert s; induction calls as [|c calls IH]; intros s Hc; [reflexivity|].
  rewrite run_cons, IH by (intros Hin; apply Hc; now right).
  unfold deliver. destruct (deleted_ s); [reflexivity|].
  apply msg_handle; [exact Hinit|]. intros ->. apply Hc. now left.
Qed.

(** *** Frames are written without gaps *)

Lemma nth_error_snoc {A} (l : list A) (x y : A) i :
  nth_error (l ++ [x]) i = Some y ->
  nth_error l i = Some y \/ (i = List.length l /\ y = x).
Proof.
  revert i; induction l as [|z l IH]; intros i H.
  - destruct i as [|i]; simpl in H; [|now destruct i].
    right. split; [reflexivity | congruence].
  - destruct i as [|i]; simpl in *; [now left|].
    destruct (IH i H) as [H'|[-> ->]]; [now left | right; auto].
Qed.

Lemma gapless_stable env s0 :
  stable env (fun a => negb (is_write a))
    (fun s =>
       exists new,
         write_times (log s) = write_times (log s0) ++ new
         /\ video_params_time_base s = video_params_time_base s0
         /\ waiting_for_frame_ s
            == waiting_for_frame_ s0
               + inject_Z (Z.of_nat (List.length new))
                 * video_params_time_base s0
         /\ forall i ts,
             nth_error new i = Some ts ->
             ts == waiting_for_frame_ s0
                   + inject_Z (Z.of_nat i) * video_params_time_base s0).
Proof.
  constructor; try (intros; simpl; assumption).
  - intros a s Hok (new & E & H). exists new. split; [|exact H].
    apply negb_true_iff in Hok. now rewrite (write_times_emit_quiet _ _ Hok).
  - intros v s (new & E & Ht & Hw & Hn).
    exists (new ++ [waiting_for_frame_ s]).
    rewrite log_encode_body, write_times_app, write_times_body, E,
      time_base_encode_body, waiting_encode_body, Ht.
    split; [now rewrite app_assoc|]. split; [reflexivity|]. split.
    + rewrite length_app, Nat2Z.inj_add, inject_Z_plus. simpl.
      rewrite Hw. change (inject_Z 1) with 1. ring.
    + intros i ts Hi. apply nth_error_snoc in Hi.
      destruct Hi as [Hi|[-> ->]]; [now apply Hn | exact Hw].
Qed.

(** X7: the frames written by a job carry consecutive timestamps: the
    [i]-th frame written after a state has the timestamp expected in
    that state plus [i] steps, and the expected timestamp ends that
    many steps further as frames were written: no timestamp of the grid
    is skipped. *)
Theorem frames_written_without_gaps env calls s :
  Forall (fun c => c <> CallStartExporting) calls ->
  exists new,
    write_times (log (run env calls s)) = write_times (log s) ++ new
    /\ waiting_for_frame_ (run env calls s)
       == waiting_for_frame_ s
          + inject_Z (Z.of_nat (List.length new)) * video_params_time_base s
    /\ forall i ts,
        nth_error new i = Some ts ->
        ts == waiting_for_frame_ s
              + inject_Z (Z.of_nat i) * video_params_time_base s.
Proof.
  intros Hcalls.
  destruct (run_stable env _ _ (gapless_stable env s) not_write_quiet
              (not_write_succeeded env _ (gapless_stable env s))
              calls s Hcalls (fun _ => eq_refl) (fun _ => eq_refl))
    as (new & E & _ & Hw & Hn).
  - exists []. rewrite app_nil_r. repeat split.
    + simpl. ring.
    + intros i ts Hi. now destruct i.
  - exists new. auto.
Qed.

(** *** A table without duplicates *)

Lemma scan_absent tb ih (seg : QMap.t QByteArray) acc :
  (forall e, In e seg -> snd e <> ih) -> scan tb ih seg acc = (seg, acc).
Proof.
  induction seg as [|[jk jv] seg IH]; intros H; simpl; [reflexivity|].
  destruct (QByteArray_eqb ih jv) eqn:E.
  - apply QByteArray_eqb_eq in E. subst jv.
    exfalso. apply (H (jk, ih)); [now left | reflexivity].
  - rewrite IH; [reflexivity|]. intros e He. apply H. now right.
Qed.

Lemma dedup_loop_distinct tb fuel (before after : QMap.t QByteArray) acc :
  NoDup (map snd after) ->
  (forall e e', In e before -> In e' after -> snd e <> snd e') ->
  dedup_loop tb fuel before after acc = acc.
Proof.
  revert before after.
  induction fuel as [|fuel IH]; intros before after Hnd Hdis; [reflexivity|].
  destruct after as [|[ik ih] rest]; [reflexivity|]. simpl.
  simpl in Hnd. apply NoDup_cons_iff in Hnd. destruct Hnd as [Hnot Hnd].
  rewrite scan_absent.
  2:{ intros e He. apply (Hdis e (ik, ih)); [exact He | now left]. }
  rewrite scan_absent.
  2:{ intros e He E. apply Hnot. rewrite <- E. now apply in_map. }
  apply IH; [exact Hnd|].
  intros e e' He He'. apply in_app_iff in He. destruct He as [He|[<-|[]]].
  - apply Hdis; [exact He | now right].
  - simpl. intros E. apply Hnot. rewrite E. now apply in_map.
Qed.

(** X8: when no two timestamps of the table share a hash (an empty
    table included), [VideoHashesComplete] records no duplicate and asks
    the backend to render the whole timeline as the single range
    [0, Length). *)
Theorem distinct_hashes_render_everything env s :
  NoDup (map snd (time_hash_map env)) ->
  log (VideoHashesComplete env s)
  = log s
    ++ [VideoSetOperatingMode kRenderOnly;
        VideoSetOnlySignalLastFrameRequested false;
        VideoInvalidateCache 0 (Length env)]
  /\ matched_frames_ (VideoHashesComplete env s) = matched_frames_ s.
Proof.
  intros Hnd.
  assert (E : collapsed env s = ([(0, Length env)], matched_frames_ s)).
  { unfold collapsed. apply dedup_loop_distinct; [exact Hnd|].
    intros e e' []. }
  rewrite log_VideoHashesComplete, matched_VideoHashesComplete, E.
  split; reflexivity.
Qed.

(** *** A frame whose hash has no duplicates on record *)

(** X9: the duplicates [FrameRendered] replays a rendered value for are
    those recorded in [matched_frames_], before the frame is encoded,
    under the hash of its timestamp, which is the empty hash when the
    timestamp has no entry in the table ([EncodeFrame] never changes
    [matched_frames_]).  So a frame whose hash, found this way, has no
    entry in [matched_frames_] is passed to [EncodeFrame] once, for its
    own timestamp only. *)
Theorem frame_without_duplicates env t v s :
  let map_hash := QMap.value t (time_hash_map env) [] in
  FrameRendered env t v s
  = fold_left (fun s t' => EncodeFrame env t' v s)
      (HashMap.value map_hash (matched_frames_ s) [])
      (EncodeFrame env t v s)
  /\ (HashMap.find map_hash (matched_frames_ s) = None ->
      FrameRendered env t v s = EncodeFrame env t v s).
Proof.
  cbv zeta.
  assert (E : matched_frames_ (EncodeFrame env t v s) = matched_frames_ s).
  { apply (EncodeFrame_closed env
             (fun s' => matched_frames_ s' = matched_frames_ s));
      try (intros; simpl; assumption); [| |reflexivity].
    - intros v0 s0 H0.
      now destruct (flags_encode_body env v0 s0) as (-> & _).
    - intros s0 H0.
      now destruct (fields_ExportSucceeded s0) as (_ & -> & _). }
  assert (F : FrameRendered env t v s
              = fold_left (fun s t' => EncodeFrame env t' v s)
                  (HashMap.value (QMap.value t (time_hash_map env) [])
                     (matched_frames_ s) [])
                  (EncodeFrame env t v s)).
  { unfold FrameRendered. now rewrite E. }
  split; [exact F|].
  intros H. rewrite F. unfold HashMap.value. now rewrite H.
Qed.

(** *** Jobs with an audio stream *)

(** X10: a job with audio only.  The audio backend is configured and
    asked to render the whole timeline, its output is handed to the
    encoder, the completion of the audio closes the encoder, and
    [EncoderClosed] ends the job with status true.  The video backend is
    never configured or asked to hash or render; whether it is deleted
    depends on [Initialize] having created one, which is left open
    here. *)
Theorem audio_only_job_succeeds env :
  initialize_ok env = true ->
  let calls : list (@Call QVariant) :=
    [CallStartExporting; CallEncoderOpenedSuccessfully; CallAudioRendered;
     CallAudioEncodeComplete; CallEncoderClosed] in
  let s0 : @Exporter QVariant Pixels := EnableAudio constructor in
  filter (fun a => negb (is_VideoDeleteLater a)) (trace env calls s0)
  = [AudioSetViewerNode; AudioSetParameters; EncoderOpen;
     AudioInvalidateCache 0 (Length env);
     AudioCachePathName; EncoderWriteAudio; AudioDeleteLater;
     CallCleanup; EncoderClose;
     ProgressChanged 100; ExportEnded]
  /\ trace env calls s0 = log (run_slots env calls s0)
  /\ GetExportStatus (run env calls s0) = true.
Proof.
  intros Hinit. cbv zeta. split; [|split].
  - unfold trace, run, deliver, handle, StartExporting, Initialize.
    simpl. rewrite Hinit. reflexivity.
  - unfold trace, run, run_slots, deliver, handle, StartExporting,
      Initialize.
    simpl. rewrite Hinit. reflexivity.
  - unfold run, deliver, handle, StartExporting, Initialize.
    simpl. rewrite Hinit. reflexivity.
Qed.

Lemma settled_start tb n (value_of : nat -> QVariant) s :
  video_params_time_base s = tb ->
  waiting_for_frame_ s = 0 ->
  cached_frames_ s = [] ->
  written_frames (log s) = [] ->
  count is_texture_to_frame (log s) = 0%nat ->
  video_backend_ s = true -> deleted_ s = false ->
  video_done_ s = false -> export_status_ s = false ->
  settled tb n value_of (matched_frames_ s) (audio_done_ s) (others (log s))
    0 [] s.
Proof.
  intros Htb Hw Hc Hwr Hconv Hb Hd Hv Hst. constructor.
  - constructor; auto.
    + rewrite Hw. unfold time_of.
      change (inject_Z (Z.of_nat 0)) with 0%Q. lra.
    + rewrite Hwr. constructor.
  - rewrite Hc. constructor; simpl; try tauto; try discriminate; intros; lia.
  - now rewrite Hc.
  - intros _. constructor; auto.
  - intros; lia.
Qed.

(** Once the frames asked for have been delivered, in any order, to a
    state in which no frame has been written yet, all the frames of the
    timeline are written. *)
Lemma frames_complete tb len hashes (frames : nat -> QVariant) order s :
  0 < tb ->
  (forall k, time_of tb k < len <-> (k < List.length hashes)%nat) ->
  Permutation order (requested tb len hashes true) ->
  (forall h,
      HashMap.value h (matched_frames_ s) []
      = map (time_of tb) (tl (indices_with_hash h hashes))) ->
  video_params_time_base s = tb ->
  waiting_for_frame_ s = 0 ->
  cached_frames_ s = [] ->
  written_frames (log s) = [] ->
  count is_texture_to_frame (log s) = 0%nat ->
  video_backend_ s = true -> deleted_ s = false ->
  video_done_ s = false -> export_status_ s = false ->
  exists seen,
    settled tb (List.length hashes) (fun k => frames (primary_of hashes k))
      (matched_frames_ s) (audio_done_ s) (others (log s))
      (List.length hashes) seen
      (run (job_env tb len hashes) (frame_calls tb frames order) s).
Proof.
  intros Htb Hgrid Hperm Hmatched H1 H2 H3 H4 H5 H6 H7 H8 H9.
  pose proof (settled_start tb (List.length hashes)
                (fun k => frames (primary_of hashes k)) s
                H1 H2 H3 H4 H5 H6 H7 H8 H9) as Hs.
  destruct (frames_settled tb (List.length hashes)
              (fun k => frames (primary_of hashes k)) (matched_frames_ s)
              (audio_done_ s) (others (log s)) (job_env tb len hashes)
              Htb Hgrid hashes frames
              eq_refl eq_refl Hmatched (fun k => eq_refl)
              order 0%nat [] s Hs)
    as (w' & seen' & Hs' & Hseen').
  - apply (Permutation_NoDup (Permutation_sym Hperm)), requested_NoDup.
  - intros p Hp. apply (Permutation_in _ Hperm) in Hp.
    apply (requested_iff tb len hashes true p Htb Hgrid) in Hp. tauto.
  - intros p k _ _ [].
  - exists seen'.
    assert (Hall : forall k, (k < List.length hashes)%nat -> In k seen').
    { intros k Hk. apply Hseen'. right.
      destruct (primary_of_hash tb hashes k Htb Hk) as [Hpk Hph].
      exists (primary_of hashes k). split.
      - apply (Permutation_in _ (Permutation_sym Hperm)).
        apply (requested_iff tb len hashes true _ Htb Hgrid).
        split; [exact Hpk | now apply (primary_of_idem tb)].
      - apply indices_with_hash_In. split; [exact Hk | now symmetry]. }
    pose proof (settled_complete _ _ _ _ _ _ _ _ _ Hs' Hall) as Hw.
    now rewrite Hw in Hs'.
Qed.

(** The state of a job with both streams at the end of the hash
    phase. *)
Lemma both_ready tb len hashes :
  let s3 : @Exporter QVariant Pixels :=
    run (job_env tb len hashes) setup_calls (job_start tb true) in
  (forall h,
      HashMap.value h (matched_frames_ s3) []
      = map (time_of tb) (tl (indices_with_hash h hashes)))
  /\ video_params_time_base s3 = tb
  /\ waiting_for_frame_ s3 = 0
  /\ cached_frames_ s3 = []
  /\ audio_done_ s3 = false
  /\ video_done_ s3 = false
  /\ video_backend_ s3 = true
  /\ export_status_ s3 = false
  /\ deleted_ s3 = false
  /\ written_frames (log s3) = []
  /\ forall p : @Action QVariant Pixels -> bool,
      (forall x y, p (VideoInvalidateCache x y) = false) ->
      (forall x y, p (AudioInvalidateCache x y) = false) ->
      (forall x, p (VideoSetParameters x) = false) ->
      count p (log s3)
      = count p [VideoSetViewerNode; AudioSetViewerNode; AudioSetParameters;
                 EncoderOpen; VideoSetOperatingMode kHashOnly;
                 VideoSetOperatingMode kRenderOnly;
                 VideoSetOnlySignalLastFrameRequested false].
Proof.
  cbv zeta. rewrite run_setup.
  destruct (fields_VideoHashesComplete (job_env tb len hashes)
              (@after_open QVariant Pixels tb len true))
    as (F1 & F2 & F3 & F4 & F5 & F6 & F7 & F8).
  simpl in F1, F2, F3, F4, F5, F6, F7, F8.
  repeat (split; [assumption|]).
  split.
  { intros h. rewrite matched_VideoHashesComplete.
    destruct (collapsed_spec (job_env tb len hashes)
                (@after_open QVariant Pixels tb len true)) as [Hm _].
    rewrite Hm. simpl. now rewrite times_with_hash_index, tl_map. }
  repeat (split; [assumption|]).
  split.
  { rewrite log_VideoHashesComplete, !written_frames_app,
      written_frames_invalidate. reflexivity. }
  intros p Hv Ha Hp.
  rewrite log_VideoHashesComplete, app_assoc, count_app, count_invalidate
    by exact Hv.
  unfold count. simpl. rewrite !Hv, !Ha, !Hp.
  destruct (p VideoSetViewerNode), (p AudioSetViewerNode),
    (p AudioSetParameters), (p EncoderOpen),
    (p (VideoSetOperatingMode kHashOnly)),
    (p (VideoSetOperatingMode kRenderOnly)),
    (p (VideoSetOnlySignalLastFrameRequested false)); reflexivity.
Qed.

Lemma count_AudioRendered (p : @Action QVariant Pixels -> bool) s :
  count p (log (AudioRendered s))
  = (count p (log s)
     + count p [AudioCachePathName; EncoderWriteAudio; AudioDeleteLater])%nat.
Proof.
  unfold AudioRendered, emit. simpl log.
  rewrite <- !app_assoc. simpl app. now rewrite count_app.
Qed.

Lemma count_closing (p : @Action QVariant Pixels -> bool) s :
  p VideoDeleteLater = false ->
  audio_done_ s = true -> video_done_ s = true ->
  count p (log (ExportSucceeded s))
  = (count p (log s) + count p [CallCleanup; EncoderClose])%nat.
Proof.
  intros Hp Ha Hv. unfold ExportSucceeded. rewrite Ha, Hv. simpl.
  destruct (video_backend_ s); simpl; rewrite !count_snoc, ?Hp;
    unfold count; simpl;
    destruct (p CallCleanup), (p EncoderClose); simpl; lia.
Qed.

Lemma written_all tb n (value_of : nat -> QVariant) matched audio_done base
    seen s :
  settled tb n value_of matched audio_done base n seen s ->
  count is_write (log s) = n.
Proof.
  intros [[_ _ _ Hw _] _ _ _ _].
  rewrite count_written, (Forall2_length Hw). apply length_seq.
Qed.


Lemma closed_ends_job env s :
  deleted_ s = false ->
  export_status_ s = true ->
  count is_ExportEnded (log s) = 0%nat ->
  GetExportStatus (run env [CallEncoderClosed] s) = true
  /\ count is_ExportEnded (log (run env [CallEncoderClosed] s)) = 1%nat
  /\ deleted_ (run env [CallEncoderClosed] s) = true.
Proof.
  intros Hd Hst Hc. unfold run. simpl. unfold deliver. rewrite Hd.
  simpl. unfold GetExportStatus. simpl. rewrite Hst.
  rewrite !count_snoc, Hc. repeat split.
Qed.

Lemma other_close (a : @Action QVariant Pixels) :
  is_EncoderClose a = true -> is_other a = true.
Proof. destruct a; try discriminate; reflexivity. Qed.

Lemma other_audio (a : @Action QVariant Pixels) :
  is_WriteAudio a = true -> is_other a = true.
Proof. destruct a; try discriminate; reflexivity. Qed.

Lemma other_ended (a : @Action QVariant Pixels) :
  is_ExportEnded a = true -> is_other a = true.
Proof. destruct a; try discriminate; reflexivity. Qed.

Lemma audio_after_frames env s :
  deleted_ s = false -> video_done_ s = true ->
  let s' := run env [CallAudioRendered; CallAudioEncodeComplete] s in
  export_status_ s' = true
  /\ deleted_ s' = false
  /\ forall p : @Action QVariant Pixels -> bool,
      p VideoDeleteLater = false ->
      count p (log s')
      = (count p (log s)
         + count p [AudioCachePathName; EncoderWriteAudio; AudioDeleteLater;
                    CallCleanup; EncoderClose])%nat.
Proof.
  intros Hd Hv. cbv zeta.
  assert (E : run env [CallAudioRendered; CallAudioEncodeComplete] s
              = ExportSucceeded (set_audio_done true (AudioRendered s))).
  { unfold run. simpl. unfold deliver. rewrite Hd. simpl.
    rewrite Hd. reflexivity. }
  rewrite E. split; [|split].
  - unfold ExportSucceeded. simpl. rewrite Hv. simpl.
    now destruct (video_backend_ s).
  - destruct (fields_ExportSucceeded (set_audio_done true (AudioRendered s)))
      as (_ & _ & _ & _ & ->). exact Hd.
  - intros p Hp. rewrite count_closing by (simpl; auto).
    change (log (set_audio_done true (AudioRendered s)))
      with (log (AudioRendered s)).
    rewrite count_AudioRendered.
    change [AudioCachePathName; EncoderWriteAudio; AudioDeleteLater;
            CallCleanup; EncoderClose]
      with ([AudioCachePathName; EncoderWriteAudio; AudioDeleteLater]
            ++ [@CallCleanup QVariant Pixels; EncoderClose]).
    rewrite (count_app p). lia.
Qed.

Lemma audio_before_frames env s :
  deleted_ s = false -> video_done_ s = false ->
  let s' := run env [CallAudioRendered; CallAudioEncodeComplete] s in
  log s' = log s ++ [AudioCachePathName; EncoderWriteAudio; AudioDeleteLater]
  /\ audio_done_ s' = true
  /\ matched_frames_ s' = matched_frames_ s
  /\ video_params_time_base s' = video_params_time_base s
  /\ waiting_for_frame_ s' = waiting_for_frame_ s
  /\ cached_frames_ s' = cached_frames_ s
  /\ video_backend_ s' = video_backend_ s
  /\ deleted_ s' = false
  /\ video_done_ s' = false
  /\ export_status_ s' = export_status_ s.
Proof.
  intros Hd Hv. cbv zeta.
  assert (E : run env [CallAudioRendered; CallAudioEncodeComplete] s
              = set_audio_done true (AudioRendered s)).
  { unfold run. simpl. unfold deliver. rewrite Hd. simpl.
    rewrite Hd. unfold AudioEncodeComplete, ExportSucceeded. simpl.
    rewrite Hv. reflexivity. }
  rewrite E. simpl. rewrite <- !app_assoc. simpl. auto 12.
Qed.

Lemma frames_first tb len hashes (frames : nat -> QVariant) order s :
  0 < tb ->
  (forall k, time_of tb k < len <-> (k < List.length hashes)%nat) ->
  (0 < List.length hashes)%nat ->
  Permutation order (requested tb len hashes true) ->
  (forall h,
      HashMap.value h (matched_frames_ s) []
      = map (time_of tb) (tl (indices_with_hash h hashes))) ->
  video_params_time_base s = tb ->
  waiting_for_frame_ s = 0 ->
  cached_frames_ s = [] ->
  written_frames (log s) = [] ->
  count is_texture_to_frame (log s) = 0%nat ->
  video_backend_ s = true -> deleted_ s = false ->
  video_done_ s = false -> export_status_ s = false ->
  forall s', s' = run (job_env tb len hashes) (frame_calls tb frames order) s ->
  deleted_ s' = false
  /\ video_done_ s' = true
  /\ export_status_ s' = audio_done_ s
  /\ count is_write (log s') = List.length hashes
  /\ forall p : @Action QVariant Pixels -> bool,
      (forall a, p a = true -> is_other a = true) ->
      count p (log s')
      = (count p (log s)
         + (if audio_done_ s
            then count p [CallCleanup; VideoDeleteLater; EncoderClose]
            else 0))%nat.
Proof.
  intros Htb Hgrid Hpos Hperm Hm H1 H2 H3 H4 H5 H6 H7 H8 H9 s' E.
  destruct (frames_complete tb len hashes frames order s Htb Hgrid Hperm
              Hm H1 H2 H3 H4 H5 H6 H7 H8 H9) as (seen & Hs).
  rewrite <- E in Hs.
  pose proof (written_all _ _ _ _ _ _ _ _ Hs) as Hwritten.
  destruct (set_finished _ _ _ _ _ _ _ _ _ Hs (le_n _) Hpos)
    as [Fa Fd Fv Fst Fo].
  repeat (split; [assumption|]).
  intros p Hp.
  rewrite <- (count_others p (log s') Hp), Fo, count_app,
    (count_others p (log s) Hp).
  now destruct (audio_done_ s).
Qed.

(** X11: a job with both streams ends when the stream that finishes
    last has finished, whichever it is.  With the frames delivered
    first and the audio completing afterwards, or the other way round:
    after the first stream no [Close] has been requested and the status
    is false; after the second the encoder has been asked to close
    exactly once, with every frame and the audio written and the status
    true; [EncoderClosed] then ends the job with one [ExportEnded]. *)
Theorem last_stream_closes_the_encoder tb len hashes
    (frames : nat -> QVariant) order :
  0 < tb ->
  (forall k, time_of tb k < len <-> (k < List.length hashes)%nat) ->
  (0 < List.length hashes)%nat ->
  Permutation order (requested tb len hashes true) ->
  let env := job_env tb len hashes in
  let video := frame_calls tb frames order in
  let audio := [CallAudioRendered; CallAudioEncodeComplete] in
  forall first second,
    (first = video /\ second = audio) \/ (first = audio /\ second = video) ->
    let s1 := run env (setup_calls ++ first) (job_start tb true) in
    let s2 := run env (setup_calls ++ first ++ second) (job_start tb true) in
    let s3 :=
      run env (setup_calls ++ first ++ second ++ [CallEncoderClosed])
        (job_start tb true) in
    (GetExportStatus s1 = false
     /\ count is_EncoderClose (log s1) = 0%nat
     /\ deleted_ s1 = false)
    /\ (GetExportStatus s2 = true
        /\ count is_EncoderClose (log s2) = 1%nat
        /\ count is_write (log s2) = List.length hashes
        /\ count is_WriteAudio (log s2) = 1%nat
        /\ count is_ExportEnded (log s2) = 0%nat)
    /\ (GetExportStatus s3 = true
        /\ count is_ExportEnded (log s3) = 1%nat
        /\ deleted_ s3 = true).
Proof.
  intros Htb Hgrid Hpos Hperm env video audio first second Horder.
  subst audio. cbv zeta. rewrite !run_app.
  pose proof (both_ready tb len hashes) as B. cbv zeta in B.
  fold env in B.
  remember (run env setup_calls (job_start tb true)) as s0 eqn:E0.
  clear E0.
  destruct B as (Hm & B1 & B2 & B3 & B4 & B5 & B6 & B7 & B8 & B9 & Hcount).
  assert (Hconv : count is_texture_to_frame (log s0) = 0%nat)
    by (rewrite Hcount; reflexivity).
  destruct Horder as [[-> ->]|[-> ->]].
  - (* the frames first *)
    remember (run env video s0) as s1 eqn:E1.
    destruct (frames_first tb len hashes frames order s0 Htb Hgrid Hpos Hperm
                Hm B1 B2 B3 B9 Hconv B6 B8 B5 B7 s1 E1)
      as (Fd & Fv & Fst & Fw & Fc).
    clear E1. rewrite B4 in Fst, Fc.
    destruct (audio_after_frames env s1 Fd Fv) as (Ast & Ad & Ac).
    remember (run env [CallAudioRendered; CallAudioEncodeComplete] s1)
      as s2 eqn:E2.
    clear E2.
    assert (Hended : count is_ExportEnded (log s2) = 0%nat).
    { rewrite Ac, (Fc _ other_ended), Hcount; reflexivity. }
    split; [|split].
    + split; [exact Fst|]. split; [|exact Fd].
      rewrite (Fc _ other_close), Hcount; reflexivity.
    + split; [exact Ast|]. split; [|split; [|split]].
      * rewrite Ac, (Fc _ other_close), Hcount; reflexivity.
      * rewrite Ac, Fw by reflexivity. unfold count. simpl. lia.
      * rewrite Ac, (Fc _ other_audio), Hcount; reflexivity.
      * exact Hended.
    + now apply closed_ends_job.
  - (* the audio first *)
    destruct (audio_before_frames env s0 B8 B5)
      as (Al & A1 & A2 & A3 & A4 & A5 & A6 & A7 & A8 & A9).
    remember (run env [CallAudioRendered; CallAudioEncodeComplete] s0)
      as s1 eqn:E1.
    clear E1.
    rewrite B1 in A3. rewrite B2 in A4. rewrite B3 in A5. rewrite B6 in A6.
    rewrite B7 in A9. rewrite <- A2 in Hm.
    assert (Hlog1 : forall p : @Action QVariant Pixels -> bool,
               count p (log s1)
               = (count p (log s0)
                  + count p [AudioCachePathName; EncoderWriteAudio;
                             AudioDeleteLater])%nat)
      by (intros p; now rewrite Al, count_app).
    assert (Hw1 : written_frames (log s1) = [])
      by (rewrite Al, written_frames_app, B9; reflexivity).
    assert (Hc1 : count is_texture_to_frame (log s1) = 0%nat)
      by (rewrite Hlog1, Hconv; reflexivity).
    remember (run env video s1) as s2 eqn:E2.
    destruct (frames_first tb len hashes frames order s1 Htb Hgrid Hpos Hperm
                Hm A3 A4 A5 Hw1 Hc1 A6 A7 A8 A9 s2 E2)
      as (Fd & Fv & Fst & Fw & Fc).
    clear E2. rewrite A1 in Fst, Fc.
    assert (Hended : count is_ExportEnded (log s2) = 0%nat).
    { rewrite (Fc _ other_ended), Hlog1, Hcount; reflexivity. }
    split; [|split].
    + split; [exact A9|]. split; [|exact A7].
      rewrite Hlog1, Hcount; reflexivity.
    + split; [exact Fst|]. split; [|split; [|split]].
      * rewrite (Fc _ other_close), Hlog1, Hcount; reflexivity.
      * exact Fw.
      * rewrite (Fc _ other_audio), Hlog1, Hcount; reflexivity.
      * exact Hended.
    + now apply closed_ends_job.
Qed.

(** *** The progress of a whole job *)

(** X12: the progress of a whole job.  When the timeline is a whole
    number [n] of frames long, a video job whose frames have all been
    delivered reports [n + 1] progress values: after the [k]-th frame
    written (counting from 1) the percentage computed in [double]
    arithmetic from the timestamp [k] steps after 0 and the length,
    [qRound(100.0 * (t / length))], and a final 100 when the encoder has
    closed.  Every value lies between 0 and 100. *)
Theorem progress_of_a_whole_job tb len hashes (frames : nat -> QVariant)
    order :
  0 < tb ->
  length_ok len ->
  len == time_of tb (List.length hashes) ->
  (0 < List.length hashes)%nat ->
  Permutation order (requested tb len hashes false) ->
  let env := job_env tb len hashes in
  let calls :=
    setup_calls ++ frame_calls tb frames order ++ [CallEncoderClosed] in
  let tr := trace env calls (job_start tb false) in
  progress_values tr
  = map (fun k => progress_of env (time_of tb (S k)))
      (seq 0 (List.length hashes))
    ++ [100%Z]
  /\ List.length (progress_values tr) = S (List.length hashes)
  /\ Forall (fun p => (0 <= p <= 100)%Z) (progress_values tr).
Proof.
  intros Htb Hl Hlen Hpos Hperm. cbv zeta.
  destruct (whole_job_progress tb len hashes frames order
              Htb Hl Hlen Hpos Hperm)
    as (Hv & _ & Hr & Hd & _).
  cbv zeta in Hv, Hr, Hd.
  rewrite job_trace, app_assoc, run_app.
  remember (run (job_env tb len hashes)
              (setup_calls ++ frame_calls tb frames order)
              (job_start tb false)) as sf eqn:Esf.
  assert (E : progress_values
                (log (run (job_env tb len hashes) [CallEncoderClosed] sf))
              = progress_values (log sf) ++ [100%Z]).
  { unfold run. simpl. unfold deliver. rewrite Hd. simpl.
    rewrite !progress_values_app. simpl. now rewrite app_nil_r. }
  rewrite E. split; [now rewrite Hv|]. split.
  - rewrite Hv, length_app, length_map, length_seq. simpl. lia.
  - apply Forall_app. split; [exact Hr|]. constructor; [lia | constructor].
Qed.

(** *** Opening the encoder *)

Lemma handle_opens env c s :
  count is_EncoderOpen (log (handle env c s))
  = (count is_EncoderOpen (log s)
     + (if is_StartExporting c && initialize_ok env then 1 else 0))%nat.
Proof.
  assert (Quiet : forall c' : @Call QVariant,
             is_StartExporting c' = false ->
             (forall a : @Action QVariant Pixels,
                 emits c' a = true -> is_EncoderOpen a = false) ->
             count is_EncoderOpen (log (handle env c' s))
             = (count is_EncoderOpen (log s)
                + (if is_StartExporting c' && initialize_ok env
                   then 1 else 0))%nat).
  { intros c' -> Hc. simpl andb. cbv iota.
    destruct (handle_emits env c' s) as (ext & -> & Hext).
    rewrite count_app, (count_none is_EncoderOpen ext); [lia|].
    revert Hext. apply Forall_impl. exact Hc. }
  destruct c;
    try (apply Quiet; [reflexivity|];
         intros a; destruct a; simpl; intros; try reflexivity; discriminate).
  simpl handle. simpl andb. destruct (initialize_ok env) eqn:Hinit.
  - rewrite log_StartExporting by exact Hinit. rewrite !count_app.
    destruct (video_done_ s), (audio_done_ s); unfold count; simpl; lia.
  - unfold StartExporting, Initialize. rewrite Hinit. simpl.
    rewrite count_snoc. simpl. lia.
Qed.

(** X13: the encoder is opened by [StartExporting] and by nothing else:
    never when [Initialize] fails, and once for each [StartExporting]
    that is delivered when it succeeds; the code has no guard against a
    second start. *)
Theorem encoder_opened_once_per_start env calls s :
  (initialize_ok env = false ->
   count is_EncoderOpen (log (run env calls s))
   = count is_EncoderOpen (log s))
  /\ (initialize_ok env = true ->
      deleted_ (run env calls s) = false ->
      count is_EncoderOpen (log (run env calls s))
      = (count is_EncoderOpen (log s)
         + List.length (filter is_StartExporting calls))%nat).
Proof.
  split.
  - intros Hinit. revert s.
    induction calls as [|c calls IH]; intros s; [reflexivity|].
    rewrite run_cons, IH. unfold deliver.
    destruct (deleted_ s); [reflexivity|].
    rewrite handle_opens, Hinit, andb_false_r. lia.
  - intros Hinit. revert s.
    induction calls as [|c calls IH]; intros s Hd; [simpl; lia|].
    destruct (deleted_ s) eqn:Hs.
    { rewrite run_deleted in Hd by exact Hs. congruence. }
    rewrite run_cons in Hd |- *. rewrite (IH _ Hd). unfold deliver.
    rewrite Hs, handle_opens, Hinit, andb_true_r. simpl filter.
    destruct (is_StartExporting c); simpl; lia.
Qed.

(** *** The order of delivery *)

Lemma stamped_stable env tb w0 :
  stable env (fun a => negb (is_write a))
    (fun s =>
       video_params_time_base s = tb
       /\ exists n,
           write_times (log s) = map (stamp tb w0) (seq 0 n)
           /\ waiting_for_frame_ s = stamp tb w0 n).
Proof.
  constructor; try (intros; simpl; assumption).
  - intros a s Hok (Ht & n & E & Hw). split; [exact Ht|]. exists n.
    apply negb_true_iff in Hok.
    now rewrite (write_times_emit_quiet _ _ Hok).
  - intros v s (Ht & n & E & Hw).
    rewrite time_base_encode_body. split; [exact Ht|]. exists (S n).
    rewrite log_encode_body, write_times_app, write_times_body, E,
      waiting_encode_body, Ht, Hw, seq_S, map_app.
    split; reflexivity.
Qed.

Lemma stamped_frames (c : nat -> Frame Pixels) (g : nat -> rational)
    (R : Frame Pixels -> nat -> Prop) l ks :
  Forall2 (fun f k => f = set_timestamp (c k) (frame_timestamp f) /\ R f k)
    l ks ->
  map frame_timestamp l = map g ks ->
  l = map (fun k => set_timestamp (c k) (g k)) ks.
Proof.
  intros H. induction H as [|f k l ks [Hf _] _ IH]; intros E;
    [reflexivity|].
  simpl in E. injection E as E1 E2. simpl.
  rewrite <- IH by exact E2. now rewrite <- E1, <- Hf.
Qed.

(** The frames a whole job hands to the encoder. *)
Lemma job_frames tb len hashes (frames : nat -> QVariant) order audio :
  0 < tb ->
  (forall k, time_of tb k < len <-> (k < List.length hashes)%nat) ->
  Permutation order (requested tb len hashes audio) ->
  written_frames
    (trace (job_env tb len hashes)
       (setup_calls ++ frame_calls tb frames order) (job_start tb audio))
  = map (fun k =>
           set_timestamp (converted (frames (primary_of hashes k)))
             (stamp tb 0 k))
      (seq 0 (List.length hashes)).
Proof.
  intros Htb Hgrid Hperm. rewrite job_trace.
  destruct (job_settled tb len hashes frames order audio Htb Hgrid Hperm)
    as (seen & [[_ _ _ Hw _] _ _ _ _]).
  assert (Hst : exists n,
             write_times
               (log (run (job_env tb len hashes)
                       (setup_calls ++ frame_calls tb frames order)
                       (job_start tb audio)))
             = map (stamp tb 0) (seq 0 n)).
  { rewrite run_app, run_setup.
    change (run (job_env tb len hashes) (frame_calls tb frames order)
              (VideoHashesComplete (job_env tb len hashes)
                 (@after_open QVariant Pixels tb len audio)))
      with (run (job_env tb len hashes)
              (CallVideoHashesComplete :: frame_calls tb frames order)
              (@after_open QVariant Pixels tb len audio)).
    pose proof (frame_calls_quiet tb frames order) as Hq.
    destruct (run_stable (job_env tb len hashes) _ _
                (stamped_stable (job_env tb len hashes) tb 0)
                not_write_quiet
                (not_write_succeeded _ _
                   (stamped_stable (job_env tb len hashes) tb 0))
                (CallVideoHashesComplete :: frame_calls tb frames order)
                (@after_open QVariant Pixels tb len audio))
      as (_ & n & E & _).
    - revert Hq; apply Forall_impl; tauto.
    - reflexivity.
    - reflexivity.
    - split; [reflexivity|]. exists 0%nat.
      split; [now destruct audio | reflexivity].
    - now exists n. }
  destruct Hst as (n & Hst).
  assert (Hn : n = List.length hashes).
  { apply (f_equal (@List.length _)) in Hst.
    unfold write_times in Hst.
    rewrite !length_map, length_seq, (Forall2_length Hw), length_seq in Hst.
    congruence. }
  subst n. now apply (stamped_frames _ _ _ _ _ Hw).
Qed.

(** X14: the order in which the backend delivers the rendered frames
    does not matter: whatever the order, the encoder is handed the same
    frames, with the same timestamps, in the same order. *)
Theorem delivery_order_is_irrelevant tb len hashes (frames : nat -> QVariant)
    order order' audio :
  0 < tb ->
  (forall k, time_of tb k < len <-> (k < List.length hashes)%nat) ->
  Permutation order (requested tb len hashes audio) ->
  Permutation order' (requested tb len hashes audio) ->
  written_frames
    (trace (job_env tb len hashes)
       (setup_calls ++ frame_calls tb frames order) (job_start tb audio))
  = written_frames
      (trace (job_env tb len hashes)
         (setup_calls ++ frame_calls tb frames order') (job_start tb audio)).
Proof.
  intros Htb Hgrid Hperm Hperm'.
  now rewrite !(job_frames tb len hashes frames _ audio Htb Hgrid).
Qed.
End ExporterExtras.

(** ** The added properties at concrete inputs *)

Lemma no_render_before_hashes_witness :
  let calls : list (@Call nat) :=
    [CallStartExporting; CallEncoderOpenedSuccessfully] in
  ~ In CallVideoHashesComplete calls
  /\ count is_render_mode (trace ten_env calls ten_start) = 0%nat
  /\ render_requests (trace ten_env calls ten_start) = [].
Proof.
  intros calls.
  assert (H : ~ In CallVideoHashesComplete calls).
  { intros [H|[H|[]]]; discriminate H. }
  split; [exact H|].
  destruct (no_render_before_hashes ten_env calls ten_start H)
    as (H1 & H2 & _).
  split; [exact H1 | exact H2].
Defined.

Lemma initialize_failure_ends_job_witness :
  initialize_ok broken_env = false
  /\ log (StartExporting broken_env ten_start) = [ExportEnded]
  /\ GetExportStatus (StartExporting broken_env ten_start) = false
  /\ log (run_slots broken_env [CallStartExporting; CallStartExporting]
            ten_start)
     = [ExportEnded; ExportEnded].
Proof.
  split; [reflexivity|].
  destruct (initialize_failure_ends_job broken_env ten_start eq_refl)
    as (H1 & H2 & _ & _ & H3).
  split; [exact H1 | split; [exact H2 | exact (H3 2%nat)]].
Defined.

Lemma status_true_means_closing_witness :
  let calls :=
    setup_calls
    ++ frame_calls 1 ten_frames [0; 1; 2; 3; 4; 5; 6; 8; 9]%nat
    ++ [CallEncoderClosed] in
  let s' := run ten_env calls ten_start in
  (status_guard ten_start /\ GetExportStatus s' = true)
  /\ video_done_ s' = true /\ audio_done_ s' = true
  /\ (1 <= count is_EncoderClose (log s'))%nat.
Proof.
  intros calls s'.
  assert (H1 : status_guard ten_start) by (intros H; discriminate H).
  assert (H2 : GetExportStatus s' = true) by (vm_compute; reflexivity).
  split; [split; [exact H1 | exact H2]|].
  exact (status_true_means_closing ten_env calls ten_start H1 H2).
Defined.

Lemma error_message_only_on_failure_witness :
  (initialize_ok ten_env = true
   /\ ~ In CallEncoderOpenFailed (@setup_calls nat))
  /\ GetExportError (run ten_env setup_calls ten_start)
     = GetExportError ten_start.
Proof.
  assert (H : ~ In CallEncoderOpenFailed (@setup_calls nat)).
  { intros [H|[H|[H|[]]]]; discriminate H. }
  split; [split; [reflexivity | exact H]|].
  exact (error_message_only_on_failure ten_env setup_calls ten_start
           eq_refl H).
Defined.

Lemma frames_written_without_gaps_witness :
  let calls := frame_calls 1 ten_frames [1; 0]%nat in
  Forall (fun c => c <> CallStartExporting) calls
  /\ exists new,
      write_times (log (run ten_env calls ten_ready))
      = write_times (log ten_ready) ++ new
      /\ waiting_for_frame_ (run ten_env calls ten_ready)
         == waiting_for_frame_ ten_ready
            + inject_Z (Z.of_nat (List.length new))
              * video_params_time_base ten_ready
      /\ forall i ts,
          nth_error new i = Some ts ->
          ts == waiting_for_frame_ ten_ready
                + inject_Z (Z.of_nat i) * video_params_time_base ten_ready.
Proof.
  intros calls.
  assert (H : Forall (fun c : @Call nat => c <> CallStartExporting) calls).
  { repeat constructor; discriminate. }
  split; [exact H|].
  exact (frames_written_without_gaps ten_env calls ten_ready H).
Defined.

Lemma distinct_hashes_render_everything_witness :
  NoDup (map snd (time_hash_map short_env))
  /\ log (VideoHashesComplete short_env ten_start)
     = log ten_start
       ++ [VideoSetOperatingMode kRenderOnly;
           VideoSetOnlySignalLastFrameRequested false;
           VideoInvalidateCache 0 (Length short_env)]
  /\ matched_frames_ (VideoHashesComplete short_env ten_start)
     = matched_frames_ ten_start.
Proof.
  assert (H : NoDup (map snd (time_hash_map short_env))).
  { repeat constructor; simpl; intuition discriminate. }
  split; [exact H|].
  exact (distinct_hashes_render_everything short_env ten_start H).
Defined.

Lemma frame_without_duplicates_witness :
  HashMap.find (QMap.value 0 (time_hash_map ten_env) [])
    (matched_frames_ ten_ready) = None
  /\ FrameRendered ten_env 0 0%nat ten_ready
     = EncodeFrame ten_env 0 0%nat ten_ready.
Proof.
  assert (H : HashMap.find (QMap.value 0 (time_hash_map ten_env) [])
                (matched_frames_ ten_ready) = None) by reflexivity.
  split; [exact H|].
  exact (proj2 (frame_without_duplicates ten_env 0 0%nat ten_ready) H).
Defined.

Lemma audio_only_job_succeeds_witness :
  let calls : list (@Call nat) :=
    [CallStartExporting; CallEncoderOpenedSuccessfully; CallAudioRendered;
     CallAudioEncodeComplete; CallEncoderClosed] in
  let s0 : @Exporter nat nat := EnableAudio constructor in
  initialize_ok ten_env = true
  /\ GetExportStatus (run ten_env calls s0) = true.
Proof.
  intros calls s0. split; [reflexivity|].
  exact (proj2 (proj2 (@audio_only_job_succeeds nat nat example_hooks
                         ten_env eq_refl))).
Defined.

Lemma last_stream_closes_the_encoder_witness :
  let order := rev [0; 1; 2; 3; 4; 5; 6; 8; 9]%nat in
  let video := frame_calls 1 ten_frames order in
  let audio : list (@Call nat) :=
    [CallAudioRendered; CallAudioEncodeComplete] in
  let s1 := run ten_env (setup_calls ++ audio) (job_start 1 true) in
  let s2 := run ten_env (setup_calls ++ audio ++ video) (job_start 1 true) in
  (0 < 1
   /\ (forall k, time_of 1 k < inject_Z 10
                 <-> (k < List.length scenario_hashes)%nat)
   /\ (0 < List.length scenario_hashes)%nat
   /\ Permutation order (requested 1 (inject_Z 10) scenario_hashes true))
  /\ (GetExportStatus s1 = false
      /\ count is_EncoderClose (log s1) = 0%nat)
  /\ (GetExportStatus s2 = true
      /\ count is_EncoderClose (log s2) = 1%nat
      /\ count is_write (log s2) = 10%nat).
Proof.
  intros order video audio s1 s2.
  assert (H1 : 0 < 1) by reflexivity.
  assert (H2 : forall k, time_of 1 k < inject_Z 10
                         <-> (k < List.length scenario_hashes)%nat)
    by exact grid_scenario.
  assert (H3 : (0 < List.length scenario_hashes)%nat) by (simpl; lia).
  assert (H4 : Permutation order
                 (requested 1 (inject_Z 10) scenario_hashes true)).
  { apply Permutation_sym. exact (Permutation_rev _). }
  split; [split; [exact H1 | split; [exact H2 | split; [exact H3 | exact H4]]]|].
  destruct (last_stream_closes_the_encoder 1 (inject_Z 10) scenario_hashes
              ten_frames order H1 H2 H3 H4 audio video
              (or_intror (conj eq_refl eq_refl)))
    as ((A1 & A2 & _) & (B1 & B2 & B3 & _) & _).
  split; [split; [exact A1 | exact A2]|].
  split; [exact B1 | split; [exact B2 | exact B3]].
Defined.

Lemma progress_of_a_whole_job_witness :
  let order := rev [0; 1; 2; 3; 4; 5; 6; 8; 9]%nat in
  let calls :=
    setup_calls ++ frame_calls 1 ten_frames order ++ [CallEncoderClosed] in
  (0 < 1
   /\ length_ok (inject_Z 10)
   /\ inject_Z 10 == time_of 1 (List.length scenario_hashes)
   /\ (0 < List.length scenario_hashes)%nat
   /\ Permutation order (requested 1 (inject_Z 10) scenario_hashes false))
  /\ List.length (progress_values (trace ten_env calls ten_start)) = 11%nat
  /\ Forall (fun p => (0 <= p <= 100)%Z)
       (progress_values (trace ten_env calls ten_start)).
Proof.
  intros order calls.
  assert (H1 : 0 < 1) by reflexivity.
  assert (H2 : length_ok (inject_Z 10))
    by (split; apply Qle_bool_iff; vm_compute; reflexivity).
  assert (H3 : inject_Z 10 == time_of 1 (List.length scenario_hashes))
    by reflexivity.
  assert (H4 : (0 < List.length scenario_hashes)%nat) by (simpl; lia).
  assert (H5 : Permutation order
                 (requested 1 (inject_Z 10) scenario_hashes false)).
  { apply Permutation_sym. exact (Permutation_rev _). }
  split;
    [split; [exact H1 | split; [exact H2 | split; [exact H3 |
     split; [exact H4 | exact H5]]]]|].
  exact (proj2 (progress_of_a_whole_job 1 (inject_Z 10) scenario_hashes
                  ten_frames order H1 H2 H3 H4 H5)).
Defined.

Lemma delivery_order_is_irrelevant_witness :
  let order := [0; 1; 2; 3; 4; 5; 6; 8; 9]%nat in
  (0 < 1
   /\ (forall k, time_of 1 k < inject_Z 10
                 <-> (k < List.length scenario_hashes)%nat)
   /\ Permutation order (requested 1 (inject_Z 10) scenario_hashes false)
   /\ Permutation (rev order)
        (requested 1 (inject_Z 10) scenario_hashes false))
  /\ written_frames
       (trace ten_env (setup_calls ++ frame_calls 1 ten_frames order)
          ten_start)
     = written_frames
         (trace ten_env (setup_calls ++ frame_calls 1 ten_frames (rev order))
            ten_start).
Proof.
  intros order.
  assert (H1 : 0 < 1) by reflexivity.
  assert (H2 : forall k, time_of 1 k < inject_Z 10
                         <-> (k < List.length scenario_hashes)%nat)
    by exact grid_scenario.
  assert (H3 : Permutation order
                 (requested 1 (inject_Z 10) scenario_hashes false))
    by exact (Permutation_refl _).
  assert (H4 : Permutation (rev order)
                 (requested 1 (inject_Z 10) scenario_hashes false)).
  { apply Permutation_sym. exact (Permutation_rev _). }
  split; [split; [exact H1 | split; [exact H2 | split; [exact H3 | exact H4]]]|].
  exact (delivery_order_is_irrelevant 1 (inject_Z 10) scenario_hashes
           ten_frames order (rev order) false H1 H2 H3 H4).
Defined.
